(** * BoundedPoly: a bounded, heap-free container for polymorphic values

    A shallow embedding of [src/jv/bounded-poly.hpp].

    - Part 1 embeds the compile-time layer: the answers of [<type_traits>]
      about a type are data ([type_info], [class], [MoverType]) and the
      predicates [is_storable], [is_movable] and [can_handle] are the boolean
      formulas of the header.  A class also says what its move constructor
      does, the defaulted one or one of its own.
    - Part 2 embeds the run-time layer: objects with a dynamic type, storage
      slots with object lifetimes, placement new, the two movers of the
      header and every member function of [BoundedPoly], written in a small
      state-and-failure monad over a store of containers.  Containers are
      named by their address in the store, so that [other] may be [*this].
      A constructor call [Derived(args...)] is data as well: what the traits
      answer for its argument types, and what it makes, if it returns.
      The pipeline of [examples/benchmark] is embedded as a client.
    - Part 3 states and proves the properties: first those that the
      specification claims (C1 to C10), then further ones that the code
      shows (X1 to X20). *)

From stdpp Require Import gmap strings list.

(** ** Part 1. Types as the type traits see them *)

(** What [sizeof], [alignof] and the [std::is_*] traits used by the header
    answer for a type.  [alignof] is never zero in C++, hence [positive]. *)
Record type_info := TypeInfo {
  sizeof : N;
  alignof : positive;
  is_trivial : bool;
  is_nothrow_move_constructible : bool;
  is_nothrow_destructible : bool;
  has_virtual_destructor : bool
}.

(** [jv::is_storable<T, Storage>::value]. *)
Definition is_storable (T Storage : type_info) : bool :=
  (sizeof T <=? sizeof Storage)%N
  && (Npos (alignof Storage) mod Npos (alignof T) =? 0)%N
  && is_trivial Storage.

(** A data member: a scalar, which a move copies, or an owning pointer
    ([std::unique_ptr] in the tests), which a move empties. *)
Inductive field :=
  | plain (z : Z)
  | unique_ptr (p : option Z).

(** Move construction of one member: the new member and what the source
    keeps. *)
Definition move_field (f : field) : field * field :=
  match f with
  | plain z => (plain z, plain z)
  | unique_ptr p => (unique_ptr p, unique_ptr None)
  end.

(** Move construction of each member of a list. *)
Definition move_members (fs : list field) : list field * list field :=
  (map (λ f, (move_field f).1) fs, map (λ f, (move_field f).2) fs).

(** How a move constructor written by hand initialises one member of the new
    object: from the member of the source, by move or by copy, or with a
    value of its own, the member of the source left alone (as are the members
    of a base class that the constructor default-constructs). *)
Inductive member_init :=
  | by_move
  | by_copy
  | by_value (f : field).

(** The new member and what the source keeps. *)
Definition init_member (i : member_init) (f : field) : field * field :=
  match i with
  | by_move => move_field f
  | by_copy => (f, f)
  | by_value g => (g, f)
  end.

(** The members of a complete object under a move constructor written by
    hand, in order, the members of the base class subobject first; a member
    that [inits] does not reach is moved. *)
Fixpoint initialise (inits : list member_init) (fs : list field)
    : list (field * field) :=
  match fs, inits with
  | [], _ => []
  | f :: fs, [] => move_field f :: initialise [] fs
  | f :: fs, i :: inits => init_member i f :: initialise inits fs
  end.

(** The declaration of one class: its name, what the traits say about it, the
    number of data members it declares itself, whether it declares its own
    override of the relocation method that [VirtualMover] calls
    ([move_to] in the tests, whose body is
    [new (dst) Self(std::move( *this))]), and its move constructor: [None]
    for the implicit or defaulted one, else what the one the class provides
    does with each member. *)
Record class_decl := ClassDecl {
  cname : string;
  cinfo : type_info;
  own_fields : nat;
  overrides_relocation : bool;
  move_ctor : option (list member_init)
}.

(** A class together with its chain of base classes (single inheritance, as in
    the tests and the examples). *)
Inductive class :=
  | BaseClass (d : class_decl)
  | SubClass (d : class_decl) (parent : class).

Definition decl (c : class) : class_decl :=
  match c with BaseClass d | SubClass d _ => d end.

Definition info (c : class) : type_info := cinfo (decl c).

#[global] Instance type_info_eq_dec : EqDecision type_info.
Proof. solve_decision. Defined.
#[global] Instance field_eq_dec : EqDecision field.
Proof. solve_decision. Defined.
#[global] Instance member_init_eq_dec : EqDecision member_init.
Proof. solve_decision. Defined.
#[global] Instance class_decl_eq_dec : EqDecision class_decl.
Proof. solve_decision. Defined.
#[global] Instance class_eq_dec : EqDecision class.
Proof. solve_decision. Defined.

(** [std::is_base_of_v<B, D>] for class types: [D] is [B] or inherits from it. *)
Fixpoint is_base_of (B D : class) : bool :=
  bool_decide (B = D)
  || match D with
     | BaseClass _ => false
     | SubClass _ parent => is_base_of B parent
     end.

(** Number of data members of a complete object of class [c]; the members of
    the base class subobject come first. *)
Fixpoint total_fields (c : class) : nat :=
  match c with
  | BaseClass d => own_fields d
  | SubClass d parent => total_fields parent + own_fields d
  end.

(** The final overrider of the relocation method in class [c]: the class
    nearest to [c] on its inheritance chain that declares it. *)
Fixpoint final_overrider (c : class) : option class :=
  if overrides_relocation (decl c) then Some c
  else match c with
       | BaseClass _ => None
       | SubClass _ parent => final_overrider parent
       end.

(** [X(X &&)] on the members [fs] of an [X]: the members of the new object
    and what the source keeps.  The defaulted move constructor moves the base
    class subobject with the move constructor of the base class, then each
    member that [X] declares. *)
Fixpoint move_construct (X : class) (fs : list field)
    : list field * list field :=
  match move_ctor (decl X), X with
  | Some inits, _ => ((initialise inits fs).*1, (initialise inits fs).*2)
  | None, BaseClass _ => move_members fs
  | None, SubClass _ parent =>
      let base := move_construct parent (take (total_fields parent) fs) in
      let own := move_members (drop (total_fields parent) fs) in
      (base.1 ++ own.1, base.2 ++ own.2)
  end.

(** The move constructors of [X] and of all its bases are the defaulted
    ones. *)
Fixpoint moves_memberwise (X : class) : bool :=
  bool_decide (move_ctor (decl X) = None)
  && match X with
     | BaseClass _ => true
     | SubClass _ parent => moves_memberwise parent
     end.

(** ** Mover types

    [Mover] is a template parameter of [is_movable] and [BoundedPoly]: every
    use the header makes of it is listed here.  The first five fields are
    answers of [<type_traits>]: [is_nothrow_destructible_v<Mover>],
    [is_nothrow_invocable_r_v<void, Mover, T &&, void *>], [is_empty_v<Mover>],
    [is_nothrow_copy_assignable_v<Mover>] and
    [is_nothrow_constructible_v<Mover, A const *>].  The next two are the ways
    the header obtains a mover value: [mover_default] is [Mover{}], where that
    exists, and [mover_from_witness A] is [Mover{(A const * )nullptr}], [None]
    when that constructor fails.  [mover_target m c] is the class [X] that
    calling [m] on an object of dynamic type [c] move-constructs at the
    destination ([new (dst) X(std::move(static_cast<X &&>(src)))]), [None]
    when the call is undefined. *)
Class MoverType (Mover : Type) := {
  mover_nothrow_destructible : bool;
  mover_nothrow_invocable : class → bool;
  mover_is_empty : bool;
  mover_nothrow_copy_assignable : bool;
  mover_nothrow_constructible : class → bool;
  mover_default : option Mover;
  mover_from_witness : class → option Mover;
  mover_target : Mover → class → option class
}.

Arguments mover_nothrow_destructible Mover {_}.
Arguments mover_nothrow_invocable Mover {_} T.
Arguments mover_is_empty Mover {_}.
Arguments mover_nothrow_copy_assignable Mover {_}.
Arguments mover_nothrow_constructible Mover {_} A.
Arguments mover_default Mover {_}.
Arguments mover_from_witness Mover {_} A.

(** [jv::is_movable<T, Mover, A>::value]. *)
Definition is_movable (T : class) (Mover : Type) `{MoverType Mover}
    (A : class) : bool :=
  mover_nothrow_destructible Mover
  && mover_nothrow_invocable Mover T
  && is_base_of T A
  && (mover_is_empty Mover
      || (mover_nothrow_copy_assignable Mover
          && mover_nothrow_constructible Mover A)).

(** An empty class has no state: all its values are the one [Mover{}] that
    [impl_MoverStorage<Mover, true>] keeps as a static member. *)
Class EmptyMoverUnique (Mover : Type) `{MoverType Mover} : Prop :=
  empty_mover_unique :
    mover_is_empty Mover = true → ∀ m : Mover, mover_default Mover = Some m.

(** [jv::UniversalMover<T>]: one function pointer, set by the constructor
    template to the lambda that moves an [A]. *)
Inductive UniversalMover (T : class) :=
  | UniversalMover_for (A : class).
Arguments UniversalMover_for {T} A.

Definition bound_class {T} (m : UniversalMover T) : class :=
  match m with UniversalMover_for A => A end.

#[global] Instance UniversalMover_type (T : class) :
    MoverType (UniversalMover T) := {|
  mover_nothrow_destructible := true;
  (* operator()(T &&, void * ) const noexcept: an rvalue of a class derived
     from T binds to T &&. *)
  mover_nothrow_invocable T' := is_base_of T T';
  mover_is_empty := false;
  mover_nothrow_copy_assignable := true;
  (* template <typename A> constexpr UniversalMover(A const * ) noexcept *)
  mover_nothrow_constructible _ := true;
  mover_default := None;
  mover_from_witness A := Some (UniversalMover_for A);
  (* A &&moveref = static_cast<A &&>(src); new (dst) A(std::move(moveref));
     the downcast is defined only when src really is an A. *)
  mover_target m c :=
    if is_base_of (bound_class m) c then Some (bound_class m) else None
|}.

(** [jv::VirtualMover<T, Method>]: an empty class whose call operator invokes
    the virtual [Method] of the source object. *)
Inductive VirtualMover (T : class) :=
  | VirtualMover_value.
Arguments VirtualMover_value {T}.

#[global] Instance VirtualMover_type (T : class) :
    MoverType (VirtualMover T) := {|
  mover_nothrow_destructible := true;
  mover_nothrow_invocable T' := is_base_of T T';
  mover_is_empty := true;
  mover_nothrow_copy_assignable := true;
  (* only the implicit default, copy and move constructors exist *)
  mover_nothrow_constructible _ := false;
  mover_default := Some VirtualMover_value;
  mover_from_witness _ := None;
  (* (std::move(src).*Method)(dst): virtual dispatch to the final overrider *)
  mover_target _ c := final_overrider c
|}.

(** ** The admission predicate of a container type *)

Section Admission.
Context {Mover : Type} `{MoverType Mover}.
Variables (Storage : type_info) (Base : class).

(** The [static_assert]s in the body of the class template. *)
Definition class_static_asserts : bool :=
  is_nothrow_destructible (info Base)
  && has_virtual_destructor (info Base)
  && is_storable (info Base) Storage
  && mover_nothrow_destructible Mover
  && mover_nothrow_invocable Mover Base.

(** [BoundedPoly<Storage, Base, Mover>::can_handle<T>::value]. *)
Definition can_handle (T : class) : bool :=
  is_nothrow_move_constructible (info T)
  && is_base_of Base T
  && is_movable Base Mover T
  && is_storable (info T) Storage.
End Admission.

Arguments class_static_asserts Mover {_} Storage Base.
Arguments can_handle Mover {_} Storage Base T.

(** ** Part 2. Objects, storage and the container *)

(** An object within its lifetime: its identity, its dynamic type and its
    members, those of the base class subobject first. *)
Record object := Object {
  oid : nat;
  dyn : class;
  fields : list field
}.

(** The value of an object as a caller observes it through [get()] and a
    [dynamic_cast]. *)
Definition observe (o : object) : class * list field := (dyn o, fields o).

(** A [T] value has exactly the members of [T]. *)
Definition has_type (T : class) (v : list field) : bool :=
  bool_decide (length v = total_fields T).

(** The move constructor of [X] applied to the [X] subobject of [o]: the
    object it creates, and [o] afterwards.  Members of [o] that [X] does not
    declare are not touched. *)
Definition moved_into (X : class) (o : object) (id : nat) : object :=
  Object id X (move_construct X (take (total_fields X) (fields o))).1.

Definition moved_from (X : class) (o : object) : object :=
  Object (oid o) (dyn o)
    ((move_construct X (take (total_fields X) (fields o))).2
     ++ drop (total_fields X) (fields o)).

(** The value of [o] as the move constructor of its class carries it into a
    new object. *)
Definition carried (o : object) : class * list field :=
  (dyn o, (move_construct (dyn o) (fields o)).1).

(** The move constructor of [X] has nothing to take from [o]: it leaves the
    [X] subobject of [o] as it finds it. *)
Definition spent (X : class) (o : object) : bool :=
  bool_decide ((move_construct X (take (total_fields X) (fields o))).2
               = take (total_fields X) (fields o)).

(** A constructor call [Derived(args...)]: what
    [std::is_constructible_v<Derived, Args...>] and
    [std::is_nothrow_constructible_v<Derived, Args...>] answer, and the
    members of the object the call makes, [None] when the constructor
    throws. *)
Record construction := Construction {
  is_constructible : bool;
  is_nothrow_constructible : bool;
  made : option (list field)
}.

(** The call of a constructor declared [noexcept], of one that may throw and
    returns, and of one that throws. *)
Definition nothrow_call (v : list field) : construction :=
  Construction true true (Some v).

Definition returning_call (v : list field) : construction :=
  Construction true false (Some v).

Definition throwing_call : construction := Construction true false None.

(** A region of storage: it holds an object within its lifetime, or none. *)
Definition slot := option object.

(** The storage regions the header names: [storage_] of the container at
    address [i], and the local [Storage tmp] of [swap]. *)
Inductive loc :=
  | Stored (i : nat)
  | Tmp.

#[global] Instance loc_eq_dec : EqDecision loc.
Proof. solve_decision. Defined.

(** What an execution does, in order. *)
Inductive event :=
  | EvBind (T : class)
  | EvNew (l : loc) (id : nat) (T : class)
  | EvRelocate (src dst : loc) (id : nat) (X : class)
  | EvDestroy (l : loc) (id : nat)
  | EvCopyMover (i : nat)
  | EvSwapMover (i j : nat).

(** How an operation ends: normally; with an exception leaving it in state
    [s] (out of a [noexcept] function this is [std::terminate]); with
    undefined behaviour; or not at all, rejected by a [static_assert]. *)
Inductive outcome (S A : Type) :=
  | Done (a : A) (s : S)
  | Throws (s : S)
  | Undefined
  | IllFormed.
Arguments Done {S A} a s.
Arguments Throws {S A} s.
Arguments Undefined {S A}.
Arguments IllFormed {S A}.

Definition ret {S A} (a : A) : S → outcome S A := λ s, Done a s.

Definition bind {S A B} (m : S → outcome S A) (k : A → S → outcome S B)
    : S → outcome S B :=
  λ s, match m s with
       | Done a s' => k a s'
       | Throws s' => Throws s'
       | Undefined => Undefined
       | IllFormed => IllFormed
       end.

Declare Scope M_scope.
Notation "x <- m ;; k" := (bind m (λ x, k))
  (at level 100, m at next level, k at level 200, right associativity,
   only parsing) : M_scope.
Notation "m ;; k" := (bind m (λ _, k))
  (at level 100, k at level 200, right associativity, only parsing) : M_scope.
Delimit Scope M_scope with M.
Open Scope M_scope.

(** The three ways to fail. *)
Definition undefined {S A} : S → outcome S A := λ _, Undefined.
Definition throw {S A} : S → outcome S A := λ s, Throws s.
Definition static_assert {S} (b : bool) : S → outcome S unit :=
  λ s, if b then Done tt s else IllFormed.

Section Container.
Context {Mover : Type} `{MoverType Mover}.
Variables (Storage : type_info) (Base : class).

(** The data of one [BoundedPoly<Storage, Base, Mover>]: the [mover_] of its
    [MoverStorage] base (for an empty [Mover], the shared static one) and its
    [storage_]. *)
Record BoundedPoly := Container {
  mover_ : Mover;
  storage_ : slot
}.

(** The containers alive, by address; the local of a running [swap]; the next
    fresh object identity; the events so far. *)
Record state := State {
  heap : gmap nat BoundedPoly;
  tmp : slot;
  next_oid : nat;
  trace : list event
}.

Definition M (A : Type) : Type := state → outcome state A.

Definition emit (e : event) : M unit :=
  λ s, Done tt (State (heap s) (tmp s) (next_oid s) (trace s ++ [e])).

Definition fresh_oid : M nat :=
  λ s, Done (next_oid s) (State (heap s) (tmp s) (S (next_oid s)) (trace s)).

Definition slot_at (l : loc) (s : state) : option slot :=
  match l with
  | Stored i => storage_ <$> heap s !! i
  | Tmp => Some (tmp s)
  end.

Definition set_slot (l : loc) (x : slot) (s : state) : state :=
  match l with
  | Stored i =>
      State (alter (λ c, Container (mover_ c) x) i (heap s))
        (tmp s) (next_oid s) (trace s)
  | Tmp => State (heap s) x (next_oid s) (trace s)
  end.

Definition this (i : nat) : M BoundedPoly :=
  λ s, match heap s !! i with
       | Some c => Done c s
       | None => Undefined
       end.

Definition read (l : loc) : M slot :=
  λ s, match slot_at l s with
       | Some x => Done x s
       | None => Undefined
       end.

Definition write (l : loc) (x : slot) : M unit :=
  λ s, match slot_at l s with
       | Some _ => Done tt (set_slot l x s)
       | None => Undefined
       end.

(** The object at [l]; using storage that holds no object within its lifetime
    is undefined. *)
Definition live (l : loc) : M object :=
  x <- read l ;;
  match x with
  | Some o => ret o
  | None => undefined
  end.

(** [new (l) T(...)] from a value or from constructor arguments; [v] is the
    state the constructor of [T] gives the new object.  Placement new reuses
    the storage: an object still there ends its lifetime, with no destructor
    call. *)
Definition construct_at (l : loc) (T : class) (v : list field) : M unit :=
  write l None ;;
  id <- fresh_oid ;;
  write l (Some (Object id T v)) ;;
  emit (EvNew l id T).

(** [new (dst) X(std::move(static_cast<X &&>(src)))]: the move constructor of
    [X] reads the [X] subobject of the source, which must hold an object,
    initialises the new object from it and leaves the source moved-from; the
    storage at [dst] is reused, and an object still there is gone with no
    destructor call.  When [dst] is the storage of the source itself, as in
    the second step of [a.swap(a)], the constructor reads and writes the same
    members: where it leaves the members of the source as it finds them they
    end as it initialises them; where it would empty an owning pointer that
    still owns, nothing says which of the two the member ends as. *)
Definition move_construct_at (dst : loc) (X : class) (src : loc) : M unit :=
  o <- live src ;;
  id <- fresh_oid ;;
  (if decide (src = dst) then
     if spent X o then write dst (Some (moved_into X o id)) else undefined
   else
     write dst None ;;
     write src (Some (moved_from X o)) ;;
     write dst (Some (moved_into X o id))) ;;
  emit (EvRelocate src dst id X).

(** [m(std::move(src), dst)]. *)
Definition call_mover (m : Mover) (src dst : loc) : M unit :=
  o <- live src ;;
  match mover_target m (dyn o) with
  | Some X => move_construct_at dst X src
  | None => undefined
  end.

(** [reinterpret_cast<Base &>(l).~Base()]: the destructor is virtual, the
    whole object is destroyed. *)
Definition destroy_at (l : loc) : M unit :=
  o <- live l ;;
  write l None ;;
  emit (EvDestroy l (oid o)).

(** *** [details::impl_MoverStorage] *)

(** [MoverStorage{static_cast<T const *>(nullptr)}]: for an empty [Mover] the
    static [mover_{}], else [mover_{t}], which may throw. *)
Definition MoverStorage_witness (T : class) : M Mover :=
  if mover_is_empty Mover then
    match mover_default Mover with
    | Some m => emit (EvBind T) ;; ret m
    | None => λ _, IllFormed
    end
  else
    match mover_from_witness Mover T with
    | Some m => emit (EvBind T) ;; ret m
    | None => throw
    end.

(** The mover [MoverStorage_witness T] yields, when it yields one. *)
Definition bound_mover (T : class) : option Mover :=
  if mover_is_empty Mover then mover_default Mover
  else mover_from_witness Mover T.

Definition set_mover (i : nat) (m : Mover) : M unit :=
  λ s, match heap s !! i with
       | Some _ =>
           Done tt (State (alter (λ c, Container m (storage_ c)) i (heap s))
                      (tmp s) (next_oid s) (trace s))
       | None => Undefined
       end.

(** [copy_mover]: [mover_ = mover], or nothing for an empty [Mover]. *)
Definition copy_mover (i : nat) (m : Mover) : M unit :=
  (if mover_is_empty Mover then _ <- this i ;; ret tt else set_mover i m) ;;
  emit (EvCopyMover i).

(** [swap_mover]: [std::swap(mover_, other.mover_)], or nothing for an empty
    [Mover]. *)
Definition swap_mover (i j : nat) : M unit :=
  a <- this i ;;
  b <- this j ;;
  (if mover_is_empty Mover then ret tt
   else set_mover i (mover_ b) ;; set_mover j (mover_ a)) ;;
  emit (EvSwapMover i j).

(** *** The members of [BoundedPoly] *)

(** The storage of the container at address [i] is given back. *)
Definition deallocate (i : nat) : M unit :=
  λ s, Done tt (State (delete i (heap s)) (tmp s) (next_oid s) (trace s)).

(** Storage for a new container at address [i], its mover initialised. *)
Definition allocate (i : nat) (m : Mover) : M unit :=
  λ s, match heap s !! i with
       | None =>
           Done tt (State (<[i := Container m None]> (heap s))
                      (tmp s) (next_oid s) (trace s))
       | Some _ => Undefined
       end.

(** What every member that takes a [Derived] asserts, and that the argument
    is a [Derived]. *)
Definition accepts (T : class) (v : list field) : bool :=
  class_static_asserts Mover Storage Base
  && can_handle Mover Storage Base T
  && has_type T v.

(** The same for a member that constructs a [Derived] from arguments: what
    the constructor makes is a [Derived]. *)
Definition accepts_args (T : class) (args : construction) : bool :=
  class_static_asserts Mover Storage Base
  && can_handle Mover Storage Base T
  && match made args with
     | Some v => has_type T v
     | None => true
     end.

(** [BoundedPoly(Derived &&derived)]: the value is constructed by the move
    constructor of [Derived], from the argument. *)
Definition BoundedPoly_value (i : nat) (T : class) (derived : list field)
    : M unit :=
  static_assert (accepts T derived) ;;
  (* : MoverStorage{static_cast<Derived const *>(nullptr)} *)
  m <- MoverStorage_witness T ;;
  allocate i m ;;
  (* new (&storage_) Derived(std::forward<Derived>(derived)) *)
  construct_at (Stored i) T (move_construct T derived).1.

(** [BoundedPoly(std::in_place_type_t<Derived>, Args &&...args)].  The
    constructor is not [noexcept]: when [Derived(args...)] throws, the
    exception leaves it and no container has been constructed. *)
Definition BoundedPoly_in_place (i : nat) (T : class) (args : construction)
    : M unit :=
  static_assert (is_constructible args) ;;
  static_assert (accepts_args T args) ;;
  (* : MoverStorage{static_cast<Derived const *>(nullptr)} *)
  m <- MoverStorage_witness T ;;
  allocate i m ;;
  (* new (&storage_) Derived(std::forward<Args>(args)...) *)
  match made args with
  | Some v => construct_at (Stored i) T v
  | None => deallocate i ;; throw
  end.

(** [BoundedPoly(BoundedPoly &&other)], [other] at address [j]. *)
Definition BoundedPoly_move (i j : nat) : M unit :=
  other <- this j ;;
  (* : MoverStorage{(MoverStorage const &)other} *)
  allocate i (mover_ other) ;;
  (* this->mover_(std::move(other.get()), &storage_) *)
  c <- this i ;;
  call_mover (mover_ c) (Stored j) (Stored i).

(** [operator=(Derived derived)]: the value is constructed by the move
    constructor of [Derived], from the parameter. *)
Definition assign_value (i : nat) (T : class) (derived : list field)
    : M unit :=
  static_assert (accepts T derived) ;;
  _ <- this i ;;
  (* MoverStorage mover{static_cast<Derived const *>(nullptr)}; *)
  mover <- MoverStorage_witness T ;;
  (* get().~Base(); *)
  destroy_at (Stored i) ;;
  (* this->copy_mover(mover.mover_); *)
  copy_mover i mover ;;
  (* new (&storage_) Derived(std::move(derived)); *)
  construct_at (Stored i) T (move_construct T derived).1.

(** [operator=(BoundedPoly &&other)]. *)
Definition assign_move (i j : nat) : M unit :=
  (* get().~Base(); *)
  destroy_at (Stored i) ;;
  (* this->copy_mover(other.mover_); *)
  other <- this j ;;
  copy_mover i (mover_ other) ;;
  (* this->mover_(std::move(other.get()), &storage_); *)
  c <- this i ;;
  call_mover (mover_ c) (Stored j) (Stored i).

(** [emplace<Derived>(args...)]; an exception out of a constructor that
    [std::is_nothrow_constructible_v] vouches for is [std::terminate]. *)
Definition emplace (i : nat) (T : class) (args : construction) : M unit :=
  static_assert (accepts_args T args) ;;
  static_assert (is_nothrow_constructible args) ;;
  _ <- this i ;;
  (* MoverStorage mover{static_cast<Derived const *>(nullptr)}; *)
  mover <- MoverStorage_witness T ;;
  (* get().~Base(); *)
  destroy_at (Stored i) ;;
  (* this->copy_mover(mover.mover_); *)
  copy_mover i mover ;;
  (* new (&storage_) Derived(std::forward<Args>(args)...); *)
  match made args with
  | Some v => construct_at (Stored i) T v
  | None => throw
  end.

(** [~BoundedPoly()]; the storage of the container goes with it. *)
Definition destructor (i : nat) : M unit :=
  (* get().~Base(); *)
  destroy_at (Stored i) ;;
  deallocate i.

(** [get()]: the object the returned reference designates. *)
Definition get (i : nat) : M object := live (Stored i).

(** [swap(BoundedPoly &other)]. *)
Definition swap (i j : nat) : M unit :=
  (* Storage tmp; *)
  write Tmp None ;;
  (* this->mover_(std::move(get()), &tmp); *)
  a <- this i ;;
  call_mover (mover_ a) (Stored i) Tmp ;;
  (* other.mover_(std::move(other.get()), &storage_); *)
  b <- this j ;;
  call_mover (mover_ b) (Stored j) (Stored i) ;;
  (* this->mover_(std::move(reinterpret_cast<Base &>(tmp)), &other.storage_); *)
  a' <- this i ;;
  call_mover (mover_ a') Tmp (Stored j) ;;
  (* reinterpret_cast<Base &>(tmp).~Base(); *)
  destroy_at Tmp ;;
  (* this->swap_mover(other); *)
  swap_mover i j.

End Container.

Arguments BoundedPoly Mover : clear implicits.
Arguments state Mover : clear implicits.
Arguments M Mover A : clear implicits.

(** ** Programs over containers *)

(** One statement of a client program; [i] and [j] are addresses of
    containers. *)
Inductive operation :=
  | Construct (i : nat) (T : class) (v : list field)
  | InPlace (i : nat) (T : class) (args : construction)
  | MoveConstruct (i j : nat)
  | Assign (i : nat) (T : class) (v : list field)
  | AssignMove (i j : nat)
  | Emplace (i : nat) (T : class) (args : construction)
  | Swap (i j : nat)
  | Destruct (i : nat).

(** The identities of the objects destroyed by a destructor call, in order:
    all of them, and those at the storage [l]; and of the objects constructed
    at [l]. *)
Definition destroyed (t : list event) : list nat :=
  omap (λ e, match e with EvDestroy _ id => Some id | _ => None end) t.

Definition destroyed_at (l : loc) (t : list event) : list nat :=
  omap (λ e, match e with
             | EvDestroy l' id => if decide (l' = l) then Some id else None
             | _ => None
             end) t.

Definition constructed_at (l : loc) (t : list event) : list nat :=
  omap (λ e, match e with
             | EvNew l' id _ | EvRelocate _ l' id _ =>
                 if decide (l' = l) then Some id else None
             | _ => None
             end) t.

(** The statements that construct container [i], and those that replace its
    value. *)
Definition constructs (i : nat) (op : operation) : bool :=
  match op with
  | Construct k _ _ | InPlace k _ _ | MoveConstruct k _ => bool_decide (k = i)
  | _ => false
  end.

Definition supersedes (i : nat) (op : operation) : bool :=
  match op with
  | Assign k _ _ | Emplace k _ _ | AssignMove k _ => bool_decide (k = i)
  | _ => false
  end.

Section Programs.
Context {Mover : Type} `{MoverType Mover}.
Variables (Storage : type_info) (Base : class).

(** What a statement does, and a sequence of statements. *)
Definition perform (op : operation) : M Mover unit :=
  match op with
  | Construct i T v => BoundedPoly_value Storage Base i T v
  | InPlace i T args => BoundedPoly_in_place Storage Base i T args
  | MoveConstruct i j => BoundedPoly_move i j
  | Assign i T v => assign_value Storage Base i T v
  | AssignMove i j => assign_move i j
  | Emplace i T args => emplace Storage Base i T args
  | Swap i j => swap i j
  | Destruct i => destructor i
  end.

Fixpoint run (ops : list operation) : M Mover unit :=
  match ops with
  | [] => ret tt
  | op :: rest => perform op ;; run rest
  end.

(** No container, no event. *)
Definition initial : state Mover := State ∅ None 0 [].

(** The states a client can observe: those between two operations of a
    program that ran without failure so far. *)
Inductive reachable : state Mover → Prop :=
  | reachable_initial : reachable initial
  | reachable_step s op s' :
      reachable s → perform op s = Done tt s' → reachable s'.

(** Mover [m] relocates objects of dynamic type [c] as what they are. *)
Definition fits (m : Mover) (c : class) : Prop := mover_target m c = Some c.

(** The container at [i] has mover [m] and holds the live, well-typed object
    [o], which [m] fits. *)
Definition consistent (s : state Mover) (i : nat) (m : Mover) (o : object)
    : Prop :=
  heap s !! i = Some (Container m (Some o))
  ∧ fits m (dyn o)
  ∧ has_type (dyn o) (fields o) = true.

(** A container holds a live, well-typed object that its mover fits. *)
Definition sound (c : BoundedPoly Mover) : Prop :=
  ∃ o, storage_ c = Some o
       ∧ fits (mover_ c) (dyn o)
       ∧ has_type (dyn o) (fields o) = true.

(** No [swap] is under way and every container is sound. *)
Definition invariant (s : state Mover) : Prop :=
  tmp s = None ∧ ∀ i c, heap s !! i = Some c → sound c.

(** What an operation requires of the class it stores: it is accepted, and
    the mover derived for it exists and fits it. *)
Definition storable (T : class) (v : list field) : Prop :=
  accepts Storage Base T v = true
  ∧ ∃ m, bound_mover T = Some m ∧ fits m T.

(** What relocation out of container [j], holding [oj], does to dynamic
    types: a container move-constructed from [j] at a free address [k], and
    container [i] after [i = std::move(j)], hold an object of the dynamic type
    of [oj]; after [i.swap(j)], with [i] holding [oi] before, each of the two
    holds an object of the dynamic type the other held. *)
Definition relocation_keeps_type (s : state Mover) (i j : nat)
    (oi oj : object) : Prop :=
  (∀ k, heap s !! k = None →
     ∃ s' o', BoundedPoly_move k j s = Done tt s'
              ∧ get k s' = Done o' s' ∧ dyn o' = dyn oj)
  ∧ (∃ s' o', assign_move i j s = Done tt s'
              ∧ get i s' = Done o' s' ∧ dyn o' = dyn oj)
  ∧ (∃ s' o1 o2, swap i j s = Done tt s'
                 ∧ get i s' = Done o1 s' ∧ get j s' = Done o2 s'
                 ∧ dyn o1 = dyn oj ∧ dyn o2 = dyn oi).

(** [i.swap(j)], with [i] holding [oa] under mover [ma] and [j] holding [ob]
    under [mb], runs to the end; it performs, in this order and nothing else,
    the relocation of this to the temporary, of other to this, of the
    temporary to other, the destruction of the temporary and the swap of the
    movers; afterwards no temporary is left, each container holds an object
    of the dynamic type the other held, with the members the other held as
    the move constructor of that type carries them (the very members, when
    the move constructors are the defaulted ones), under a mover that fits it
    (the mover of the other, when movers have state), and every other
    container is as before.  [j] may be [i]. *)
Definition swap_exchanges (s : state Mover) (i j : nat) (ma mb : Mover)
    (oa ob : object) : Prop :=
  ∃ s' ta tb tc oa' ob',
    swap i j s = Done tt s'
    ∧ trace s' = trace s ++
        [EvRelocate (Stored i) Tmp ta (dyn oa);
         EvRelocate (Stored j) (Stored i) tb (dyn ob);
         EvRelocate Tmp (Stored j) tc (dyn oa);
         EvDestroy Tmp ta;
         EvSwapMover i j]
    ∧ tmp s' = None
    ∧ consistent s' i (if mover_is_empty Mover then ma else mb) ob'
    ∧ observe ob' = carried ob
    ∧ (moves_memberwise (dyn ob) = true → observe ob' = observe ob)
    ∧ consistent s' j (if mover_is_empty Mover then mb else ma) oa'
    ∧ observe oa' = carried oa
    ∧ (moves_memberwise (dyn oa) = true → observe oa' = observe oa)
    ∧ ∀ k, k ≠ i → k ≠ j → heap s' !! k = heap s !! k.

(** [i.swap(j)] twice runs to the end and gives each of the two containers
    back its mover and an object of the dynamic type it held, with the
    members it held as the move constructor of that type carries them (the
    very members, when the move constructors are the defaulted ones).  [j]
    may be [i]. *)
Definition swap_twice_restores (s : state Mover) (i j : nat) (ma mb : Mover)
    (oa ob : object) : Prop :=
  ∃ s1 s2 oa' ob',
    swap i j s = Done tt s1
    ∧ swap i j s1 = Done tt s2
    ∧ consistent s2 i ma oa' ∧ observe oa' = carried oa
    ∧ (moves_memberwise (dyn oa) = true → observe oa' = observe oa)
    ∧ consistent s2 j mb ob' ∧ observe ob' = carried ob
    ∧ (moves_memberwise (dyn ob) = true → observe ob' = observe ob).

(** The container at [j] holds a live object on which the call of its mover
    is defined. *)
Definition relocatable (s : state Mover) (j : nat) : Prop :=
  ∃ m o X, heap s !! j = Some (Container m (Some o))
           ∧ mover_target m (dyn o) = Some X.

(** What an operation on container [i] needs in state [s]: a class it stores
    is accepted and its mover can be derived; a constructor it calls exists,
    [noexcept] for [emplace], and returns; a container it moves from is
    another one, and relocatable. *)
Definition ready (s : state Mover) (i : nat) (op : operation) : Prop :=
  match op with
  | Construct _ T v | Assign _ T v =>
      accepts Storage Base T v = true ∧ is_Some (bound_mover T)
  | InPlace _ T args =>
      is_constructible args = true ∧ is_Some (made args)
      ∧ accepts_args Storage Base T args = true ∧ is_Some (bound_mover T)
  | Emplace _ T args =>
      is_nothrow_constructible args = true ∧ is_Some (made args)
      ∧ accepts_args Storage Base T args = true ∧ is_Some (bound_mover T)
  | MoveConstruct _ j | AssignMove _ j => j ≠ i ∧ relocatable s j
  | _ => True
  end.

(** What one operation on container [i] leaves: the container holds the
    object constructed last, the next identity is one more, the events [tr]
    were added, and what was ready stays ready. *)
Definition advances (s : state Mover) (i : nat) (tr : list event)
    (s1 : state Mover) : Prop :=
  (∃ m1 o1, heap s1 !! i = Some (Container m1 (Some o1)))
  ∧ next_oid s1 = S (next_oid s)
  ∧ trace s1 = trace s ++ tr
  ∧ constructed_at (Stored i) tr = [next_oid s]
  ∧ ∀ op, ready s i op → ready s1 i op.

(** An operation that stores a class stores a storable one. *)
Definition well_formed (op : operation) : Prop :=
  match op with
  | Construct _ T v | Assign _ T v => storable T v
  | InPlace _ T args | Emplace _ T args =>
      ∀ v, made args = Some v → storable T v
  | _ => True
  end.

(** The [static_assert]s of the member that a statement calls. *)
Definition asserted (op : operation) : bool :=
  match op with
  | Construct _ T v | Assign _ T v => accepts Storage Base T v
  | InPlace _ T args =>
      is_constructible args && accepts_args Storage Base T args
  | Emplace _ T args =>
      accepts_args Storage Base T args && is_nothrow_constructible args
  | _ => true
  end.

End Programs.

(** ** The classes of the test suite ([tests/main.cpp], LP64 sizes) *)

Module Fixture.

(** [struct Base { std::unique_ptr<int> i; virtual ~Base() noexcept; }]. *)
Definition Base : class :=
  BaseClass
    (ClassDecl "Base" (TypeInfo 16 8 false true true true) 1 false None).

(** [struct Derived : Base { std::unique_ptr<float> f; }]. *)
Definition Derived : class :=
  SubClass
    (ClassDecl "Derived" (TypeInfo 24 8 false true true true) 1 false None)
    Base.

(** [std::aligned_union_t<0, Base, Derived>]. *)
Definition Storage : type_info := TypeInfo 24 8 true true true false.

(** [struct BigDerived : Base { Storage big_space; }]. *)
Definition BigDerived : class :=
  SubClass
    (ClassDecl "BigDerived" (TypeInfo 40 8 false true true true) 1 false None)
    Base.

(** [struct NoticeableDestructor : Base { bool &wasDestructed; }], with the
    move constructor
    [NoticeableDestructor(NoticeableDestructor &&other) noexcept
       : wasDestructed{other.wasDestructed} {}]:
    the [Base] subobject is default-constructed, so that [i] is null in the
    new object and stays with the source, and the reference is copied. *)
Definition NoticeableDestructor : class :=
  SubClass
    (ClassDecl "NoticeableDestructor" (TypeInfo 24 8 false true true true) 1
       false (Some [by_value (unique_ptr None); by_copy]))
    Base.

(** A subclass of [Base] whose move constructor is not [noexcept]. *)
Definition Throwing : class :=
  SubClass
    (ClassDecl "Throwing" (TypeInfo 24 8 false false true true) 1 false None)
    Base.

(** [struct Base2] and [struct Derived2 : Base2], each with its own
    [move_to]. *)
Definition Base2 : class :=
  BaseClass
    (ClassDecl "Base2" (TypeInfo 16 8 false true true true) 1 true None).

Definition Derived2 : class :=
  SubClass
    (ClassDecl "Derived2" (TypeInfo 24 8 false true true true) 1 true None)
    Base2.

(** [struct NoticeableDestructor : Base2 { bool &wasDestructed; }] of the
    second test case, with the same move constructor and its own
    [move_to]. *)
Definition NoticeableDestructor2 : class :=
  SubClass
    (ClassDecl "NoticeableDestructor" (TypeInfo 24 8 false true true true) 1
       true (Some [by_value (unique_ptr None); by_copy]))
    Base2.

(** A subclass of [Base2] that inherits [Base2::move_to]. *)
Definition Inheriting2 : class :=
  SubClass
    (ClassDecl "Inheriting2" (TypeInfo 24 8 false true true true) 1 false None)
    Base2.

(** As [Derived2], but the move constructor may throw. *)
Definition Throwing2 : class :=
  SubClass
    (ClassDecl "Throwing2" (TypeInfo 24 8 false false true true) 1 true None)
    Base2.

(** A class unrelated to [Base]. *)
Definition NotBase : class :=
  BaseClass
    (ClassDecl "NotBase" (TypeInfo 1 1 true true true false) 0 false None).

(** The types of the [is_storable] test; an array cannot be constructed from
    an array. *)
Definition int : type_info := TypeInfo 4 4 true true true false.
Definition long_long_int : type_info := TypeInfo 8 8 true true true false.
Definition int_2 : type_info := TypeInfo 8 4 true false true false.
Definition int_3 : type_info := TypeInfo 12 4 true false true false.
Definition char_sizeof_int : type_info := TypeInfo 4 1 true false true false.
Definition void_ptr : type_info := TypeInfo 8 8 true true true false.
Definition Trivial : type_info := TypeInfo 256 16 true true true false.
Definition NotTrivial : type_info := TypeInfo 256 16 false true true false.

(** [Base{42}], [Derived{50, 0}], [Derived{}]. *)
Definition base_42 : list field := [unique_ptr (Some 42%Z)].
Definition derived_50_0 : list field :=
  [unique_ptr (Some 50%Z); unique_ptr (Some 0%Z)].
Definition derived_empty : list field := [unique_ptr None; unique_ptr None].

(** The calls [Base(42)] and [Derived(50, 0)], of constructors that allocate
    and are not [noexcept], where they return; and the calls
    [NoticeableDestructor(flag)] and [Derived()] of constructors that are
    [noexcept]. *)
Definition Base_42 : construction := returning_call base_42.
Definition Derived_50_0 : construction := returning_call derived_50_0.
Definition NoticeableDestructor_flag : construction :=
  nothrow_call [unique_ptr None; plain 0].
Definition Derived_default : construction := nothrow_call derived_empty.

(** The statements of the [BoundedPoly + UniversalMover] test case:
    [a{in_place, 42}], [b{Derived{}}], [b = std::move(a)],
    [a.emplace<NoticeableDestructor>(flag)], [a = Base{}], [b = Derived{}],
    [a.swap(b)], with [a] at address 0 and [b] at address 1. *)
Definition test_program : list operation :=
  [InPlace 0 Base Base_42;
   Construct 1 Derived derived_empty;
   AssignMove 1 0;
   Emplace 0 NoticeableDestructor NoticeableDestructor_flag;
   Assign 0 Base [unique_ptr None];
   Assign 1 Derived derived_empty;
   Swap 0 1].

(** [a{in_place, 42}] at address 0 and [b{Derived{50, 0}}] at address 1. *)
Definition two_values : list operation :=
  [InPlace 0 Base Base_42; Construct 1 Derived derived_50_0].

(** A mover type with state whose constructor from a witness, although
    declared [noexcept], fails. *)
Inductive FailingMover := failing_mover.

#[global] Instance FailingMover_type : MoverType FailingMover := {|
  mover_nothrow_destructible := true;
  mover_nothrow_invocable _ := true;
  mover_is_empty := false;
  mover_nothrow_copy_assignable := true;
  mover_nothrow_constructible _ := true;
  mover_default := None;
  mover_from_witness _ := None;
  mover_target _ c := Some c
|}.

(** The mover types of the [is_movable] test: an empty one that cannot be
    assigned ([NonMovableMover] over a lambda), and two with state, derived
    from [UniversalMover<Base>], of which one cannot be assigned and the
    other has no constructor from a witness. *)
Inductive EmptyNonMovableMover := empty_non_movable_mover.

#[global] Instance EmptyNonMovableMover_type
    : MoverType EmptyNonMovableMover := {|
  mover_nothrow_destructible := true;
  mover_nothrow_invocable T' := is_base_of Base T';
  mover_is_empty := true;
  mover_nothrow_copy_assignable := false;
  mover_nothrow_constructible _ := false;
  mover_default := None;
  mover_from_witness _ := None;
  mover_target _ _ := None
|}.

Inductive NonMovableMover := non_movable_mover (A : class).

#[global] Instance NonMovableMover_type : MoverType NonMovableMover := {|
  mover_nothrow_destructible := true;
  mover_nothrow_invocable T' := is_base_of Base T';
  mover_is_empty := false;
  mover_nothrow_copy_assignable := false;
  mover_nothrow_constructible _ := true;
  mover_default := None;
  mover_from_witness A := Some (non_movable_mover A);
  mover_target m c :=
    match m with
    | non_movable_mover A => if is_base_of A c then Some A else None
    end
|}.

Inductive NonConstructibleMover := non_constructible_mover (A : class).

#[global] Instance NonConstructibleMover_type
    : MoverType NonConstructibleMover := {|
  mover_nothrow_destructible := true;
  mover_nothrow_invocable T' := is_base_of Base T';
  mover_is_empty := false;
  mover_nothrow_copy_assignable := true;
  mover_nothrow_constructible _ := false;
  mover_default := None;
  mover_from_witness _ := None;
  mover_target m c :=
    match m with
    | non_constructible_mover A => if is_base_of A c then Some A else None
    end
|}.

(** Two containers with the stateful mover: [Base{42}] at address 0 and
    [Derived{50, 0}] at address 1. *)
Definition base_and_derived : state (UniversalMover Base) :=
  State
    (<[1 := Container (UniversalMover_for Derived)
                  (Some (Object 1 Derived derived_50_0))]>
       (<[0 := Container (UniversalMover_for Base)
                     (Some (Object 0 Base base_42))]> ∅))
    None 2 [].

(** The same two values in containers with the stateless mover. *)
Definition base2_and_derived2 : state (VirtualMover Base2) :=
  State
    (<[1 := Container VirtualMover_value
                  (Some (Object 1 Derived2 derived_50_0))]>
       (<[0 := Container VirtualMover_value
                     (Some (Object 0 Base2 base_42))]> ∅))
    None 2 [].

(** A [NoticeableDestructor] at address 0 whose public member [i] the
    client has given a value, through [operator->], and [Base{42}] at
    address 1. *)
Definition noticeable_and_base : state (UniversalMover Base) :=
  State
    (<[1 := Container (UniversalMover_for Base)
                  (Some (Object 1 Base base_42))]>
       (<[0 := Container (UniversalMover_for NoticeableDestructor)
                     (Some (Object 0 NoticeableDestructor
                              [unique_ptr (Some 5%Z); plain 0]))]> ∅))
    None 2 [].

(** A container of a type whose mover cannot be derived for a new class. *)
Definition with_failing_mover : state FailingMover :=
  State (<[0 := Container failing_mover (Some (Object 0 Base base_42))]> ∅)
    None 1 [].

End Fixture.

(** ** What a run leaves behind *)

(** The containers a statement names, and the class it stores. *)
Definition operands (op : operation) : list nat :=
  match op with
  | Construct i _ _ | InPlace i _ _ | Assign i _ _ | Emplace i _ _
  | Destruct i => [i]
  | MoveConstruct i j | AssignMove i j | Swap i j => [i; j]
  end.

Definition stores (op : operation) : option class :=
  match op with
  | Construct _ T _ | InPlace _ T _ | Assign _ T _ | Emplace _ T _ => Some T
  | _ => None
  end.

(** The constructor call of a statement that constructs its value from
    arguments. *)
Definition calls (op : operation) : option construction :=
  match op with
  | InPlace _ _ args | Emplace _ _ args => Some args
  | _ => None
  end.

(** A statement that stores a class stores one that declares its own
    override of the relocation method. *)
Definition overriding (op : operation) : Prop :=
  ∀ T, stores op = Some T → overrides_relocation (decl T) = true.

(** The number of [swap] statements of a program. *)
Definition swaps (ops : list operation) : nat :=
  length (omap (λ op, match op with
                      | Swap i j => Some (i, j)
                      | _ => None
                      end) ops).

(** The identities of the objects constructed, in order, at any storage; and
    the number of calls of [swap_mover]. *)
Definition constructed (t : list event) : list nat :=
  omap (λ e, match e with
             | EvNew _ id _ | EvRelocate _ _ id _ => Some id
             | _ => None
             end) t.

Definition mover_swaps (t : list event) : nat :=
  length (omap (λ e, match e with
                     | EvSwapMover i j => Some (i, j)
                     | _ => None
                     end) t).

(** The resources the members of an object own. *)
Definition owned (fs : list field) : list Z :=
  omap (λ f, match f with
             | unique_ptr p => p
             | plain _ => None
             end) fs.

(** What relocating [o] leaves when the move constructors of its class are
    the defaulted ones: [dst], an object with the dynamic type and the
    members of [o], and [src], which is [o] moved-from: its scalars as they
    were, its owning pointers null.  What [o] owned, [dst] owns. *)
Definition transferred (o src dst : object) : Prop :=
  observe dst = observe o
  ∧ oid src = oid o
  ∧ dyn src = dyn o
  ∧ fields src = (move_members (fields o)).2
  ∧ owned (fields dst) = owned (fields o)
  ∧ owned (fields src) = [].

Section Accounts.
Context {Mover : Type} `{MoverType Mover}.

(** [operator->()], const or not, and [operator*()] likewise: as [get()],
    the object in [storage_]. *)
Definition arrow (i : nat) : M Mover object := live (Stored i).

Definition deref (i : nat) : M Mover object := live (Stored i).

(** The container at [i] holds the object [o], within its lifetime. *)
Definition holds (s : state Mover) (i : nat) (o : object) : Prop :=
  ∃ m, heap s !! i = Some (Container m (Some o)).

(** The operands of a statement are what the statement takes them to be: a
    container within its lifetime where it uses one, no container where it
    constructs one, and another container where it assigns from one. *)
Definition defined (s : state Mover) (op : operation) : Prop :=
  match op with
  | Construct i _ _ | InPlace i _ _ => heap s !! i = None
  | MoveConstruct i j => heap s !! i = None ∧ is_Some (heap s !! j)
  | Assign i _ _ | Emplace i _ _ | Destruct i => is_Some (heap s !! i)
  | AssignMove i j => i ≠ j ∧ is_Some (heap s !! i) ∧ is_Some (heap s !! j)
  | Swap i j => is_Some (heap s !! i) ∧ is_Some (heap s !! j)
  end.

(** The constructor that a statement calls is one the member accepts, and
    the call returns. *)
Definition completes (op : operation) : Prop :=
  match op with
  | InPlace _ _ args => is_constructible args = true ∧ is_Some (made args)
  | Emplace _ _ args =>
      is_nothrow_constructible args = true ∧ is_Some (made args)
  | _ => True
  end.

(** The books of a store between two statements: no temporary is left; every
    container holds an object; identities were handed out in order, one per
    construction; no object was destroyed twice, and none that a container
    holds; no two containers hold the same object; and every object
    constructed was destroyed, or is held, or is one of the two that each
    [swap] overwrote. *)
Definition ledger (s : state Mover) : Prop :=
  tmp s = None
  ∧ (∀ i c, heap s !! i = Some c → is_Some (storage_ c))
  ∧ constructed (trace s) = seq 0 (next_oid s)
  ∧ NoDup (destroyed (trace s))
  ∧ (∀ id, id ∈ destroyed (trace s) → id < next_oid s)
  ∧ (∀ i o, holds s i o → oid o < next_oid s ∧ oid o ∉ destroyed (trace s))
  ∧ (∀ i j o o', holds s i o → holds s j o' → oid o = oid o' → i = j)
  ∧ next_oid s
    = length (destroyed (trace s)) + size (heap s) + 2 * mover_swaps (trace s).

(** A computation that neither throws nor is rejected by a [static_assert]:
    it ends normally, or its behaviour is undefined. *)
Definition no_failure {A} (c : M Mover A) : Prop :=
  ∀ s, match c s with
       | Throws _ | IllFormed => False
       | _ => True
       end.

End Accounts.

(** ** The two move strategies side by side *)

Section Strategies.
Variable B : class.

(** A store of containers with the stateful mover and one of containers with
    the stateless mover that differ in the movers only: the same addresses
    hold the same objects, and the same events happened. *)
Definition same_values (s1 : state (UniversalMover B))
    (s2 : state (VirtualMover B)) : Prop :=
  (∀ k, storage_ <$> heap s1 !! k = storage_ <$> heap s2 !! k)
  ∧ tmp s1 = tmp s2
  ∧ next_oid s1 = next_oid s2
  ∧ trace s1 = trace s2.

(** Two executions that end the same way, with the same result, in stores
    with the same values. *)
Definition same_outcome {A} (r1 : outcome (state (UniversalMover B)) A)
    (r2 : outcome (state (VirtualMover B)) A) : Prop :=
  match r1, r2 with
  | Done a1 s1, Done a2 s2 => a1 = a2 ∧ same_values s1 s2
  | Throws s1, Throws s2 => same_values s1 s2
  | Undefined, Undefined | IllFormed, IllFormed => True
  | _, _ => False
  end.

End Strategies.

Arguments same_values {B} s1 s2.
Arguments same_outcome {B A} r1 r2.

(** A program after the [BoundedPoly + Stateless Mover] test case, over the
    classes that declare [move_to]: [a{in_place, 42}], [b{Derived2{}}],
    [b = std::move(a)], [a.emplace<NoticeableDestructor>(flag)],
    [a = Base2{}], [b = Derived2{50, 0}], [a.swap(b)]. *)
Definition stateless_program : list operation :=
  [InPlace 0 Fixture.Base2 Fixture.Base_42;
   Construct 1 Fixture.Derived2 Fixture.derived_empty;
   AssignMove 1 0;
   Emplace 0 Fixture.NoticeableDestructor2 Fixture.NoticeableDestructor_flag;
   Assign 0 Fixture.Base2 [unique_ptr None];
   Assign 1 Fixture.Derived2 Fixture.derived_50_0;
   Swap 0 1].

(** ** The pipeline of the benchmark ([examples/benchmark]) *)

Module Benchmark.

(** [int]: the result of an arithmetic operation that overflows is
    undefined. *)
Definition in_int (z : Z) : bool := (- 2 ^ 31 <=? z)%Z && (z <? 2 ^ 31)%Z.

Definition as_int (z : Z) : option Z := if in_int z then Some z else None.

(** [struct IUnaryOp { int rhs; virtual ~IUnaryOp() noexcept;
    virtual void move_to(void * ) && noexcept = 0;
    virtual void apply(int & ) const noexcept = 0; }], an abstract class. *)
Definition IUnaryOp : class :=
  BaseClass
    (ClassDecl "IUnaryOp" (TypeInfo 16 8 false false true true) 1 false None).

(** [struct Addition : IUnaryOp], [struct Substraction : IUnaryOp] and
    [struct ExclusiveOr : IUnaryOp], each with its own [move_to] and
    [apply]. *)
Definition Addition : class :=
  SubClass
    (ClassDecl "Addition" (TypeInfo 16 8 false true true true) 0 true None)
    IUnaryOp.

Definition Substraction : class :=
  SubClass
    (ClassDecl "Substraction" (TypeInfo 16 8 false true true true) 0 true None)
    IUnaryOp.

Definition ExclusiveOr : class :=
  SubClass
    (ClassDecl "ExclusiveOr" (TypeInfo 16 8 false true true true) 0 true None)
    IUnaryOp.

(** [std::aligned_union_t<0, Addition, Substraction, ExclusiveOr>]. *)
Definition Storage : type_info := TypeInfo 16 8 true true true false.

(** [op->apply(lhs)]: the call is virtual, the overrider is that of the
    dynamic class of the object; the new value of [lhs]. *)
Definition apply (o : object) (lhs : Z) : option Z :=
  match fields o with
  | [plain rhs] =>
      if decide (dyn o = Addition) then as_int (lhs + rhs)
      else if decide (dyn o = Substraction) then as_int (lhs - rhs)
      else if decide (dyn o = ExclusiveOr) then Some (Z.lxor lhs rhs)
      else None
  | _ => None
  end.

(** The class that [switch (i % 3)] selects. *)
Definition selected (i : nat) : class :=
  match i mod 3 with
  | 0 => Addition
  | 1 => Substraction
  | _ => ExclusiveOr
  end.

(** [pipeline.push_back(Selected{r})] for the element of index [i], the
    capacity being reserved: a temporary [UnaryOp] is constructed from the
    value, the element is move-constructed from the temporary, and the
    temporary is destroyed.  The temporary is at address 0 and the element
    of index [i] at address [S i]. *)
Definition push_back (i : nat) (r : Z) : list operation :=
  [Construct 0 (selected i) [plain r]; MoveConstruct (S i) 0; Destruct 0].

(** The loop that builds the pipeline, from index [i] on; [rs] are the
    values that the calls of [rand()] return. *)
Fixpoint build (i : nat) (rs : list Z) : list operation :=
  match rs with
  | [] => []
  | r :: rs => push_back i r ++ build (S i) rs
  end.

(** [for (auto const &op : pipeline) op->apply(accum);], from index [i] on,
    over [n] elements. *)
Fixpoint evaluate (i n : nat) (accum : Z) : M (VirtualMover IUnaryOp) Z :=
  match n with
  | 0 => ret accum
  | S n =>
      op <- arrow (S i) ;;
      match apply op accum with
      | Some a => evaluate (S i) n a
      | None => undefined
      end
  end.

(** [main] of [bounded-poly.cpp]: the value of [accum] that it prints. *)
Definition main (rs : list Z) : M (VirtualMover IUnaryOp) Z :=
  run Storage IUnaryOp (build 0 rs) ;;
  evaluate 0 (length rs) 0.

(** [variant.cpp]: the same operations as alternatives of a
    [std::variant]. *)
Inductive UnaryOp_variant :=
  | Addition_alt (rhs : Z)
  | Substraction_alt (rhs : Z)
  | ExclusiveOr_alt (rhs : Z).

Definition push_back_variant (i : nat) (r : Z) : UnaryOp_variant :=
  match i mod 3 with
  | 0 => Addition_alt r
  | 1 => Substraction_alt r
  | _ => ExclusiveOr_alt r
  end.

Fixpoint build_variant (i : nat) (rs : list Z) : list UnaryOp_variant :=
  match rs with
  | [] => []
  | r :: rs => push_back_variant i r :: build_variant (S i) rs
  end.

(** [std::visit([&](auto op) { op.apply(accum); }, op)]. *)
Definition visit (op : UnaryOp_variant) (lhs : Z) : option Z :=
  match op with
  | Addition_alt rhs => as_int (lhs + rhs)
  | Substraction_alt rhs => as_int (lhs - rhs)
  | ExclusiveOr_alt rhs => Some (Z.lxor lhs rhs)
  end.

Fixpoint evaluate_variant (pipeline : list UnaryOp_variant) (accum : Z)
    : option Z :=
  match pipeline with
  | [] => Some accum
  | op :: rest =>
      match visit op accum with
      | Some a => evaluate_variant rest a
      | None => None
      end
  end.

(** [main] of [variant.cpp]: the value of [accum] that it prints, [None]
    when an addition or subtraction overflows. *)
Definition main_variant (rs : list Z) : option Z :=
  evaluate_variant (build_variant 0 rs) 0.

End Benchmark.


(** ** Part 3. Properties *)

(** *** The compile-time predicates *)

Lemma aligned_iff_multiple (a b : positive) :
  (Npos a mod Npos b =? 0)%N = true ↔ ∃ k : N, Npos a = (k * Npos b)%N.
Proof. rewrite N.eqb_eq. apply N.Lcm0.mod_divide. Qed.

Lemma is_storable_spec (T S : type_info) :
  is_storable T S = true ↔
    (sizeof T ≤ sizeof S)%N
    ∧ (∃ k : N, Npos (alignof S) = (k * Npos (alignof T))%N)
    ∧ is_trivial S = true.
Proof.
  unfold is_storable.
  rewrite !andb_true_iff, N.leb_le, aligned_iff_multiple. tauto.
Qed.

(** C1.  [is_storable<T, S>] holds exactly when [T] is no larger than [S],
    the alignment of [S] is a multiple of that of [T], and [S] is trivial;
    and [can_handle<T>] holds exactly when its three other conditions hold
    together with these three for [T] and the storage of the container. *)
Theorem storability_condition :
  (∀ T S : type_info,
     is_storable T S = true ↔
       (sizeof T ≤ sizeof S)%N
       ∧ (∃ k : N, Npos (alignof S) = (k * Npos (alignof T))%N)
       ∧ is_trivial S = true)
  ∧ (∀ (Mover : Type) (MT : MoverType Mover) (Storage : type_info)
       (Base T : class),
       can_handle Mover Storage Base T = true ↔
         (is_nothrow_move_constructible (info T) = true
          ∧ is_base_of Base T = true
          ∧ is_movable Base Mover T = true)
         ∧ ((sizeof (info T) ≤ sizeof Storage)%N
            ∧ (∃ k : N,
                 Npos (alignof Storage) = (k * Npos (alignof (info T)))%N)
            ∧ is_trivial Storage = true)).
Proof.
  split; [exact is_storable_spec |].
  intros. unfold can_handle.
  rewrite !andb_true_iff, is_storable_spec. tauto.
Qed.

(** The checks of the [is_storable] test case. *)
Example is_storable_test :
  is_storable Fixture.int Fixture.long_long_int = true
  ∧ is_storable Fixture.int_2 Fixture.int_3 = true
  ∧ is_storable Fixture.void_ptr Fixture.Trivial = true
  ∧ is_storable Fixture.NotTrivial Fixture.Trivial = true
  ∧ is_storable Fixture.int_2 Fixture.int = false
  ∧ is_storable Fixture.int Fixture.char_sizeof_int = false
  ∧ is_storable Fixture.int Fixture.NotTrivial = false.
Proof. repeat split; reflexivity. Qed.

(** [REQUIRE(PolyBase::can_handle_v<BigDerived> == false)]. *)
Example BigDerived_not_handled :
  can_handle (UniversalMover Fixture.Base) Fixture.Storage Fixture.Base
    Fixture.BigDerived = false.
Proof. reflexivity. Qed.

(** C5, as the claim has it, fails: with the stateful mover of the header,
    [is_movable] accepts a class whose move constructor may throw. *)
Lemma is_movable_ignores_move_constructor :
  mover_is_empty (UniversalMover Fixture.Base) = false
  ∧ is_nothrow_move_constructible (info Fixture.Throwing) = false
  ∧ is_movable Fixture.Base (UniversalMover Fixture.Base) Fixture.Throwing
    = true.
Proof. repeat split; reflexivity. Qed.

(** C5, as amended.  For a mover with state, [is_movable] requires the mover
    to be nothrow copy assignable and nothrow constructible from a type
    witness; for an empty mover it requires only what it requires of every
    mover.  The move constructor of the candidate is no part of
    [is_movable], which looks at the candidate only through [is_base_of] and
    through the mover's constructor from a witness: it is [can_handle] that
    requires a nothrow move constructor, for every mover. *)
Theorem movability_requirements
    {Mover : Type} `{MoverType Mover} (T A : class) :
  (mover_is_empty Mover = false →
   is_movable T Mover A = true →
   mover_nothrow_copy_assignable Mover = true
   ∧ mover_nothrow_constructible Mover A = true)
  ∧ (mover_is_empty Mover = true →
     is_movable T Mover A
     = mover_nothrow_destructible Mover
       && mover_nothrow_invocable Mover T
       && is_base_of T A)
  ∧ (∀ A',
       is_base_of T A' = is_base_of T A →
       mover_nothrow_constructible Mover A'
       = mover_nothrow_constructible Mover A →
       is_movable T Mover A' = is_movable T Mover A)
  ∧ (∀ Storage Base,
       can_handle Mover Storage Base A = true →
       is_nothrow_move_constructible (info A) = true).
Proof.
  unfold can_handle, is_movable. split; [|split; [|split]].
  - intros ->. rewrite orb_false_l, !andb_true_iff. tauto.
  - intros ->. by rewrite orb_true_l, andb_true_r.
  - by intros A' -> ->.
  - intros Storage Base. rewrite !andb_true_iff. tauto.
Qed.

(** The checks of the [is_movable] test case. *)
Example is_movable_test :
  is_movable Fixture.Base Fixture.EmptyNonMovableMover Fixture.Derived = true
  ∧ is_movable Fixture.Base Fixture.EmptyNonMovableMover Fixture.NotBase
    = false
  ∧ is_movable Fixture.NotBase Fixture.EmptyNonMovableMover Fixture.Derived
    = false
  ∧ is_movable Fixture.Base (UniversalMover Fixture.Base) Fixture.Derived
    = true
  ∧ is_movable Fixture.Base (UniversalMover Fixture.NotBase) Fixture.Derived
    = false
  ∧ is_movable Fixture.NotBase (UniversalMover Fixture.Base) Fixture.Derived
    = false
  ∧ is_movable Fixture.Base Fixture.NonMovableMover Fixture.Derived = false
  ∧ is_movable Fixture.Base Fixture.NonConstructibleMover Fixture.Derived
    = false.
Proof. repeat split; reflexivity. Qed.

(** C10.  Whatever the mover, [can_handle<T>] holds only for a [T] that is
    nothrow move constructible. *)
Theorem admission_requires_nothrow_move
    {Mover : Type} `{MoverType Mover} (Storage : type_info) (Base T : class) :
  can_handle Mover Storage Base T = true →
  is_nothrow_move_constructible (info T) = true.
Proof. unfold can_handle. rewrite !andb_true_iff. tauto. Qed.

(** With the stateless mover: [Throwing2] is derived from [Base2], fits the
    storage, passes [is_movable] and overrides the relocation method that
    [VirtualMover] calls, and still is rejected. *)
Example Throwing2_not_handled :
  is_base_of Fixture.Base2 Fixture.Throwing2 = true
  ∧ is_storable (info Fixture.Throwing2) Fixture.Storage = true
  ∧ is_movable Fixture.Base2 (VirtualMover Fixture.Base2) Fixture.Throwing2
    = true
  ∧ final_overrider Fixture.Throwing2 = Some Fixture.Throwing2
  ∧ can_handle (VirtualMover Fixture.Base2) Fixture.Storage Fixture.Base2
      Fixture.Throwing2 = false.
Proof. repeat split; reflexivity. Qed.

(** *** Move constructors *)

Lemma move_members_fst fs : (move_members fs).1 = fs.
Proof.
  unfold move_members; simpl. induction fs as [|[z|p] fs IH]; simpl; congruence.
Qed.

Lemma move_members_length fs :
  length (move_members fs).1 = length fs ∧ length (move_members fs).2 = length fs.
Proof. unfold move_members; simpl. by rewrite !length_map. Qed.

Lemma move_members_app fs gs :
  move_members (fs ++ gs)
  = ((move_members fs).1 ++ (move_members gs).1,
     (move_members fs).2 ++ (move_members gs).2).
Proof. unfold move_members; simpl. by rewrite !map_app. Qed.

Lemma move_field_snd_idem f : (move_field (move_field f).2).2 = (move_field f).2.
Proof. by destruct f. Qed.

Lemma move_members_snd_idem fs :
  (move_members (move_members fs).2).2 = (move_members fs).2.
Proof.
  unfold move_members; simpl. rewrite map_map. apply map_ext.
  intros f. apply move_field_snd_idem.
Qed.

Lemma init_member_fst_idem i f :
  (init_member i (init_member i f).1).1 = (init_member i f).1.
Proof. destruct i, f; done. Qed.

Lemma init_member_snd_idem i f :
  (init_member i (init_member i f).2).2 = (init_member i f).2.
Proof. destruct i, f; done. Qed.

Lemma initialise_length inits : ∀ fs, length (initialise inits fs) = length fs.
Proof.
  intros fs. revert inits.
  induction fs as [|f fs IH]; intros [|i inits]; simpl; by rewrite ?IH.
Qed.

Lemma initialise_fst_idem fs : ∀ inits,
  (initialise inits (initialise inits fs).*1).*1 = (initialise inits fs).*1.
Proof.
  induction fs as [|f fs IH]; intros [|i inits]; simpl; [done..| |].
  - f_equal; [by destruct f|apply (IH [])].
  - f_equal; [apply init_member_fst_idem|apply IH].
Qed.

Lemma initialise_snd_idem fs : ∀ inits,
  (initialise inits (initialise inits fs).*2).*2 = (initialise inits fs).*2.
Proof.
  induction fs as [|f fs IH]; intros [|i inits]; simpl; [done..| |].
  - f_equal; [apply move_field_snd_idem|apply (IH [])].
  - f_equal; [apply init_member_snd_idem|apply IH].
Qed.

(** Two lists as long as the two parts of a list split at [n] are the two
    parts of their concatenation split at [n]. *)
Lemma split_again {A} (n : nat) (fs a b : list A) :
  length a = length (take n fs) → length b = length (drop n fs) →
  take n (a ++ b) = a ∧ drop n (a ++ b) = b.
Proof.
  rewrite length_take, length_drop. intros Ha Hb.
  destruct (decide (length fs ≤ n)) as [Hle|Hgt].
  - assert (b = []) as -> by (apply length_zero_iff_nil; lia).
    rewrite app_nil_r. split; [apply take_ge; lia|apply drop_ge; lia].
  - split; [apply take_app_length'; lia|apply drop_app_length'; lia].
Qed.

Lemma move_construct_length X : ∀ fs,
  length (move_construct X fs).1 = length fs
  ∧ length (move_construct X fs).2 = length fs.
Proof.
  induction X as [d|d P IH]; intros fs; simpl;
    destruct (move_ctor d) as [inits|]; simpl.
  - by rewrite !length_fmap, initialise_length.
  - by rewrite !length_map.
  - by rewrite !length_fmap, initialise_length.
  - rewrite !length_app, !length_map.
    destruct (IH (take (total_fields P) fs)) as [-> ->].
    by rewrite <- length_app, take_drop.
Qed.

Lemma move_construct_length_fst X fs : length (move_construct X fs).1 = length fs.
Proof. apply move_construct_length. Qed.

Lemma move_construct_length_snd X fs : length (move_construct X fs).2 = length fs.
Proof. apply move_construct_length. Qed.

Lemma move_construct_split X n fs :
  take n ((move_construct X (take n fs)).1
          ++ (move_members (drop n fs)).1)
  = (move_construct X (take n fs)).1
  ∧ drop n ((move_construct X (take n fs)).1
            ++ (move_members (drop n fs)).1)
    = (move_members (drop n fs)).1
  ∧ take n ((move_construct X (take n fs)).2
            ++ (move_members (drop n fs)).2)
    = (move_construct X (take n fs)).2
  ∧ drop n ((move_construct X (take n fs)).2
            ++ (move_members (drop n fs)).2)
    = (move_members (drop n fs)).2.
Proof.
  destruct (split_again n fs (move_construct X (take n fs)).1
              (move_members (drop n fs)).1) as [? ?];
    [apply move_construct_length_fst|apply move_members_length|].
  destruct (split_again n fs (move_construct X (take n fs)).2
              (move_members (drop n fs)).2) as [? ?];
    [apply move_construct_length_snd|apply move_members_length|].
  done.
Qed.

(** Moving what was moved into changes nothing more, and neither does moving
    from what was moved from. *)
Lemma move_construct_fst_idem X : ∀ fs,
  (move_construct X (move_construct X fs).1).1 = (move_construct X fs).1.
Proof.
  induction X as [d|d P IH]; intros fs; cbn [move_construct decl];
    destruct (move_ctor d) as [inits|]; cbn [fst snd].
  - apply initialise_fst_idem.
  - by rewrite !(move_members_fst fs).
  - apply initialise_fst_idem.
  - destruct (move_construct_split P (total_fields P) fs) as (-> & -> & _).
    rewrite IH. f_equal. by rewrite !move_members_fst.
Qed.

Lemma move_construct_snd_idem X : ∀ fs,
  (move_construct X (move_construct X fs).2).2 = (move_construct X fs).2.
Proof.
  induction X as [d|d P IH]; intros fs; cbn [move_construct decl];
    destruct (move_ctor d) as [inits|]; cbn [fst snd].
  - apply initialise_snd_idem.
  - apply move_members_snd_idem.
  - apply initialise_snd_idem.
  - destruct (move_construct_split P (total_fields P) fs) as (_ & _ & -> & ->).
    rewrite IH. f_equal. apply move_members_snd_idem.
Qed.

Lemma move_construct_memberwise X : ∀ fs,
  moves_memberwise X = true → move_construct X fs = move_members fs.
Proof.
  induction X as [d|d P IH]; intros fs; cbn [move_construct moves_memberwise decl];
    intros [Hd HP]%andb_true_iff; apply bool_decide_eq_true in Hd;
    rewrite Hd; [done|].
  cbn zeta. rewrite (IH _ HP). rewrite <- move_members_app. by rewrite take_drop.
Qed.

Lemma moved_from_split X o :
  take (total_fields X) (fields (moved_from X o))
  = (move_construct X (take (total_fields X) (fields o))).2
  ∧ drop (total_fields X) (fields (moved_from X o))
    = drop (total_fields X) (fields o).
Proof.
  unfold moved_from; cbn [fields].
  apply (split_again (total_fields X) (fields o)); [|done].
  apply move_construct_length_snd.
Qed.

(** A moved-from object has nothing left to take. *)
Lemma spent_moved_from X o : spent X (moved_from X o) = true.
Proof.
  unfold spent. apply bool_decide_eq_true.
  destruct (moved_from_split X o) as [-> _]. apply move_construct_snd_idem.
Qed.

(** *** Running the primitives *)

Ltac lookups :=
  repeat first
    [ rewrite lookup_insert_eq
    | rewrite lookup_insert_ne by done
    | rewrite lookup_delete_eq
    | rewrite lookup_delete_ne by done ].

Section Steps.
Context {Mover : Type} `{MoverType Mover}.
Variables (Storage : type_info) (Base : class).
Implicit Types (s : state Mover) (m : Mover) (o : object) (x : slot).

Lemma bind_done {A B} (c : M Mover A) (k : A → M Mover B) s a s' :
  c s = Done a s' → bind c k s = k a s'.
Proof. unfold bind. by intros ->. Qed.

Lemma alter_found {A} (f : A → A) (h : gmap nat A) i c :
  h !! i = Some c → alter f i h = <[i := f c]> h.
Proof.
  intros Hi. apply map_eq. intros k. destruct (decide (k = i)) as [->|].
  - by rewrite lookup_alter_eq, lookup_insert_eq, Hi.
  - by rewrite lookup_alter_ne, lookup_insert_ne.
Qed.

Lemma this_done s i c : heap s !! i = Some c → this i s = Done c s.
Proof. unfold this. by intros ->. Qed.

Lemma live_stored s i m o :
  heap s !! i = Some (Container m (Some o)) → live (Stored i) s = Done o s.
Proof. intros Hi. unfold live, read, bind; simpl. by rewrite Hi. Qed.

Lemma live_tmp s o : tmp s = Some o → live Tmp s = Done o s.
Proof. intros Ht. unfold live, read, bind; simpl. by rewrite Ht. Qed.

Lemma write_stored s i m x y :
  heap s !! i = Some (Container m x) →
  write (Stored i) y s =
    Done tt (State (<[i := Container m y]> (heap s)) (tmp s) (next_oid s)
               (trace s)).
Proof.
  intros Hi. unfold write; simpl. rewrite Hi; simpl.
  by rewrite (alter_found _ _ _ _ Hi).
Qed.

Lemma write_tmp s y :
  write Tmp y s = Done tt (State (heap s) y (next_oid s) (trace s)).
Proof. done. Qed.

Lemma destroy_stored s i m o :
  heap s !! i = Some (Container m (Some o)) →
  destroy_at (Stored i) s =
    Done tt (State (<[i := Container m None]> (heap s)) (tmp s) (next_oid s)
               (trace s ++ [EvDestroy (Stored i) (oid o)])).
Proof.
  intros Hi. unfold destroy_at.
  rewrite (bind_done _ _ _ _ _ (live_stored _ _ _ _ Hi)).
  rewrite (bind_done _ _ _ _ _ (write_stored _ _ _ _ None Hi)).
  done.
Qed.

Lemma construct_stored s i m x T v :
  heap s !! i = Some (Container m x) →
  construct_at (Stored i) T v s =
    Done tt (State (<[i := Container m (Some (Object (next_oid s) T v))]> (heap s))
               (tmp s) (S (next_oid s))
               (trace s ++ [EvNew (Stored i) (next_oid s) T])).
Proof.
  intros Hi. unfold construct_at.
  rewrite (bind_done _ _ _ _ _ (write_stored _ _ _ _ None Hi)).
  unfold fresh_oid at 1. unfold bind at 1. 
  erewrite bind_done; last (eapply write_stored; simpl; apply lookup_insert_eq).
  simpl. by rewrite insert_insert_eq.
Qed.

Lemma call_mover_stored_tmp s i m m' o X :
  heap s !! i = Some (Container m' (Some o)) →
  mover_target m (dyn o) = Some X →
  call_mover m (Stored i) Tmp s =
    Done tt (State (<[i := Container m' (Some (moved_from X o))]> (heap s))
               (Some (moved_into X o (next_oid s))) (S (next_oid s))
               (trace s ++ [EvRelocate (Stored i) Tmp (next_oid s) X])).
Proof.
  intros Hi HX. unfold call_mover.
  rewrite (bind_done _ _ _ _ _ (live_stored _ _ _ _ Hi)), HX.
  unfold move_construct_at.
  rewrite (bind_done _ _ _ _ _ (live_stored _ _ _ _ Hi)).
  unfold fresh_oid at 1, bind at 1. rewrite decide_False by done.
  unfold bind at 1. rewrite (bind_done _ _ _ _ _ (write_tmp _ _)).
  erewrite bind_done; last by eapply write_stored.
  done.
Qed.

Lemma call_mover_tmp_stored s j m m' o y X :
  tmp s = Some o →
  heap s !! j = Some (Container m' y) →
  mover_target m (dyn o) = Some X →
  call_mover m Tmp (Stored j) s =
    Done tt (State (<[j := Container m' (Some (moved_into X o (next_oid s)))]>
                      (heap s))
               (Some (moved_from X o)) (S (next_oid s))
               (trace s ++ [EvRelocate Tmp (Stored j) (next_oid s) X])).
Proof.
  intros Ht Hj HX. unfold call_mover.
  rewrite (bind_done _ _ _ _ _ (live_tmp _ _ Ht)), HX.
  unfold move_construct_at.
  rewrite (bind_done _ _ _ _ _ (live_tmp _ _ Ht)).
  unfold fresh_oid at 1, bind at 1. rewrite decide_False by done.
  unfold bind at 1.
  erewrite bind_done; last by eapply write_stored.
  rewrite (bind_done _ _ _ _ _ (write_tmp _ _)).
  erewrite write_stored; last (simpl; apply lookup_insert_eq).
  simpl. by rewrite insert_insert_eq.
Qed.

Lemma call_mover_stored_stored s i j m mi mj o y X :
  i ≠ j →
  heap s !! j = Some (Container mj (Some o)) →
  heap s !! i = Some (Container mi y) →
  mover_target m (dyn o) = Some X →
  call_mover m (Stored j) (Stored i) s =
    Done tt (State (<[i := Container mi (Some (moved_into X o (next_oid s)))]>
                      (<[j := Container mj (Some (moved_from X o))]> (heap s)))
               (tmp s) (S (next_oid s))
               (trace s ++ [EvRelocate (Stored j) (Stored i) (next_oid s) X])).
Proof.
  intros Hij Hj Hi HX. unfold call_mover.
  rewrite (bind_done _ _ _ _ _ (live_stored _ _ _ _ Hj)), HX.
  unfold move_construct_at.
  rewrite (bind_done _ _ _ _ _ (live_stored _ _ _ _ Hj)).
  unfold fresh_oid at 1, bind at 1. rewrite decide_False by congruence.
  unfold bind at 1.
  erewrite bind_done; last by eapply write_stored.
  erewrite bind_done;
    last (eapply write_stored; simpl; rewrite lookup_insert_ne by done; exact Hj).
  erewrite write_stored;
    last (simpl; rewrite lookup_insert_ne by done; apply lookup_insert_eq).
  simpl. f_equal. f_equal.
  rewrite (insert_insert_ne _ j i) by done. by rewrite insert_insert_eq.
Qed.

(** Relocating an object onto its own storage. *)
Lemma call_mover_aliased s i m m' o X :
  heap s !! i = Some (Container m' (Some o)) →
  mover_target m (dyn o) = Some X →
  call_mover m (Stored i) (Stored i) s =
    if spent X o then
      Done tt (State (<[i := Container m' (Some (moved_into X o (next_oid s)))]>
                        (heap s))
                 (tmp s) (S (next_oid s))
                 (trace s ++ [EvRelocate (Stored i) (Stored i) (next_oid s) X]))
    else Undefined.
Proof.
  intros Hi HX. unfold call_mover.
  rewrite (bind_done _ _ _ _ _ (live_stored _ _ _ _ Hi)), HX.
  unfold move_construct_at.
  rewrite (bind_done _ _ _ _ _ (live_stored _ _ _ _ Hi)).
  unfold fresh_oid at 1, bind at 1. rewrite decide_True by done.
  destruct (spent X o); [|done].
  unfold bind at 1. erewrite write_stored; last done. done.
Qed.

Lemma MoverStorage_witness_done s T m :
  bound_mover T = Some m →
  MoverStorage_witness T s =
    Done m (State (heap s) (tmp s) (next_oid s) (trace s ++ [EvBind T])).
Proof.
  unfold bound_mover, MoverStorage_witness.
  destruct (mover_is_empty Mover); by intros ->.
Qed.

Lemma MoverStorage_witness_throws s T :
  mover_is_empty Mover = false →
  mover_from_witness Mover T = None →
  MoverStorage_witness T s = Throws s.
Proof. unfold MoverStorage_witness. by intros -> ->. Qed.

Lemma copy_mover_done s i m0 m x :
  heap s !! i = Some (Container m0 x) →
  copy_mover i m s =
    Done tt (State (<[i := Container (if mover_is_empty Mover then m0 else m) x]>
                      (heap s))
               (tmp s) (next_oid s) (trace s ++ [EvCopyMover i])).
Proof.
  intros Hi. unfold copy_mover. destruct (mover_is_empty Mover).
  - unfold bind at 1. rewrite (bind_done _ _ _ _ _ (this_done _ _ _ Hi)).
    unfold ret, emit. by rewrite insert_id.
  - unfold bind, set_mover. rewrite Hi; simpl.
    by rewrite (alter_found _ _ _ _ Hi).
Qed.

Lemma swap_mover_done s i j ma mb xa xb :
  i ≠ j →
  heap s !! i = Some (Container ma xa) →
  heap s !! j = Some (Container mb xb) →
  swap_mover i j s =
    Done tt
      (State (<[j := Container (if mover_is_empty Mover then mb else ma) xb]>
                (<[i := Container (if mover_is_empty Mover then ma else mb) xa]>
                   (heap s)))
         (tmp s) (next_oid s) (trace s ++ [EvSwapMover i j])).
Proof.
  intros Hij Hi Hj. unfold swap_mover.
  rewrite (bind_done _ _ _ _ _ (this_done _ _ _ Hi)).
  rewrite (bind_done _ _ _ _ _ (this_done _ _ _ Hj)).
  destruct (mover_is_empty Mover).
  - unfold bind, ret, emit; simpl.
    rewrite (insert_id _ i) by done. by rewrite insert_id.
  - unfold bind, set_mover; simpl. rewrite Hi; simpl.
    rewrite (alter_found _ _ _ _ Hi); simpl.
    rewrite lookup_insert_ne, Hj by done; simpl.
    erewrite alter_found; last by rewrite lookup_insert_ne.
    done.
Qed.

Lemma destroy_tmp s o :
  tmp s = Some o →
  destroy_at Tmp s =
    Done tt (State (heap s) None (next_oid s)
               (trace s ++ [EvDestroy Tmp (oid o)])).
Proof.
  intros Ht. unfold destroy_at.
  by rewrite (bind_done _ _ _ _ _ (live_tmp _ _ Ht)).
Qed.

Lemma swap_mover_same s i m x :
  heap s !! i = Some (Container m x) →
  swap_mover i i s
  = Done tt (State (heap s) (tmp s) (next_oid s) (trace s ++ [EvSwapMover i i])).
Proof.
  intros Hi. unfold swap_mover.
  rewrite !(bind_done _ _ _ _ _ (this_done _ _ _ Hi)).
  destruct (mover_is_empty Mover); [done|].
  unfold bind, set_mover; simpl. rewrite Hi; simpl.
  rewrite (alter_found _ _ _ _ Hi), lookup_insert_eq; simpl.
  erewrite alter_found; last apply lookup_insert_eq. simpl.
  by rewrite insert_insert_eq, insert_id.
Qed.

(** [swap] on two containers, or on one and itself, that hold objects on
    which the calls of the movers are defined. *)
Lemma swap_done_any s i j ma mb oa ob X Y Z :
  heap s !! i = Some (Container ma (Some oa)) →
  heap s !! j = Some (Container mb (Some ob)) →
  mover_target ma (dyn oa) = Some X →
  mover_target mb (dyn ob) = Some Y →
  mover_target ma X = Some Z →
  let n := next_oid s in
  swap i j s =
    Done tt
      (State
         (<[j := Container (if mover_is_empty Mover then mb else ma)
                   (Some (moved_into Z (moved_into X oa n) (S (S n))))]>
            (<[i := Container (if mover_is_empty Mover then ma else mb)
                      (Some (moved_into Y ob (S n)))]>
               (heap s)))
         None (S (S (S n)))
         (trace s ++
            [EvRelocate (Stored i) Tmp n X;
             EvRelocate (Stored j) (Stored i) (S n) Y;
             EvRelocate Tmp (Stored j) (S (S n)) Z;
             EvDestroy Tmp n;
             EvSwapMover i j])).
Proof.
  intros Hi Hj HX HY HZ n. unfold swap.
  rewrite (bind_done _ _ _ _ _ (write_tmp _ _)).
  erewrite bind_done; last (apply this_done; exact Hi).
  erewrite bind_done; last by eapply call_mover_stored_tmp.
  destruct (decide (i = j)) as [<-|Hij].
  - rewrite Hi in Hj. injection Hj as <- <-.
    rewrite HX in HY. injection HY as <-.
    erewrite bind_done; last (apply this_done; simpl; apply lookup_insert_eq).
    erewrite bind_done.
    2: { erewrite call_mover_aliased;
           [|simpl; apply lookup_insert_eq|exact HX].
         by rewrite spent_moved_from. }
    erewrite bind_done; last (apply this_done; simpl; apply lookup_insert_eq).
    erewrite bind_done;
      last (eapply call_mover_tmp_stored; simpl;
            [done | apply lookup_insert_eq | done]).
    erewrite bind_done; last by apply destroy_tmp.
    erewrite swap_mover_same; last (simpl; apply lookup_insert_eq). simpl.
    f_equal. f_equal.
    + rewrite !insert_insert_eq. by destruct (mover_is_empty Mover).
    + by rewrite <- !app_assoc.
  - erewrite bind_done;
      last (apply this_done; simpl; by rewrite lookup_insert_ne).
    erewrite bind_done;
      last (eapply call_mover_stored_stored; simpl;
            [done | by rewrite lookup_insert_ne | apply lookup_insert_eq | done]).
    erewrite bind_done;
      last (apply this_done; simpl; apply lookup_insert_eq).
    erewrite bind_done;
      last (eapply call_mover_tmp_stored; simpl;
            [done | rewrite lookup_insert_ne by done; apply lookup_insert_eq
            | done]).
    erewrite bind_done; last by apply destroy_tmp.
    erewrite swap_mover_done; [| done | |]; simpl.
    2: { rewrite lookup_insert_ne by done. apply lookup_insert_eq. }
    2: { apply lookup_insert_eq. }
    f_equal. f_equal.
    + apply map_eq. intros k.
      destruct (decide (j = k)) as [->|]; [by lookups|].
      destruct (decide (i = k)) as [->|]; by lookups.
    + by rewrite <- !app_assoc.
Qed.

Lemma swap_done s i j ma mb oa ob :
  heap s !! i = Some (Container ma (Some oa)) →
  heap s !! j = Some (Container mb (Some ob)) →
  fits ma (dyn oa) → fits mb (dyn ob) →
  let n := next_oid s in
  let in_tmp := moved_into (dyn oa) oa n in
  swap i j s =
    Done tt
      (State
         (<[j := Container (if mover_is_empty Mover then mb else ma)
                   (Some (moved_into (dyn oa) in_tmp (S (S n))))]>
            (<[i := Container (if mover_is_empty Mover then ma else mb)
                      (Some (moved_into (dyn ob) ob (S n)))]>
               (heap s)))
         None (S (S (S n)))
         (trace s ++
            [EvRelocate (Stored i) Tmp n (dyn oa);
             EvRelocate (Stored j) (Stored i) (S n) (dyn ob);
             EvRelocate Tmp (Stored j) (S (S n)) (dyn oa);
             EvDestroy Tmp n;
             EvSwapMover i j])).
Proof. intros Hi Hj Fa Fb. by apply swap_done_any. Qed.

Lemma allocate_done s i m :
  heap s !! i = None →
  allocate i m s =
    Done tt (State (<[i := Container m None]> (heap s)) (tmp s) (next_oid s)
               (trace s)).
Proof. unfold allocate. by intros ->. Qed.

Lemma static_assert_done s b : b = true → static_assert b s = Done tt s.
Proof. by intros ->. Qed.

Lemma BoundedPoly_value_done s i T v m :
  accepts Storage Base T v = true →
  bound_mover T = Some m →
  heap s !! i = None →
  BoundedPoly_value Storage Base i T v s =
    Done tt
      (State (<[i := Container m
                       (Some (Object (next_oid s) T (move_construct T v).1))]>
                (heap s))
         (tmp s) (S (next_oid s))
         (trace s ++ [EvBind T; EvNew (Stored i) (next_oid s) T])).
Proof.
  intros Ha Hm Hi. unfold BoundedPoly_value.
  rewrite (bind_done _ _ _ _ _ (static_assert_done _ _ Ha)).
  rewrite (bind_done _ _ _ _ _ (MoverStorage_witness_done _ _ _ Hm)).
  erewrite bind_done; last by apply allocate_done.
  erewrite construct_stored; last (simpl; apply lookup_insert_eq).
  simpl. by rewrite insert_insert_eq, <- app_assoc.
Qed.

Lemma accepts_args_made T args v :
  made args = Some v →
  accepts_args Storage Base T args = accepts Storage Base T v.
Proof. unfold accepts_args, accepts. by intros ->. Qed.

Lemma BoundedPoly_in_place_done s i T args v m :
  is_constructible args = true →
  made args = Some v →
  accepts Storage Base T v = true →
  bound_mover T = Some m →
  heap s !! i = None →
  BoundedPoly_in_place Storage Base i T args s =
    Done tt
      (State (<[i := Container m (Some (Object (next_oid s) T v))]> (heap s))
         (tmp s) (S (next_oid s))
         (trace s ++ [EvBind T; EvNew (Stored i) (next_oid s) T])).
Proof.
  intros Hc Hv Ha Hm Hi. unfold BoundedPoly_in_place.
  rewrite (bind_done _ _ _ _ _ (static_assert_done _ _ Hc)).
  rewrite (accepts_args_made _ _ _ Hv), Hv.
  rewrite (bind_done _ _ _ _ _ (static_assert_done _ _ Ha)).
  rewrite (bind_done _ _ _ _ _ (MoverStorage_witness_done _ _ _ Hm)).
  erewrite bind_done; last by apply allocate_done.
  erewrite construct_stored; last (simpl; apply lookup_insert_eq).
  simpl. by rewrite insert_insert_eq, <- app_assoc.
Qed.

(** The constructor called in place throws: the exception leaves the
    constructor of the container after the mover was derived, and there is
    no container. *)
Lemma BoundedPoly_in_place_throws s i T args m :
  is_constructible args = true →
  made args = None →
  accepts_args Storage Base T args = true →
  bound_mover T = Some m →
  heap s !! i = None →
  BoundedPoly_in_place Storage Base i T args s =
    Throws (State (heap s) (tmp s) (next_oid s) (trace s ++ [EvBind T])).
Proof.
  intros Hc Hv Ha Hm Hi. unfold BoundedPoly_in_place.
  rewrite (bind_done _ _ _ _ _ (static_assert_done _ _ Hc)).
  rewrite (bind_done _ _ _ _ _ (static_assert_done _ _ Ha)), Hv.
  rewrite (bind_done _ _ _ _ _ (MoverStorage_witness_done _ _ _ Hm)).
  erewrite bind_done; last by apply allocate_done.
  unfold bind, deallocate, throw; simpl.
  by rewrite delete_insert_eq, delete_id.
Qed.

Lemma BoundedPoly_move_done s i j mj o X :
  heap s !! i = None →
  heap s !! j = Some (Container mj (Some o)) →
  mover_target mj (dyn o) = Some X →
  BoundedPoly_move i j s =
    Done tt
      (State (<[i := Container mj (Some (moved_into X o (next_oid s)))]>
                (<[j := Container mj (Some (moved_from X o))]> (heap s)))
         (tmp s) (S (next_oid s))
         (trace s ++ [EvRelocate (Stored j) (Stored i) (next_oid s) X])).
Proof.
  intros Hi Hj HX. unfold BoundedPoly_move.
  assert (i ≠ j) as Hij by (intros ->; congruence).
  rewrite (bind_done _ _ _ _ _ (this_done _ _ _ Hj)).
  erewrite bind_done; last by apply allocate_done.
  erewrite bind_done; last (apply this_done; simpl; apply lookup_insert_eq).
  erewrite call_mover_stored_stored; simpl;
    [| done | by rewrite lookup_insert_ne | apply lookup_insert_eq | done].
  f_equal. f_equal. apply map_eq. intros k.
  destruct (decide (i = k)) as [->|]; [by lookups|].
  destruct (decide (j = k)) as [->|]; by lookups.
Qed.

Lemma supersede_done s i T v m m0 o :
  bound_mover T = Some m →
  heap s !! i = Some (Container m0 (Some o)) →
  (_ <- this i ;;
   mover <- MoverStorage_witness T ;;
   destroy_at (Stored i) ;;
   copy_mover i mover ;;
   construct_at (Stored i) T v) s =
    Done tt
      (State (<[i := Container (if mover_is_empty Mover then m0 else m)
                       (Some (Object (next_oid s) T v))]> (heap s))
         (tmp s) (S (next_oid s))
         (trace s ++ [EvBind T; EvDestroy (Stored i) (oid o); EvCopyMover i;
                      EvNew (Stored i) (next_oid s) T])).
Proof.
  intros Hm Hi.
  rewrite (bind_done _ _ _ _ _ (this_done _ _ _ Hi)).
  rewrite (bind_done _ _ _ _ _ (MoverStorage_witness_done _ _ _ Hm)).
  erewrite bind_done; last by eapply destroy_stored.
  erewrite bind_done;
    last (eapply copy_mover_done; simpl; apply lookup_insert_eq).
  erewrite construct_stored; last (simpl; apply lookup_insert_eq).
  simpl. by rewrite !insert_insert_eq, <- !app_assoc.
Qed.

Lemma assign_value_done s i T v m m0 o :
  accepts Storage Base T v = true →
  bound_mover T = Some m →
  heap s !! i = Some (Container m0 (Some o)) →
  assign_value Storage Base i T v s =
    Done tt
      (State (<[i := Container (if mover_is_empty Mover then m0 else m)
                       (Some (Object (next_oid s) T (move_construct T v).1))]>
                (heap s))
         (tmp s) (S (next_oid s))
         (trace s ++ [EvBind T; EvDestroy (Stored i) (oid o); EvCopyMover i;
                      EvNew (Stored i) (next_oid s) T])).
Proof.
  intros Ha Hm Hi. unfold assign_value.
  rewrite (bind_done _ _ _ _ _ (static_assert_done _ _ Ha)).
  by apply supersede_done.
Qed.

Lemma emplace_done s i T args v m m0 o :
  is_nothrow_constructible args = true →
  made args = Some v →
  accepts Storage Base T v = true →
  bound_mover T = Some m →
  heap s !! i = Some (Container m0 (Some o)) →
  emplace Storage Base i T args s =
    Done tt
      (State (<[i := Container (if mover_is_empty Mover then m0 else m)
                       (Some (Object (next_oid s) T v))]> (heap s))
         (tmp s) (S (next_oid s))
         (trace s ++ [EvBind T; EvDestroy (Stored i) (oid o); EvCopyMover i;
                      EvNew (Stored i) (next_oid s) T])).
Proof.
  intros Hc Hv Ha Hm Hi. unfold emplace.
  rewrite (accepts_args_made _ _ _ Hv), Hv.
  rewrite (bind_done _ _ _ _ _ (static_assert_done _ _ Ha)).
  rewrite (bind_done _ _ _ _ _ (static_assert_done _ _ Hc)).
  by apply supersede_done.
Qed.

Lemma assign_move_done s i j mi mj oi oj X :
  i ≠ j →
  heap s !! i = Some (Container mi (Some oi)) →
  heap s !! j = Some (Container mj (Some oj)) →
  mover_target (if mover_is_empty Mover then mi else mj) (dyn oj) = Some X →
  assign_move i j s =
    Done tt
      (State (<[i := Container (if mover_is_empty Mover then mi else mj)
                       (Some (moved_into X oj (next_oid s)))]>
                (<[j := Container mj (Some (moved_from X oj))]> (heap s)))
         (tmp s) (S (next_oid s))
         (trace s ++ [EvDestroy (Stored i) (oid oi); EvCopyMover i;
                      EvRelocate (Stored j) (Stored i) (next_oid s) X])).
Proof.
  intros Hij Hi Hj HX. unfold assign_move.
  erewrite bind_done; last by eapply destroy_stored.
  erewrite bind_done; last (apply this_done; simpl; by rewrite lookup_insert_ne).
  erewrite bind_done;
    last (eapply copy_mover_done; simpl; apply lookup_insert_eq).
  erewrite bind_done; last (apply this_done; simpl; apply lookup_insert_eq).
  erewrite call_mover_stored_stored; simpl;
    [| done | by lookups | apply lookup_insert_eq | done].
  f_equal. f_equal; [|by rewrite <- !app_assoc].
  apply map_eq. intros k.
  destruct (decide (i = k)) as [->|]; [by lookups|].
  destruct (decide (j = k)) as [->|]; by lookups.
Qed.

Lemma destructor_done s i m o :
  heap s !! i = Some (Container m (Some o)) →
  destructor i s =
    Done tt (State (delete i (heap s)) (tmp s) (next_oid s)
               (trace s ++ [EvDestroy (Stored i) (oid o)])).
Proof.
  intros Hi. unfold destructor.
  erewrite bind_done; last by eapply destroy_stored.
  unfold deallocate; simpl. by rewrite delete_insert_eq.
Qed.

(** Assigning a container to itself destroys the value and then moves from
    it. *)
Lemma assign_move_self s i m o :
  heap s !! i = Some (Container m (Some o)) →
  assign_move i i s = Undefined.
Proof.
  intros Hi. unfold assign_move.
  erewrite bind_done; last by eapply destroy_stored.
  erewrite bind_done; last (apply this_done; simpl; apply lookup_insert_eq).
  erewrite bind_done;
    last (eapply copy_mover_done; simpl; apply lookup_insert_eq).
  erewrite bind_done; last (apply this_done; simpl; apply lookup_insert_eq).
  unfold call_mover, bind, live, bind, read; simpl. by lookups.
Qed.

End Steps.

(** *** What an operation that ran to its end has done *)

Section Inversion.
Context {Mover : Type} `{MoverType Mover}.
Variables (Storage : type_info) (Base : class).
Implicit Types (s : state Mover) (m : Mover) (o : object) (x : slot).

Lemma live_dead s l : slot_at l s = Some None → live l s = Undefined.
Proof. unfold live, bind, read. by intros ->. Qed.

Lemma live_missing s l : slot_at l s = None → live l s = Undefined.
Proof. unfold live, bind, read. by intros ->. Qed.

Lemma call_mover_dead s m src dst :
  slot_at src s = Some None → call_mover m src dst s = Undefined.
Proof. intros Hs. unfold call_mover, bind. by rewrite live_dead. Qed.

Lemma call_mover_missing s m src dst :
  slot_at src s = None → call_mover m src dst s = Undefined.
Proof. intros Hs. unfold call_mover, bind. by rewrite live_missing. Qed.

Lemma call_mover_no_target s m src dst o :
  slot_at src s = Some (Some o) →
  mover_target m (dyn o) = None →
  call_mover m src dst s = Undefined.
Proof.
  intros Hs Ht. unfold call_mover, bind at 1, live, bind, read.
  by rewrite Hs; simpl; rewrite Ht.
Qed.

Lemma destroy_dead s l : slot_at l s = Some None → destroy_at l s = Undefined.
Proof. intros Hs. unfold destroy_at, bind. by rewrite live_dead. Qed.

Lemma destroy_missing s l : slot_at l s = None → destroy_at l s = Undefined.
Proof. intros Hs. unfold destroy_at, bind. by rewrite live_missing. Qed.

Lemma MoverStorage_witness_outcome s T :
  (∃ m, bound_mover T = Some m
        ∧ MoverStorage_witness T s
          = Done m
              (State (heap s) (tmp s) (next_oid s) (trace s ++ [EvBind T])))
  ∨ (mover_is_empty Mover = false ∧ mover_from_witness Mover T = None
     ∧ MoverStorage_witness T s = Throws s)
  ∨ (mover_is_empty Mover = true ∧ mover_default Mover = None
     ∧ MoverStorage_witness T s = IllFormed).
Proof.
  unfold bound_mover, MoverStorage_witness.
  destruct (mover_is_empty Mover).
  - destruct (mover_default Mover) as [m|]; [left; by exists m|].
    by right; right.
  - destruct (mover_from_witness Mover T) as [m|]; [left; by exists m|].
    by right; left.
Qed.

Lemma BoundedPoly_value_inv s i T v s' :
  BoundedPoly_value Storage Base i T v s = Done tt s' →
  ∃ m, accepts Storage Base T v = true ∧ bound_mover T = Some m
       ∧ heap s !! i = None
       ∧ s' = State (<[i := Container m
                             (Some (Object (next_oid s) T
                                      (move_construct T v).1))]>
                       (heap s))
                (tmp s) (S (next_oid s))
                (trace s ++ [EvBind T; EvNew (Stored i) (next_oid s) T]).
Proof.
  intros Hrun. pose proof Hrun as Hrun0. unfold BoundedPoly_value in Hrun.
  destruct (accepts Storage Base T v) eqn:Ha; [|done].
  rewrite (bind_done _ _ _ _ _ (static_assert_done _ _ eq_refl)) in Hrun.
  destruct (MoverStorage_witness_outcome s T)
    as [(m & Hb & Hm)|[(_ & _ & Hm)|(_ & _ & Hm)]];
    [|by unfold bind in Hrun; rewrite Hm in Hrun..].
  rewrite (bind_done _ _ _ _ _ Hm) in Hrun.
  destruct (heap s !! i) as [c|] eqn:Hi.
  { unfold bind, allocate in Hrun; simpl in Hrun. by rewrite Hi in Hrun. }
  exists m. repeat split; try done.
  rewrite (BoundedPoly_value_done Storage Base s i T v m Ha Hb Hi) in Hrun0.
  congruence.
Qed.

Lemma BoundedPoly_in_place_inv s i T args s' :
  BoundedPoly_in_place Storage Base i T args s = Done tt s' →
  ∃ m v, is_constructible args = true ∧ made args = Some v
       ∧ accepts Storage Base T v = true ∧ bound_mover T = Some m
       ∧ heap s !! i = None
       ∧ s' = State (<[i := Container m (Some (Object (next_oid s) T v))]>
                       (heap s))
                (tmp s) (S (next_oid s))
                (trace s ++ [EvBind T; EvNew (Stored i) (next_oid s) T]).
Proof.
  intros Hrun. pose proof Hrun as Hrun0. unfold BoundedPoly_in_place in Hrun.
  destruct (is_constructible args) eqn:Hc; [|done].
  rewrite (bind_done _ _ _ _ _ (static_assert_done _ _ eq_refl)) in Hrun.
  destruct (accepts_args Storage Base T args) eqn:Ha; [|done].
  rewrite (bind_done _ _ _ _ _ (static_assert_done _ _ eq_refl)) in Hrun.
  destruct (MoverStorage_witness_outcome s T)
    as [(m & Hb & Hm)|[(_ & _ & Hm)|(_ & _ & Hm)]];
    [|by unfold bind in Hrun; rewrite Hm in Hrun..].
  rewrite (bind_done _ _ _ _ _ Hm) in Hrun.
  destruct (heap s !! i) as [c|] eqn:Hi.
  { unfold bind, allocate in Hrun; simpl in Hrun. by rewrite Hi in Hrun. }
  destruct (made args) as [v|] eqn:Hv.
  2: { erewrite bind_done in Hrun; last by apply allocate_done. done. }
  rewrite (accepts_args_made Storage Base _ _ _ Hv) in Ha.
  exists m, v. repeat split; try done.
  rewrite (BoundedPoly_in_place_done Storage Base s i T args v m Hc Hv Ha Hb Hi)
    in Hrun0.
  congruence.
Qed.

Lemma BoundedPoly_move_inv s i j s' :
  BoundedPoly_move i j s = Done tt s' →
  ∃ mj o X, heap s !! i = None
     ∧ heap s !! j = Some (Container mj (Some o))
     ∧ mover_target mj (dyn o) = Some X
     ∧ s' = State (<[i := Container mj (Some (moved_into X o (next_oid s)))]>
                     (<[j := Container mj (Some (moved_from X o))]> (heap s)))
              (tmp s) (S (next_oid s))
              (trace s ++ [EvRelocate (Stored j) (Stored i) (next_oid s) X]).
Proof.
  intros Hrun. pose proof Hrun as Hrun0. unfold BoundedPoly_move in Hrun.
  destruct (heap s !! j) as [[mj xj]|] eqn:Hj;
    [|by unfold bind, this in Hrun; rewrite Hj in Hrun].
  rewrite (bind_done _ _ _ _ _ (this_done _ _ _ Hj)) in Hrun.
  destruct (heap s !! i) as [c|] eqn:Hi.
  { unfold bind, allocate in Hrun; simpl in Hrun. by rewrite Hi in Hrun. }
  assert (i ≠ j) as Hij by (intros ->; congruence).
  erewrite bind_done in Hrun; last by apply allocate_done.
  erewrite bind_done in Hrun;
    last (apply this_done; simpl; apply lookup_insert_eq).
  simpl in Hrun.
  destruct xj as [o|].
  2: { rewrite call_mover_dead in Hrun; [done|].
       simpl. by rewrite lookup_insert_ne, Hj. }
  destruct (mover_target mj (dyn o)) as [X|] eqn:HX.
  2: { erewrite call_mover_no_target in Hrun; [done | | exact HX].
       simpl. by rewrite lookup_insert_ne, Hj. }
  exists mj, o, X. repeat split; try done.
  rewrite (BoundedPoly_move_done s i j mj o X Hi Hj HX) in Hrun0. congruence.
Qed.

Lemma supersede_inv s i T v s' :
  (_ <- this i ;;
   mover <- MoverStorage_witness T ;;
   destroy_at (Stored i) ;;
   copy_mover i mover ;;
   construct_at (Stored i) T v) s = Done tt s' →
  ∃ m m0 o, bound_mover T = Some m
     ∧ heap s !! i = Some (Container m0 (Some o))
     ∧ s' = State (<[i := Container (if mover_is_empty Mover then m0 else m)
                           (Some (Object (next_oid s) T v))]> (heap s))
              (tmp s) (S (next_oid s))
              (trace s ++ [EvBind T; EvDestroy (Stored i) (oid o); EvCopyMover i;
                           EvNew (Stored i) (next_oid s) T]).
Proof.
  intros Hrun. pose proof Hrun as Hrun0.
  destruct (heap s !! i) as [[m0 x]|] eqn:Hi;
    [|by unfold bind, this in Hrun; rewrite Hi in Hrun].
  rewrite (bind_done _ _ _ _ _ (this_done _ _ _ Hi)) in Hrun.
  destruct (MoverStorage_witness_outcome s T)
    as [(m & Hb & Hm)|[(_ & _ & Hm)|(_ & _ & Hm)]];
    [|by unfold bind in Hrun; rewrite Hm in Hrun..].
  rewrite (bind_done _ _ _ _ _ Hm) in Hrun.
  destruct x as [o|].
  2: { unfold bind at 1 in Hrun. rewrite destroy_dead in Hrun; [done|].
       simpl. by rewrite Hi. }
  exists m, m0, o. repeat split; try done.
  rewrite (supersede_done s i T v m m0 o Hb Hi) in Hrun0. congruence.
Qed.

Lemma assign_value_inv s i T v s' :
  assign_value Storage Base i T v s = Done tt s' →
  ∃ m m0 o, accepts Storage Base T v = true ∧ bound_mover T = Some m
     ∧ heap s !! i = Some (Container m0 (Some o))
     ∧ s' = State (<[i := Container (if mover_is_empty Mover then m0 else m)
                           (Some (Object (next_oid s) T
                                    (move_construct T v).1))]>
                     (heap s))
              (tmp s) (S (next_oid s))
              (trace s ++ [EvBind T; EvDestroy (Stored i) (oid o); EvCopyMover i;
                           EvNew (Stored i) (next_oid s) T]).
Proof.
  unfold assign_value. intros Hrun.
  destruct (accepts Storage Base T v) eqn:Ha; [|done].
  rewrite (bind_done _ _ _ _ _ (static_assert_done _ _ eq_refl)) in Hrun.
  apply supersede_inv in Hrun as (m & m0 & o & ? & ? & ?).
  by exists m, m0, o.
Qed.

Lemma emplace_inv s i T args s' :
  emplace Storage Base i T args s = Done tt s' →
  ∃ m m0 o v, is_nothrow_constructible args = true ∧ made args = Some v
     ∧ accepts Storage Base T v = true ∧ bound_mover T = Some m
     ∧ heap s !! i = Some (Container m0 (Some o))
     ∧ s' = State (<[i := Container (if mover_is_empty Mover then m0 else m)
                           (Some (Object (next_oid s) T v))]> (heap s))
              (tmp s) (S (next_oid s))
              (trace s ++ [EvBind T; EvDestroy (Stored i) (oid o); EvCopyMover i;
                           EvNew (Stored i) (next_oid s) T]).
Proof.
  unfold emplace. intros Hrun.
  destruct (accepts_args Storage Base T args) eqn:Ha; [|done].
  rewrite (bind_done _ _ _ _ _ (static_assert_done _ _ eq_refl)) in Hrun.
  destruct (is_nothrow_constructible args) eqn:Hc; [|done].
  rewrite (bind_done _ _ _ _ _ (static_assert_done _ _ eq_refl)) in Hrun.
  destruct (made args) as [v|] eqn:Hv.
  - rewrite (accepts_args_made Storage Base _ _ _ Hv) in Ha.
    apply supersede_inv in Hrun as (m & m0 & o & ? & ? & ?).
    by exists m, m0, o, v.
  - exfalso. revert Hrun. unfold bind, this.
    destruct (heap s !! i); [|done].
    destruct (MoverStorage_witness T s) as [m s1| | |]; [|done..].
    destruct (destroy_at (Stored i) s1) as [[] s2| | |]; [|done..].
    by destruct (copy_mover i m s2).
Qed.

Lemma assign_move_never_self s i : assign_move i i s = Undefined.
Proof.
  unfold assign_move.
  destruct (heap s !! i) as [[m [o|]]|] eqn:Hi.
  - by apply (assign_move_self s i m o).
  - unfold bind at 1. rewrite destroy_dead; [done|]. simpl. by rewrite Hi.
  - unfold bind at 1. rewrite destroy_missing; [done|]. simpl. by rewrite Hi.
Qed.

Lemma assign_move_inv s i j s' :
  assign_move i j s = Done tt s' →
  ∃ mi mj oi oj X, i ≠ j
     ∧ heap s !! i = Some (Container mi (Some oi))
     ∧ heap s !! j = Some (Container mj (Some oj))
     ∧ mover_target (if mover_is_empty Mover then mi else mj) (dyn oj) = Some X
     ∧ s' = State (<[i := Container (if mover_is_empty Mover then mi else mj)
                           (Some (moved_into X oj (next_oid s)))]>
                     (<[j := Container mj (Some (moved_from X oj))]> (heap s)))
              (tmp s) (S (next_oid s))
              (trace s ++ [EvDestroy (Stored i) (oid oi); EvCopyMover i;
                           EvRelocate (Stored j) (Stored i) (next_oid s) X]).
Proof.
  intros Hrun. pose proof Hrun as Hrun0.
  destruct (decide (i = j)) as [->|Hij];
    [by rewrite assign_move_never_self in Hrun|].
  unfold assign_move in Hrun.
  destruct (heap s !! i) as [[mi [oi|]]|] eqn:Hi.
  2: { unfold bind at 1 in Hrun. rewrite destroy_dead in Hrun; [done|].
       simpl. by rewrite Hi. }
  2: { unfold bind at 1 in Hrun. rewrite destroy_missing in Hrun; [done|].
       simpl. by rewrite Hi. }
  erewrite bind_done in Hrun; last by eapply destroy_stored.
  destruct (heap s !! j) as [[mj xj]|] eqn:Hj.
  2: { unfold bind, this in Hrun; simpl in Hrun.
       by rewrite lookup_insert_ne, Hj in Hrun. }
  erewrite bind_done in Hrun;
    last (apply this_done; simpl; rewrite lookup_insert_ne by done; exact Hj).
  erewrite bind_done in Hrun;
    last (eapply copy_mover_done; simpl; apply lookup_insert_eq).
  erewrite bind_done in Hrun;
    last (apply this_done; simpl; apply lookup_insert_eq).
  simpl in Hrun.
  destruct xj as [oj|].
  2: { rewrite call_mover_dead in Hrun; [done|].
       simpl. by rewrite !lookup_insert_ne, Hj. }
  destruct (mover_target (if mover_is_empty Mover then mi else mj) (dyn oj))
    as [X|] eqn:HX.
  2: { erewrite call_mover_no_target in Hrun; [done | | exact HX].
       simpl. by rewrite !lookup_insert_ne, Hj. }
  exists mi, mj, oi, oj, X. repeat split; try done.
  rewrite (assign_move_done s i j mi mj oi oj X Hij Hi Hj HX) in Hrun0.
  congruence.
Qed.

Lemma destructor_inv s i s' :
  destructor i s = Done tt s' →
  ∃ m o, heap s !! i = Some (Container m (Some o))
     ∧ s' = State (delete i (heap s)) (tmp s) (next_oid s)
              (trace s ++ [EvDestroy (Stored i) (oid o)]).
Proof.
  intros Hrun. pose proof Hrun as Hrun0. unfold destructor in Hrun.
  destruct (heap s !! i) as [[m [o|]]|] eqn:Hi.
  2: { unfold bind at 1 in Hrun. rewrite destroy_dead in Hrun; [done|].
       simpl. by rewrite Hi. }
  2: { unfold bind at 1 in Hrun. rewrite destroy_missing in Hrun; [done|].
       simpl. by rewrite Hi. }
  exists m, o. split; [done|].
  rewrite (destructor_done s i m o Hi) in Hrun0. congruence.
Qed.

Lemma swap_inv s i j s' :
  swap i j s = Done tt s' →
  ∃ ma mb oa ob X Y Z,
     heap s !! i = Some (Container ma (Some oa))
     ∧ heap s !! j = Some (Container mb (Some ob))
     ∧ mover_target ma (dyn oa) = Some X
     ∧ mover_target mb (dyn ob) = Some Y
     ∧ mover_target ma X = Some Z
     ∧ s' = State
         (<[j := Container (if mover_is_empty Mover then mb else ma)
                   (Some (moved_into Z (moved_into X oa (next_oid s))
                            (S (S (next_oid s)))))]>
            (<[i := Container (if mover_is_empty Mover then ma else mb)
                      (Some (moved_into Y ob (S (next_oid s))))]>
               (heap s)))
         None (S (S (S (next_oid s))))
         (trace s ++
            [EvRelocate (Stored i) Tmp (next_oid s) X;
             EvRelocate (Stored j) (Stored i) (S (next_oid s)) Y;
             EvRelocate Tmp (Stored j) (S (S (next_oid s))) Z;
             EvDestroy Tmp (next_oid s);
             EvSwapMover i j]).
Proof.
  intros Hrun. pose proof Hrun as Hrun0.
  unfold swap in Hrun. rewrite (bind_done _ _ _ _ _ (write_tmp _ _)) in Hrun.
  destruct (heap s !! i) as [[ma xa]|] eqn:Hi;
    [|by unfold bind, this in Hrun; simpl in Hrun; rewrite Hi in Hrun].
  erewrite bind_done in Hrun; last (apply this_done; exact Hi). simpl in Hrun.
  destruct xa as [oa|].
  2: { unfold bind at 1 in Hrun. rewrite call_mover_dead in Hrun; [done|].
       simpl. by rewrite Hi. }
  destruct (mover_target ma (dyn oa)) as [X|] eqn:HX.
  2: { unfold bind at 1 in Hrun.
       erewrite call_mover_no_target in Hrun; [done| |exact HX].
       simpl. by rewrite Hi. }
  erewrite bind_done in Hrun; last by eapply call_mover_stored_tmp.
  destruct (decide (i = j)) as [<-|Hij].
  - erewrite bind_done in Hrun;
      last (apply this_done; simpl; apply lookup_insert_eq).
    simpl in Hrun.
    erewrite bind_done in Hrun.
    2: { erewrite call_mover_aliased;
           [|simpl; apply lookup_insert_eq|exact HX].
         by rewrite spent_moved_from. }
    erewrite bind_done in Hrun;
      last (apply this_done; simpl; apply lookup_insert_eq).
    simpl in Hrun.
    destruct (mover_target ma X) as [Z|] eqn:HZ.
    2: { unfold bind at 1 in Hrun.
         erewrite call_mover_no_target in Hrun; [done| simpl; done |exact HZ]. }
    exists ma, ma, oa, oa, X, X, Z. repeat split; try done.
    rewrite (swap_done_any s i i ma ma oa oa X X Z Hi Hi HX HX HZ) in Hrun0.
    congruence.
  - destruct (heap s !! j) as [[mb xb]|] eqn:Hj.
    2: { unfold bind, this in Hrun; simpl in Hrun.
         by rewrite lookup_insert_ne, Hj in Hrun. }
    erewrite bind_done in Hrun;
      last (apply this_done; simpl; rewrite lookup_insert_ne by done; exact Hj).
    simpl in Hrun.
    destruct xb as [ob|].
    2: { unfold bind at 1 in Hrun. rewrite call_mover_dead in Hrun; [done|].
         simpl. by rewrite lookup_insert_ne, Hj. }
    destruct (mover_target mb (dyn ob)) as [Y|] eqn:HY.
    2: { unfold bind at 1 in Hrun.
         erewrite call_mover_no_target in Hrun; [done| |exact HY].
         simpl. by rewrite lookup_insert_ne, Hj. }
    erewrite bind_done in Hrun;
      last (eapply call_mover_stored_stored; simpl;
            [done | by rewrite lookup_insert_ne | apply lookup_insert_eq | done]).
    erewrite bind_done in Hrun;
      last (apply this_done; simpl; apply lookup_insert_eq).
    simpl in Hrun.
    destruct (mover_target ma X) as [Z|] eqn:HZ.
    2: { unfold bind at 1 in Hrun.
         erewrite call_mover_no_target in Hrun; [done| simpl; done |exact HZ]. }
    exists ma, mb, oa, ob, X, Y, Z. repeat split; try done.
    rewrite (swap_done_any s i j ma mb oa ob X Y Z Hi Hj HX HY HZ) in Hrun0.
    congruence.
Qed.

End Inversion.

Section Access.
Context {Mover : Type} `{MoverType Mover}.
Implicit Types (s : state Mover) (o : object).

Lemma get_holds s i o s' : get i s = Done o s' ↔ s' = s ∧ holds s i o.
Proof.
  unfold get, live, bind, read, ret, undefined, holds; simpl.
  destruct (heap s !! i) as [[m [o'|]]|]; simpl.
  - split; [intros [= -> ->]; eauto|]. by intros [-> [m' [= _ ->]]].
  - split; [done|]. by intros [_ [m' ?]].
  - split; [done|]. by intros [_ [m' ?]].
Qed.

Lemma get_full s i c :
  heap s !! i = Some c → is_Some (storage_ c) → ∃ o, get i s = Done o s.
Proof.
  destruct c as [m x]. intros Hi [o Ho]. simpl in Ho. subst x.
  exists o. apply get_holds. split; [done|]. by exists m.
Qed.

End Access.

(** *** Objects under relocation *)

Lemma carried_memberwise o :
  moves_memberwise (dyn o) = true → carried o = observe o.
Proof.
  intros Hm. unfold carried, observe.
  by rewrite move_construct_memberwise, move_members_fst.
Qed.

Lemma moved_into_carried o id :
  has_type (dyn o) (fields o) = true →
  moved_into (dyn o) o id = Object id (dyn o) (carried o).2.
Proof.
  unfold has_type, moved_into. intros Ht%bool_decide_eq_true.
  by rewrite take_ge by lia.
Qed.

Lemma moved_into_exact o id :
  has_type (dyn o) (fields o) = true →
  moves_memberwise (dyn o) = true →
  moved_into (dyn o) o id = Object id (dyn o) (fields o).
Proof.
  intros Ht Hm. rewrite moved_into_carried by done.
  by rewrite carried_memberwise.
Qed.

Lemma moved_into_object id0 X fs id :
  has_type X fs = true → moves_memberwise X = true →
  moved_into X (Object id0 X fs) id = Object id X fs.
Proof. apply (moved_into_exact (Object id0 X fs)). Qed.

Lemma moved_from_length X o :
  length (fields (moved_from X o)) = length (fields o).
Proof.
  unfold moved_from; simpl.
  by rewrite length_app, move_construct_length_snd, <- length_app, take_drop.
Qed.

Lemma moved_from_sound X o :
  has_type (dyn o) (fields o) = true →
  has_type (dyn (moved_from X o)) (fields (moved_from X o)) = true.
Proof.
  unfold has_type. rewrite !bool_decide_eq_true, moved_from_length. done.
Qed.

Lemma has_type_moved T v :
  has_type T v = true → has_type T (move_construct T v).1 = true.
Proof.
  unfold has_type. by rewrite !bool_decide_eq_true, move_construct_length_fst.
Qed.

Lemma moved_into_sound o id :
  has_type (dyn o) (fields o) = true →
  has_type (dyn (moved_into (dyn o) o id)) (fields (moved_into (dyn o) o id))
  = true.
Proof.
  intros Ht. rewrite moved_into_carried by done. simpl.
  by apply has_type_moved.
Qed.

(** An object moved twice is the object moved once. *)
Lemma moved_into_twice o id id' :
  has_type (dyn o) (fields o) = true →
  moved_into (dyn o) (moved_into (dyn o) o id) id'
  = Object id' (dyn o) (carried o).2.
Proof.
  intros Ht.
  rewrite (moved_into_carried (moved_into (dyn o) o id)) by
    by apply moved_into_sound.
  rewrite (moved_into_carried o id) by done. unfold carried; simpl.
  by rewrite move_construct_fst_idem.
Qed.

Lemma carried_carried o id :
  carried (Object id (dyn o) (carried o).2) = carried o.
Proof. unfold carried; simpl. by rewrite move_construct_fst_idem. Qed.

Lemma is_base_of_refl c : is_base_of c c = true.
Proof. destruct c; simpl; by rewrite bool_decide_eq_true_2. Qed.

(** *** The two movers of the header *)

Lemma final_overrider_spec c : ∀ X,
  final_overrider c = Some X →
  is_base_of X c = true ∧ overrides_relocation (decl X) = true.
Proof.
  induction c as [d|d p IH]; intros X; simpl.
  - destruct (overrides_relocation d) eqn:Hd; [|done].
    intros [= <-]. simpl. by rewrite bool_decide_eq_true_2.
  - destruct (overrides_relocation d) eqn:Hd.
    + intros [= <-]. simpl. by rewrite bool_decide_eq_true_2.
    + intros [Hb Ho]%IH. split; [|done]. rewrite Hb. apply orb_true_r.
Qed.

Lemma final_overrider_self c :
  final_overrider c = Some c ↔ overrides_relocation (decl c) = true.
Proof.
  split.
  - by intros [_ ?]%final_overrider_spec.
  - intros Ho. destruct c; simpl in *; by rewrite Ho.
Qed.

Lemma UniversalMover_fits B (m : UniversalMover B) c :
  fits m c ↔ m = UniversalMover_for c.
Proof.
  unfold fits; simpl. destruct m as [A]; simpl. split.
  - destruct (is_base_of A c); [|done]. by intros [= ->].
  - intros [= ->]. by rewrite is_base_of_refl.
Qed.

Lemma VirtualMover_fits B (m : VirtualMover B) c :
  fits m c ↔ final_overrider c = Some c.
Proof. done. Qed.

Lemma UniversalMover_bound B T :
  bound_mover (Mover := UniversalMover B) T = Some (UniversalMover_for T).
Proof. done. Qed.

Lemma VirtualMover_bound B T :
  bound_mover (Mover := VirtualMover B) T = Some VirtualMover_value.
Proof. done. Qed.

#[global] Instance UniversalMover_unique B : EmptyMoverUnique (UniversalMover B).
Proof. intros ?. discriminate. Qed.

#[global] Instance VirtualMover_unique B : EmptyMoverUnique (VirtualMover B).
Proof. intros _ []. done. Qed.

(** *** The invariant of the store *)

Section Invariant.
Context {Mover : Type} `{EmptyMoverUnique Mover}.
Variables (Storage : type_info) (Base : class).
Implicit Types (s : state Mover) (m : Mover) (o : object).

Lemma empty_movers_agree m m' :
  mover_is_empty Mover = true → m = m'.
Proof.
  intros He. pose proof (empty_mover_unique He m) as E1.
  pose proof (empty_mover_unique He m') as E2. congruence.
Qed.

Lemma fits_current m m' c :
  fits m' c → fits (if mover_is_empty Mover then m else m') c.
Proof.
  destruct (mover_is_empty Mover) eqn:He; [|done].
  by rewrite (empty_movers_agree m m' He).
Qed.

Lemma sound_inv (c : BoundedPoly Mover) :
  sound c →
  ∃ m o, c = Container m (Some o) ∧ fits m (dyn o)
         ∧ has_type (dyn o) (fields o) = true.
Proof.
  destruct c as [m x]. intros (o & Hs & ? & ?). simpl in *. subst. eauto.
Qed.

Lemma sound_moved_from m o :
  fits m (dyn o) → has_type (dyn o) (fields o) = true →
  sound (Container m (Some (moved_from (dyn o) o))).
Proof.
  intros Hf Ht. exists (moved_from (dyn o) o).
  split; [done|]. split; [done|]. by apply moved_from_sound.
Qed.

Lemma sound_moved_into m o id :
  fits m (dyn o) → has_type (dyn o) (fields o) = true →
  sound (Container m (Some (moved_into (dyn o) o id))).
Proof.
  intros Hf Ht. exists (moved_into (dyn o) o id).
  split; [done|]. split; [done|]. by apply moved_into_sound.
Qed.

Lemma sound_new m T v id :
  fits m T → has_type T v = true → sound (Container m (Some (Object id T v))).
Proof. intros Hf Ht. by exists (Object id T v). Qed.

Lemma accepts_has_type T v :
  accepts Storage Base T v = true → has_type T v = true.
Proof. unfold accepts. by intros [_ ?]%andb_true_iff. Qed.

(** [swap] on two sound containers, or on one and itself: each ends with the
    value of the other as its move constructor carries it and, for a mover
    with state, the mover of the other. *)
Lemma swap_result s i j ma mb oa ob :
  consistent s i ma oa → consistent s j mb ob →
  let n := next_oid s in
  swap i j s =
    Done tt
      (State
         (<[j := Container (if mover_is_empty Mover then mb else ma)
                   (Some (Object (S (S n)) (dyn oa) (carried oa).2))]>
            (<[i := Container (if mover_is_empty Mover then ma else mb)
                      (Some (Object (S n) (dyn ob) (carried ob).2))]>
               (heap s)))
         None (S (S (S n)))
         (trace s ++
            [EvRelocate (Stored i) Tmp n (dyn oa);
             EvRelocate (Stored j) (Stored i) (S n) (dyn ob);
             EvRelocate Tmp (Stored j) (S (S n)) (dyn oa);
             EvDestroy Tmp n;
             EvSwapMover i j])).
Proof.
  intros (Hi & Fa & Ta) (Hj & Fb & Tb) n.
  rewrite (swap_done s i j ma mb oa ob) by done.
  rewrite (moved_into_twice oa) by done.
  by rewrite (moved_into_carried ob) by done.
Qed.

Lemma consistent_carried s i m o id :
  heap s !! i = Some (Container m (Some (Object id (dyn o) (carried o).2))) →
  fits m (dyn o) →
  has_type (dyn o) (fields o) = true →
  consistent s i m (Object id (dyn o) (carried o).2).
Proof.
  intros Hi Hf Ht. split; [done|]. split; [done|]. simpl.
  by apply has_type_moved.
Qed.

Lemma invariant_update s h t n :
  invariant s →
  (∀ k c, h !! k = Some c → sound c ∨ heap s !! k = Some c) →
  invariant (State h None n t).
Proof.
  intros [_ Hs] Hh. split; [done|]. intros k c Hk.
  destruct (Hh k c Hk); eauto.
Qed.

Lemma target_exact s j m o X :
  invariant s →
  heap s !! j = Some (Container m (Some o)) →
  mover_target m (dyn o) = Some X →
  X = dyn o ∧ fits m (dyn o) ∧ has_type (dyn o) (fields o) = true.
Proof.
  intros [_ Hsound] Hj HX.
  destruct (Hsound _ _ Hj) as (o' & [= <-] & Hf & Ht).
  split; [|done]. unfold fits in Hf. simpl in Hf. congruence.
Qed.

Lemma invariant_step s op s' :
  invariant s →
  well_formed Storage Base op →
  perform Storage Base op s = Done tt s' →
  invariant s'.
Proof.
  intros Hinv Hop Hrun. pose proof Hinv as [Htmp Hsound].
  destruct op as [i T v|i T args|i j|i T v|i j|i T args|i j|i];
    simpl in Hop, Hrun.
  - (* Construct *)
    apply BoundedPoly_value_inv in Hrun as (m & Ha & Hb & Hi & ->).
    destruct Hop as (_ & m' & Hm & Hf).
    rewrite Hb in Hm. injection Hm as <-.
    rewrite Htmp. apply (invariant_update s); [done|].
    intros k c. destruct (decide (i = k)) as [->|]; lookups; [|by auto].
    intros [= <-]. left. apply sound_new; [done|].
    apply has_type_moved. by eapply accepts_has_type.
  - (* InPlace *)
    apply BoundedPoly_in_place_inv in Hrun
      as (m & v & Hc & Hv & Ha & Hb & Hi & ->).
    destruct (Hop v Hv) as (_ & m' & Hm & Hf).
    rewrite Hb in Hm. injection Hm as <-.
    rewrite Htmp. apply (invariant_update s); [done|].
    intros k c. destruct (decide (i = k)) as [->|]; lookups; [|by auto].
    intros [= <-]. left. apply sound_new; [done|]. by eapply accepts_has_type.
  - (* MoveConstruct *)
    apply BoundedPoly_move_inv in Hrun as (mj & oj & X & Hi & Hj & HX & ->).
    destruct (target_exact s j mj oj X Hinv Hj HX) as (-> & Fj & Tj).
    rewrite Htmp. apply (invariant_update s); [done|].
    intros k c. destruct (decide (i = k)) as [->|]; lookups.
    { intros [= <-]. left. by apply sound_moved_into. }
    destruct (decide (j = k)) as [->|]; lookups; [|by auto].
    intros [= <-]. left. by apply sound_moved_from.
  - (* Assign *)
    apply assign_value_inv in Hrun as (m & mi & oi & Ha & Hb & Hi & ->).
    destruct Hop as (_ & m' & Hm & Hf).
    rewrite Hb in Hm. injection Hm as <-.
    rewrite Htmp. apply (invariant_update s); [done|].
    intros k c. destruct (decide (i = k)) as [->|]; lookups; [|by auto].
    intros [= <-]. left. apply sound_new; [by apply fits_current|].
    apply has_type_moved. by eapply accepts_has_type.
  - (* AssignMove *)
    apply assign_move_inv in Hrun
      as (mi & mj & oi & oj & X & Hij & Hi & Hj & HX & ->).
    destruct (sound_inv _ (Hsound _ _ Hj)) as (mj' & oj' & [= <- <-] & Fj & Tj).
    pose proof (fits_current mi mj _ Fj) as Fi.
    unfold fits in Fi. rewrite Fi in HX. injection HX as <-.
    rewrite Htmp. apply (invariant_update s); [done|].
    intros k c. destruct (decide (i = k)) as [->|]; lookups.
    { intros [= <-]. left. by apply sound_moved_into. }
    destruct (decide (j = k)) as [->|]; lookups; [|by auto].
    intros [= <-]. left. by apply sound_moved_from.
  - (* Emplace *)
    apply emplace_inv in Hrun
      as (m & mi & oi & v & Hc & Hv & Ha & Hb & Hi & ->).
    destruct (Hop v Hv) as (_ & m' & Hm & Hf).
    rewrite Hb in Hm. injection Hm as <-.
    rewrite Htmp. apply (invariant_update s); [done|].
    intros k c. destruct (decide (i = k)) as [->|]; lookups; [|by auto].
    intros [= <-]. left. apply sound_new; [by apply fits_current|].
    by eapply accepts_has_type.
  - (* Swap *)
    apply swap_inv in Hrun
      as (ma & mb & oa & ob & X & Y & Z & Hi & Hj & HX & HY & HZ & ->).
    destruct (target_exact s i ma oa X Hinv Hi HX) as (-> & Fa & Ta).
    destruct (target_exact s j mb ob Y Hinv Hj HY) as (-> & Fb & Tb).
    unfold fits in Fa. rewrite Fa in HZ. injection HZ as <-.
    apply (invariant_update s); [done|].
    intros k c. destruct (decide (j = k)) as [->|]; lookups.
    { intros [= <-]. left.
      apply (sound_moved_into _ (moved_into (dyn oa) oa (next_oid s)));
        [by apply fits_current|by apply moved_into_sound]. }
    destruct (decide (i = k)) as [->|]; lookups; [|by auto].
    intros [= <-]. left. apply sound_moved_into; [by apply fits_current|done].
  - (* Destruct *)
    apply destructor_inv in Hrun as (m & o & Hi & ->).
    rewrite Htmp. apply (invariant_update s); [done|].
    intros k c. destruct (decide (i = k)) as [->|]; lookups; by auto.
Qed.

End Invariant.

(** *** Observable states of a container with the stateful mover *)

Section Universal.
Variables (Storage : type_info) (B : class).
Implicit Types s : state (UniversalMover B).

Lemma UniversalMover_storable T v :
  accepts (Mover := UniversalMover B) Storage B T v = true →
  storable (Mover := UniversalMover B) Storage B T v.
Proof.
  intros Ha. split; [done|]. exists (UniversalMover_for T).
  split; [done|]. by apply UniversalMover_fits.
Qed.

Lemma UniversalMover_done_well_formed s op s' :
  perform Storage B op s = Done tt s' →
  well_formed (Mover := UniversalMover B) Storage B op.
Proof.
  destruct op as [i T v|i T args|i j|i T v|i j|i T args|i j|i]; simpl;
    try done; intros Hrun.
  - apply BoundedPoly_value_inv in Hrun as (m & Ha & _).
    by apply UniversalMover_storable.
  - apply BoundedPoly_in_place_inv in Hrun as (m & v & _ & Hv & Ha & _).
    intros v' Hv'. rewrite Hv in Hv'. injection Hv' as <-.
    by apply UniversalMover_storable.
  - apply assign_value_inv in Hrun as (m & m0 & o & Ha & _).
    by apply UniversalMover_storable.
  - apply emplace_inv in Hrun as (m & m0 & o & v & _ & Hv & Ha & _).
    intros v' Hv'. rewrite Hv in Hv'. injection Hv' as <-.
    by apply UniversalMover_storable.
Qed.

Lemma UniversalMover_reachable_invariant s :
  reachable Storage B s → invariant s.
Proof.
  induction 1 as [|s op s' _ IH Hrun].
  - split; [done|]. intros i c. unfold initial; simpl. by rewrite lookup_empty.
  - eapply invariant_step; [done| |done].
    by eapply UniversalMover_done_well_formed.
Qed.

Lemma get_inv s i o s' :
  get i s = Done o s' →
  ∃ m, heap s !! i = Some (Container m (Some o)).
Proof. intros [_ ?]%get_holds. done. Qed.

Lemma UniversalMover_reachable_get s i o :
  reachable Storage B s →
  get i s = Done o s →
  consistent s i (UniversalMover_for (dyn o)) o.
Proof.
  intros Hs [m Hi]%get_inv.
  destruct (UniversalMover_reachable_invariant _ Hs) as [_ Hsound].
  destruct (sound_inv _ (Hsound _ _ Hi)) as (m' & o' & [= <- <-] & Hf & Ht).
  pose proof Hf as ->%UniversalMover_fits. done.
Qed.

End Universal.

(** *** Programs *)

Section Runs.
Context {Mover : Type} `{MoverType Mover}.
Variables (Storage : type_info) (Base : class).
Implicit Types s : state Mover.

Lemma run_cons op ops s s' :
  perform Storage Base op s = Done tt s' →
  run Storage Base (op :: ops) s = run Storage Base ops s'.
Proof. intros Hop. simpl. by rewrite (bind_done _ _ _ _ _ Hop). Qed.

Lemma run_app ops1 ops2 : ∀ s s1,
  run Storage Base ops1 s = Done tt s1 →
  run Storage Base (ops1 ++ ops2) s = run Storage Base ops2 s1.
Proof.
  induction ops1 as [|op ops1 IH]; intros s s1; simpl.
  - by intros [= ->].
  - unfold bind. destruct (perform Storage Base op s) as [[] s0| | |]; try done.
    apply IH.
Qed.

Lemma reachable_run ops : ∀ s s',
  reachable Storage Base s →
  run Storage Base ops s = Done tt s' →
  reachable Storage Base s'.
Proof.
  induction ops as [|op ops IH]; intros s s' Hs; simpl.
  - by intros [= <-].
  - unfold bind. destruct (perform Storage Base op s) as [[] s1| | |] eqn:Hop;
      try done.
    apply IH. by eapply reachable_step.
Qed.

Lemma supersede_throws {A} (k : Mover → M Mover A) s i T c :
  heap s !! i = Some c →
  mover_is_empty Mover = false →
  mover_from_witness Mover T = None →
  (_ <- this i ;; mover <- MoverStorage_witness T ;; k mover) s = Throws s.
Proof.
  intros Hi He Hw.
  rewrite (bind_done _ _ _ _ _ (this_done _ _ _ Hi)).
  unfold bind. by rewrite MoverStorage_witness_throws.
Qed.

End Runs.

(** *** The claims *)

(** C2.  The mover and the stored value are one unit.
    (1) In every state a client can observe of containers with the stateful
    mover, no [swap] is under way and the mover of every container is the one
    bound to the dynamic type of the object in its storage.
    (2) For any mover type, every operation, when it is given classes its
    mover can be derived for, takes a store in which every container holds a
    live object that its mover fits to another such store.
    (3) [operator=(Derived)] and [emplace], the latter with arguments of a
    constructor that is [noexcept], derive the new mover first, then destroy
    the old value, then rebind, then construct.
    (4) When deriving the mover fails, [operator=(Derived)] and [emplace] end
    there, in the state they started in. *)
Theorem mover_matches_stored_type :
  (∀ (Storage : type_info) (B : class) (s : state (UniversalMover B)),
     reachable Storage B s →
     tmp s = None
     ∧ ∀ i c, heap s !! i = Some c →
         ∃ o, storage_ c = Some o ∧ mover_ c = UniversalMover_for (dyn o))
  ∧ (∀ (Mover : Type) (MT : MoverType Mover) (law : EmptyMoverUnique Mover)
       (Storage : type_info) (Base : class) (s s' : state Mover) op,
       invariant s →
       well_formed Storage Base op →
       perform Storage Base op s = Done tt s' →
       invariant s')
  ∧ (∀ (Mover : Type) (MT : MoverType Mover) (Storage : type_info)
       (Base : class) (s : state Mover) i T v args m m0 o,
       accepts Storage Base T v = true →
       is_nothrow_constructible args = true →
       made args = Some v →
       bound_mover T = Some m →
       heap s !! i = Some (Container m0 (Some o)) →
       let order :=
         [EvBind T; EvDestroy (Stored i) (oid o); EvCopyMover i;
          EvNew (Stored i) (next_oid s) T] in
       ∃ s1 s2,
         assign_value Storage Base i T v s = Done tt s1
         ∧ emplace Storage Base i T args s = Done tt s2
         ∧ trace s1 = trace s ++ order
         ∧ trace s2 = trace s ++ order)
  ∧ (∀ (Mover : Type) (MT : MoverType Mover) (Storage : type_info)
       (Base : class) (s : state Mover) i T v args c,
       accepts Storage Base T v = true →
       is_nothrow_constructible args = true →
       made args = Some v →
       heap s !! i = Some c →
       mover_is_empty Mover = false →
       mover_from_witness Mover T = None →
       assign_value Storage Base i T v s = Throws s
       ∧ emplace Storage Base i T args s = Throws s).
Proof.
  split; [|split; [|split]].
  - intros Storage B s Hs.
    destruct (UniversalMover_reachable_invariant _ _ _ Hs) as [Htmp Hsound].
    split; [done|]. intros i c Hi.
    destruct (Hsound i c Hi) as (o & Ho & Hf & _).
    exists o. split; [done|]. by apply UniversalMover_fits.
  - intros Mover MT law Storage Base s s' op. apply invariant_step.
  - intros Mover MT Storage Base s i T v args m m0 o Ha Hc Hv Hm Hi order.
    eexists _, _.
    split; [by eapply assign_value_done|].
    split; [by eapply emplace_done|]. done.
  - intros Mover MT Storage Base s i T v args c Ha Hc Hv Hi He Hw.
    unfold assign_value, emplace.
    rewrite (accepts_args_made Storage Base _ _ _ Hv).
    rewrite !(bind_done _ _ _ _ _ (static_assert_done _ _ Ha)).
    rewrite (bind_done _ _ _ _ _ (static_assert_done _ _ Hc)).
    split; by eapply supersede_throws.
Qed.

(** *** Relocation between two containers *)

Lemma carried_of_carried o o' : observe o' = carried o → carried o' = carried o.
Proof.
  destruct o' as [id c fs]. unfold observe, carried; simpl.
  intros [= -> ->]. by rewrite move_construct_fst_idem.
Qed.

Section Relocation.
Context {Mover : Type} `{EmptyMoverUnique Mover}.
Implicit Types (s : state Mover) (m : Mover) (o : object).

Lemma relocation_types s i j mi mj oi oj :
  i ≠ j →
  consistent s i mi oi →
  consistent s j mj oj →
  relocation_keeps_type s i j oi oj.
Proof.
  intros Hij (Hi & Fi & Ti) (Hj & Fj & Tj). split; [|split].
  - intros k Hk. eexists _, _.
    split; [by eapply BoundedPoly_move_done|].
    split; [eapply live_stored; simpl; apply lookup_insert_eq|done].
  - eexists _, _.
    split; [eapply assign_move_done; [done..|by apply fits_current]|].
    split; [eapply live_stored; simpl; apply lookup_insert_eq|done].
  - eexists _, _, _.
    split; [by apply (swap_result s i j mi mj oi oj)|].
    split; [eapply live_stored; simpl; by lookups|].
    split; [eapply live_stored; simpl; by lookups|]. done.
Qed.

Lemma swap_exchanges_sound s i j ma mb oa ob :
  consistent s i ma oa →
  consistent s j mb ob →
  swap_exchanges s i j ma mb oa ob.
Proof.
  intros Ha Hb.
  pose proof (swap_result s i j ma mb oa ob Ha Hb) as H1.
  destruct Ha as (Hi & Fa & Ta), Hb as (Hj & Fb & Tb). simpl in H1.
  destruct (decide (i = j)) as [<-|Hij].
  - rewrite Hi in Hj. injection Hj as <- <-.
    eexists _, _, _, _, (Object _ (dyn oa) (carried oa).2),
      (Object _ (dyn oa) (carried oa).2).
    split; [exact H1|]. simpl.
    split; [done|]. split; [done|].
    split; [apply consistent_carried;
              [simpl; by lookups|by apply fits_current|done]|].
    split; [done|]. split; [intros Hw; exact (carried_memberwise oa Hw)|].
    split; [apply consistent_carried;
              [simpl; by lookups|by apply fits_current|done]|].
    split; [done|]. split; [intros Hw; exact (carried_memberwise oa Hw)|].
    intros k Hki _. simpl. by lookups.
  - eexists _, _, _, _, (Object _ (dyn oa) (carried oa).2),
      (Object _ (dyn ob) (carried ob).2).
    split; [exact H1|]. simpl.
    split; [done|]. split; [done|].
    split; [apply consistent_carried;
              [simpl; by lookups|by apply fits_current|done]|].
    split; [done|]. split; [intros Hw; exact (carried_memberwise ob Hw)|].
    split; [apply consistent_carried;
              [simpl; by lookups|by apply fits_current|done]|].
    split; [done|]. split; [intros Hw; exact (carried_memberwise oa Hw)|].
    intros k Hki Hkj. simpl. by lookups.
Qed.

Lemma swap_swap s i j ma mb oa ob :
  consistent s i ma oa →
  consistent s j mb ob →
  swap_twice_restores s i j ma mb oa ob.
Proof.
  intros Ha Hb.
  destruct (swap_exchanges_sound s i j ma mb oa ob Ha Hb)
    as (s1 & ta & tb & tc & oa1 & ob1 & Hrun1 & _ & _ & Ci & Ei & _ & Cj & Ej
        & _ & _).
  destruct (swap_exchanges_sound s1 i j _ _ ob1 oa1 Ci Cj)
    as (s2 & ta' & tb' & tc' & ob2 & oa2 & Hrun2 & _ & _ & Ci2 & Ei2 & _ & Cj2
        & Ej2 & _ & _).
  rewrite (carried_of_carried oa oa1 Ej) in Ei2.
  rewrite (carried_of_carried ob ob1 Ei) in Ej2.
  assert (∀ m m' : Mover,
            (if mover_is_empty Mover
             then (if mover_is_empty Mover then m else m')
             else (if mover_is_empty Mover then m' else m)) = m) as Hm
    by (intros; by destruct (mover_is_empty Mover)).
  rewrite Hm in Ci2, Cj2.
  exists s1, s2, oa2, ob2. split; [done|]. split; [done|].
  split; [done|]. split; [done|].
  split; [intros Hw; by rewrite Ei2, carried_memberwise|].
  split; [done|]. split; [done|].
  intros Hw. by rewrite Ej2, carried_memberwise.
Qed.

End Relocation.


(** C7, as amended.  Where the mover of each container is bound to the class
    of its value, [swap] exchanges the values and the movers of two
    containers through one temporary, in the order: this to the temporary,
    other to this, the temporary to other, destroy the temporary, swap the
    movers; each container then holds the value of the other as the move
    constructor of its class carries it, which is the very value when the
    move constructors are the defaulted ones, and both containers are sound
    afterwards, whether or not they held the same class ([swap_exchanges]).
    (1) With the stateful mover this holds in every state a client can
    observe, for every two containers.  (2) With any mover type it holds for
    every two containers that each hold a live object their mover fits.
    (3) The two may be one: a container swapped with itself goes through the
    same steps and is left with its mover and its value, as carried. *)
Theorem swap_exchanges_values_and_movers :
  (∀ (Storage : type_info) (B : class) (s : state (UniversalMover B))
     i j oa ob,
     reachable Storage B s →
     get i s = Done oa s →
     get j s = Done ob s →
     swap_exchanges s i j (UniversalMover_for (dyn oa))
       (UniversalMover_for (dyn ob)) oa ob)
  ∧ (∀ (Mover : Type) (MT : MoverType Mover) (law : EmptyMoverUnique Mover)
       (s : state Mover) i j ma mb oa ob,
       consistent s i ma oa →
       consistent s j mb ob →
       swap_exchanges s i j ma mb oa ob)
  ∧ (∀ (Mover : Type) (MT : MoverType Mover) (law : EmptyMoverUnique Mover)
       (s : state Mover) i m o,
       consistent s i m o →
       ∃ s' o',
         swap i i s = Done tt s'
         ∧ tmp s' = None
         ∧ consistent s' i m o'
         ∧ observe o' = carried o
         ∧ (moves_memberwise (dyn o) = true → observe o' = observe o)
         ∧ destroyed (trace s') = destroyed (trace s) ++ [next_oid s]
         ∧ ∀ k, k ≠ i → heap s' !! k = heap s !! k).
Proof.
  split; [|split].
  - intros Storage B s i j oa ob Hs Hi Hj.
    apply swap_exchanges_sound; by eapply UniversalMover_reachable_get.
  - intros Mover MT law s i j ma mb oa ob. apply swap_exchanges_sound.
  - intros Mover MT law s i m o Hc.
    pose proof (swap_result s i i m m o o Hc Hc) as Hrun. simpl in Hrun.
    destruct Hc as (Hi & Hf & Ht).
    eexists _, (Object _ (dyn o) (carried o).2). split; [exact Hrun|]. simpl.
    split; [done|].
    split.
    { apply consistent_carried; [|done..]. simpl. lookups.
      by destruct (mover_is_empty Mover). }
    split; [done|]. split; [intros Hw; exact (carried_memberwise o Hw)|].
    split; [unfold destroyed; by rewrite omap_app|].
    intros k Hk. by lookups.
Qed.

(** C8, as amended.  Where the mover of each container is bound to the class
    of its value, swapping two containers twice restores both: each has its
    mover back and holds an object of the dynamic type it held, with the
    value it held as the move constructor of its class carries it, which is
    the very value when the move constructors are the defaulted ones
    ([swap_twice_restores]).  (1) With the stateful mover this holds in every
    state a client can observe, for every two containers.  (2) With any
    mover type it holds for every two containers that each hold a live
    object their mover fits. *)
Theorem swap_twice :
  (∀ (Storage : type_info) (B : class) (s : state (UniversalMover B))
     i j oa ob,
     reachable Storage B s →
     get i s = Done oa s →
     get j s = Done ob s →
     swap_twice_restores s i j (UniversalMover_for (dyn oa))
       (UniversalMover_for (dyn ob)) oa ob)
  ∧ (∀ (Mover : Type) (MT : MoverType Mover) (law : EmptyMoverUnique Mover)
       (s : state Mover) i j ma mb oa ob,
       consistent s i ma oa →
       consistent s j mb ob →
       swap_twice_restores s i j ma mb oa ob).
Proof.
  split.
  - intros Storage B s i j oa ob Hs Hi Hj.
    apply swap_swap; by eapply UniversalMover_reachable_get.
  - intros Mover MT law s i j ma mb oa ob. apply swap_swap.
Qed.

(** C9, as amended.  Constructing a container from a [T] value [v], for a
    [T] the container type accepts and for which the mover can be derived,
    and then calling [get()] yields an object of dynamic type [T] whose
    members are those that the move constructor of [T] makes of the members
    of [v]: as many, and the very members of [v] when the move constructors
    of [T] and its bases are the defaulted ones. *)
Theorem construct_then_get
    {Mover : Type} `{MoverType Mover} (Storage : type_info) (Base : class)
    (s : state Mover) i T v :
  accepts Storage Base T v = true →
  is_Some (bound_mover T) →
  heap s !! i = None →
  ∃ s' o, BoundedPoly_value Storage Base i T v s = Done tt s'
          ∧ get i s' = Done o s'
          ∧ dyn o = T
          ∧ fields o = (move_construct T v).1
          ∧ length (fields o) = length v
          ∧ (moves_memberwise T = true → observe o = (T, v)).
Proof.
  intros Ha [m Hm] Hi. eexists _, _.
  split; [by eapply BoundedPoly_value_done|].
  split; [eapply live_stored; simpl; apply lookup_insert_eq|].
  split; [done|]. split; [done|].
  split; [apply move_construct_length_fst|].
  intros Hw. unfold observe; cbn [dyn fields]. f_equal.
  by rewrite move_construct_memberwise, move_members_fst.
Qed.

(** *** Slicing *)

Lemma is_base_of_fields B D :
  is_base_of B D = true → (total_fields B ≤ total_fields D).
Proof.
  induction D as [d|d P IH]; simpl.
  - rewrite orb_false_r. by intros ->%bool_decide_eq_true.
  - intros [->%bool_decide_eq_true| HP]%orb_true_iff; [done|].
    specialize (IH HP). lia.
Qed.

Lemma owned_app fs gs : owned (fs ++ gs) = owned fs ++ owned gs.
Proof. apply omap_app. Qed.

Lemma owned_moved_from fs : owned (move_members fs).2 = [].
Proof.
  unfold move_members; simpl.
  induction fs as [|[z|p] fs IH]; [done|exact IH..].
Qed.

(** C6.  A mover bound to [B], called on a live object of a class [D] derived
    from [B], relocates the [B] portion of the object and no more: it
    constructs at the destination an object of dynamic type [B] whose
    members are what the move constructor of [B] makes of the [B] members of
    the source, and leaves the source with its dynamic type, its [B] members
    moved-from and, untouched, the members [B] does not declare.  With the
    defaulted move constructors the new object has the [B] members of the
    source and owns what they owned, and the source is left owning only what
    its other members own. *)
Theorem slicing_through_base_mover
    (T : class) (s : state (UniversalMover T)) i j mi mj y o B :
  i ≠ j →
  heap s !! j = Some (Container mj (Some o)) →
  heap s !! i = Some (Container mi y) →
  is_base_of B (dyn o) = true →
  has_type (dyn o) (fields o) = true →
  ∃ s' dst src,
    call_mover (UniversalMover_for B) (Stored j) (Stored i) s = Done tt s'
    ∧ heap s' !! i = Some (Container mi (Some dst))
    ∧ heap s' !! j = Some (Container mj (Some src))
    ∧ dyn dst = B
    ∧ fields dst = (move_construct B (take (total_fields B) (fields o))).1
    ∧ length (fields dst) = total_fields B
    ∧ dyn src = dyn o
    ∧ take (total_fields B) (fields src)
      = (move_construct B (take (total_fields B) (fields o))).2
    ∧ drop (total_fields B) (fields src) = drop (total_fields B) (fields o)
    ∧ (moves_memberwise B = true →
       fields dst = take (total_fields B) (fields o)
       ∧ owned (fields dst) = owned (take (total_fields B) (fields o))
       ∧ owned (take (total_fields B) (fields src)) = []
       ∧ owned (fields src) = owned (drop (total_fields B) (fields o))).
Proof.
  intros Hij Hj Hi HB Ht.
  assert (total_fields B ≤ length (fields o)) as Hlen.
  { apply bool_decide_eq_true in Ht. rewrite Ht. by apply is_base_of_fields. }
  eexists _, (moved_into B o (next_oid s)), (moved_from B o).
  split.
  { eapply call_mover_stored_stored; [done..|]. simpl. by rewrite HB. }
  destruct (moved_from_split B o) as [Htake Hdrop].
  split; [simpl; by lookups|]. split; [simpl; by lookups|].
  split; [done|]. split; [done|].
  split; [simpl; rewrite move_construct_length_fst, length_take; lia|].
  split; [done|]. split; [done|]. split; [done|].
  intros Hw.
  assert (fields (moved_into B o (next_oid s))
          = take (total_fields B) (fields o)) as Hdst.
  { simpl. by rewrite move_construct_memberwise, move_members_fst. }
  split; [done|]. split; [by rewrite Hdst|].
  assert (owned (take (total_fields B) (fields (moved_from B o))) = [])
    as Hsrc.
  { rewrite Htake, move_construct_memberwise by done. apply owned_moved_from. }
  split; [done|].
  rewrite <- (take_drop (total_fields B) (fields (moved_from B o))).
  by rewrite owned_app, Hsrc, Hdrop.
Qed.

(** *** Destructor calls *)

Section Destruction.
Context {Mover : Type} `{EmptyMoverUnique Mover}.
Variables (Storage : type_info) (Base : class).
Implicit Types (s : state Mover) (m : Mover) (o : object).

Lemma destroyed_app t1 t2 : destroyed (t1 ++ t2) = destroyed t1 ++ destroyed t2.
Proof. apply omap_app. Qed.

Lemma destroyed_at_app l t1 t2 :
  destroyed_at l (t1 ++ t2) = destroyed_at l t1 ++ destroyed_at l t2.
Proof. apply omap_app. Qed.

Lemma constructed_at_app l t1 t2 :
  constructed_at l (t1 ++ t2) = constructed_at l t1 ++ constructed_at l t2.
Proof. apply omap_app. Qed.

Lemma relocatable_kept s i j m x h n t :
  j ≠ i →
  relocatable s j →
  relocatable (State (<[i := Container m x]> (heap s)) h n t) j.
Proof.
  intros Hji (mj & oj & X & Hj & HX). exists mj, oj, X.
  split; [simpl; by lookups|done].
Qed.

Lemma ready_kept s i m x h n t op :
  ready Storage Base s i op →
  ready Storage Base (State (<[i := Container m x]> (heap s)) h n t) i op.
Proof.
  destruct op; simpl; try done; intros [Hji Hr];
    (split; [done|by apply relocatable_kept]).
Qed.

Lemma ready_kept_source s i j m mj x oj X h n t op :
  j ≠ i →
  heap s !! j = Some (Container mj (Some oj)) →
  mover_target mj (dyn oj) = Some X →
  ready Storage Base s i op →
  ready Storage Base
    (State (<[i := Container m x]>
              (<[j := Container mj (Some (moved_from X oj))]> (heap s)))
       h n t) i op.
Proof.
  intros Hji Hj HX Hop.
  assert (∀ k, k ≠ i → relocatable s k →
               relocatable
                 (State (<[i := Container m x]>
                           (<[j := Container mj (Some (moved_from X oj))]>
                              (heap s))) h n t) k) as Hk.
  { intros k Hki (mk & ok & Xk & Hlk & HXk).
    destruct (decide (k = j)) as [->|Hkj].
    - exists mj, (moved_from X oj), X. split; [simpl; by lookups|].
      simpl. congruence.
    - exists mk, ok, Xk. split; [simpl; by lookups|done]. }
  destruct op; simpl in *; try done; destruct Hop as [? ?]; split; auto.
Qed.

Lemma construct_step s i op :
  heap s !! i = None →
  constructs i op = true →
  ready Storage Base s i op →
  ∃ s1 tr,
    perform Storage Base op s = Done tt s1
    ∧ advances Storage Base s i tr s1
    ∧ destroyed tr = [].
Proof.
  intros Hi Hop Hr.
  destruct op as [k T v|k T args|k j| | | | |]; simpl in Hop; try done;
    apply bool_decide_eq_true in Hop as ->; simpl in Hr.
  - destruct Hr as [Ha [m Hm]].
    eexists _, [EvBind T; EvNew (Stored i) (next_oid s) T].
    split; [by eapply BoundedPoly_value_done|].
    split; [|done]. split; [eexists _, _; simpl; by lookups|].
    split; [done|]. split; [done|].
    split; [simpl; by rewrite decide_True|]. apply ready_kept.
  - destruct Hr as (Hc & [v Hv] & Ha & [m Hm]).
    rewrite (accepts_args_made Storage Base _ _ _ Hv) in Ha.
    eexists _, [EvBind T; EvNew (Stored i) (next_oid s) T].
    split; [by eapply BoundedPoly_in_place_done|].
    split; [|done]. split; [eexists _, _; simpl; by lookups|].
    split; [done|]. split; [done|].
    split; [simpl; by rewrite decide_True|]. apply ready_kept.
  - destruct Hr as [Hji (mj & oj & X & Hj & HX)].
    eexists _, [EvRelocate (Stored j) (Stored i) (next_oid s) X].
    split; [by eapply BoundedPoly_move_done|].
    split; [|done]. split; [eexists _, _; simpl; by lookups|].
    split; [done|]. split; [done|].
    split; [simpl; by rewrite decide_True|]. intros op. by apply ready_kept_source.
Qed.

Lemma supersede_step s i op m o :
  heap s !! i = Some (Container m (Some o)) →
  supersedes i op = true →
  ready Storage Base s i op →
  ∃ s1 tr,
    perform Storage Base op s = Done tt s1
    ∧ advances Storage Base s i tr s1
    ∧ destroyed tr = [oid o]
    ∧ destroyed_at (Stored i) tr = [oid o].
Proof.
  intros Hi Hop Hr.
  destruct op as [| | |k T v|k j|k T args| |]; simpl in Hop; try done;
    apply bool_decide_eq_true in Hop as ->; simpl in Hr.
  - destruct Hr as [Ha [m' Hm]].
    eexists _, [EvBind T; EvDestroy (Stored i) (oid o); EvCopyMover i;
                EvNew (Stored i) (next_oid s) T].
    split; [by eapply assign_value_done|].
    split; [|split; [done|simpl; by rewrite decide_True]].
    split; [eexists _, _; simpl; by lookups|].
    split; [done|]. split; [done|].
    split; [simpl; by rewrite decide_True|]. apply ready_kept.
  - destruct Hr as [Hji (mj & oj & X & Hj & HX)].
    assert (mover_target (if mover_is_empty Mover then m else mj) (dyn oj)
            = Some X) as HX'.
    { destruct (mover_is_empty Mover) eqn:He; [|done].
      by rewrite (empty_movers_agree m mj He). }
    eexists _, [EvDestroy (Stored i) (oid o); EvCopyMover i;
                EvRelocate (Stored j) (Stored i) (next_oid s) X].
    split; [by eapply assign_move_done|].
    split; [|split; [done|simpl; by rewrite decide_True]].
    split; [eexists _, _; simpl; by lookups|].
    split; [done|]. split; [done|].
    split; [simpl; by rewrite decide_True|].
    intros op. by apply ready_kept_source.
  - destruct Hr as (Hc & [v Hv] & Ha & [m' Hm]).
    rewrite (accepts_args_made Storage Base _ _ _ Hv) in Ha.
    eexists _, [EvBind T; EvDestroy (Stored i) (oid o); EvCopyMover i;
                EvNew (Stored i) (next_oid s) T].
    split; [by eapply emplace_done|].
    split; [|split; [done|simpl; by rewrite decide_True]].
    split; [eexists _, _; simpl; by lookups|].
    split; [done|]. split; [done|].
    split; [simpl; by rewrite decide_True|]. apply ready_kept.
Qed.

Lemma supersede_run i rest : ∀ s m o,
  heap s !! i = Some (Container m (Some o)) →
  Forall (λ op, supersedes i op = true) rest →
  Forall (ready Storage Base s i) rest →
  ∃ s' t,
    run Storage Base (rest ++ [Destruct i]) s = Done tt s'
    ∧ trace s' = trace s ++ t
    ∧ heap s' !! i = None
    ∧ destroyed t = oid o :: seq (next_oid s) (length rest)
    ∧ destroyed_at (Stored i) t = oid o :: seq (next_oid s) (length rest)
    ∧ constructed_at (Stored i) t = seq (next_oid s) (length rest).
Proof.
  induction rest as [|op rest IH]; intros s m o Hi Hsup Hready.
  - eexists _, [EvDestroy (Stored i) (oid o)]. simpl.
    erewrite bind_done; last by eapply destructor_done.
    split; [done|]. simpl. split; [done|]. split; [by lookups|].
    split; [done|]. split; [by rewrite decide_True|done].
  - apply Forall_cons in Hsup as [Hop Hsup].
    apply Forall_cons in Hready as [Hr Hready].
    destruct (supersede_step s i op m o Hi Hop Hr)
      as (s1 & tr & Hrun & ((m1 & o1 & Hi1) & Hn & Ht & Hc & Hkeep) & Hd & Hdi).
    assert (oid o1 = next_oid s) as Ho1.
    { clear IH. destruct op as [| | |k T v|k j|k T args| |]; simpl in Hop;
        try done; apply bool_decide_eq_true in Hop as ->; simpl in Hr, Hrun.
      - destruct Hr as [Ha [m' Hm]].
        rewrite (assign_value_done Storage Base s i T v m' m o) in Hrun by done.
        injection Hrun as <-. simpl in Hi1. rewrite lookup_insert_eq in Hi1.
        by injection Hi1 as _ <-.
      - destruct Hr as [Hji (mj & oj & X & Hj & HX)].
        rewrite (assign_move_done s i j m mj o oj X) in Hrun;
          [|done..|].
        + injection Hrun as <-. simpl in Hi1. rewrite lookup_insert_eq in Hi1.
          by injection Hi1 as _ <-.
        + destruct (mover_is_empty Mover) eqn:He; [|done].
          by rewrite (empty_movers_agree m mj He).
      - destruct Hr as (Hnt & [v Hv] & Ha & [m' Hm]).
        rewrite (accepts_args_made Storage Base _ _ _ Hv) in Ha.
        rewrite (emplace_done Storage Base s i T args v m' m o) in Hrun by done.
        injection Hrun as <-. simpl in Hi1. rewrite lookup_insert_eq in Hi1.
        by injection Hi1 as _ <-. }
    destruct (IH s1 m1 o1 Hi1 Hsup) as (s' & t & Hrest & Ht' & Hi' & Hd' & Hdi' & Hc').
    { eapply Forall_impl; [exact Hready|]. intros op'. apply Hkeep. }
    exists s', (tr ++ t).
    split; [by rewrite <- app_comm_cons, (run_cons _ _ _ _ _ _ Hrun)|].
    split; [by rewrite Ht', Ht, <- app_assoc|].
    split; [done|].
    rewrite destroyed_app, destroyed_at_app, constructed_at_app.
    rewrite Hd, Hdi, Hc, Hd', Hdi', Hc', Ho1, Hn. done.
Qed.

End Destruction.

(** C4.  A container is constructed at a free address (from a value, in
    place, or by moving from another container), then assigned or emplaced
    any number of times (from values, arguments, or other containers), then
    destroyed.  The program runs to the end and the container is gone.  The
    destructor calls made in it are all on objects in the storage of this
    container; they are, in order and once each, on exactly the objects
    constructed there: as many as there were construct, assign and emplace
    operations, and no object twice.  (Destructor calls on the arguments of
    the operations are the caller's and are not events of the container.) *)
Theorem exactly_once_destruction
    {Mover : Type} `{EmptyMoverUnique Mover} (Storage : type_info)
    (Base : class) (s : state Mover) i first rest :
  heap s !! i = None →
  constructs i first = true →
  Forall (λ op, supersedes i op = true) rest →
  Forall (ready Storage Base s i) (first :: rest) →
  ∃ s' t,
    run Storage Base (first :: rest ++ [Destruct i]) s = Done tt s'
    ∧ trace s' = trace s ++ t
    ∧ heap s' !! i = None
    ∧ length (destroyed t) = length (first :: rest)
    ∧ destroyed t = destroyed_at (Stored i) t
    ∧ destroyed_at (Stored i) t = constructed_at (Stored i) t
    ∧ NoDup (destroyed t).
Proof.
  intros Hi Hfirst Hsup [Hr Hready]%Forall_cons.
  destruct (construct_step Storage Base s i first Hi Hfirst Hr)
    as (s1 & tr & Hrun & ((m1 & o1 & Hi1) & Hn & Ht & Hc & Hkeep) & Hd).
  assert (oid o1 = next_oid s ∧ destroyed_at (Stored i) tr = []) as [Ho1 Hdi].
  { destruct first as [k T v|k T args|k j| | | | |]; simpl in Hfirst; try done;
      apply bool_decide_eq_true in Hfirst as ->; simpl in Hr, Hrun.
    - destruct Hr as [Ha [m' Hm]].
      rewrite (BoundedPoly_value_done Storage Base s i T v m') in Hrun by done.
      injection Hrun as <-. simpl in Hi1, Ht. rewrite lookup_insert_eq in Hi1.
      apply app_inv_head in Ht as <-. split; [by injection Hi1 as _ <-|done].
    - destruct Hr as (Hnt & [v Hv] & Ha & [m' Hm]).
      rewrite (accepts_args_made Storage Base _ _ _ Hv) in Ha.
      rewrite (BoundedPoly_in_place_done Storage Base s i T args v m') in Hrun
        by done.
      injection Hrun as <-. simpl in Hi1, Ht. rewrite lookup_insert_eq in Hi1.
      apply app_inv_head in Ht as <-. split; [by injection Hi1 as _ <-|done].
    - destruct Hr as [Hji (mj & oj & X & Hj & HX)].
      rewrite (BoundedPoly_move_done s i j mj oj X) in Hrun by done.
      injection Hrun as <-. simpl in Hi1, Ht. rewrite lookup_insert_eq in Hi1.
      apply app_inv_head in Ht as <-. split; [by injection Hi1 as _ <-|done]. }
  destruct (supersede_run Storage Base i rest s1 m1 o1 Hi1 Hsup)
    as (s' & t & Hrest & Ht' & Hi' & Hd' & Hdi' & Hc').
  { eapply Forall_impl; [exact Hready|]. intros op'. apply Hkeep. }
  exists s', (tr ++ t).
  split; [by rewrite (run_cons _ _ _ _ _ _ Hrun)|].
  split; [by rewrite Ht', Ht, <- app_assoc|].
  split; [done|].
  rewrite destroyed_app, destroyed_at_app, constructed_at_app.
  rewrite Hd, Hdi, Hc, Hd', Hdi', Hc', Ho1, Hn. simpl.
  split; [by rewrite length_seq|]. split; [done|]. split; [done|].
  apply (NoDup_seq (next_oid s) (S (length rest))).
Qed.

(** *** The claims on the classes of the test suite *)

Section OnFixture.
Import Fixture.

Lemma movability_requirements_witness :
  (mover_nothrow_copy_assignable (UniversalMover Base) = true
   ∧ mover_nothrow_constructible (UniversalMover Base) Derived = true)
  ∧ is_movable Base2 (VirtualMover Base2) Derived2
    = mover_nothrow_destructible (VirtualMover Base2)
      && mover_nothrow_invocable (VirtualMover Base2) Base2
      && is_base_of Base2 Derived2
  ∧ is_movable Base (UniversalMover Base) Throwing
    = is_movable Base (UniversalMover Base) Derived
  ∧ is_nothrow_move_constructible (info Derived) = true.
Proof.
  split; [|split; [|split]].
  - apply (proj1 (movability_requirements (Mover := UniversalMover Base)
                    Base Derived)); reflexivity.
  - apply (proj1 (proj2 (movability_requirements (Mover := VirtualMover Base2)
                           Base2 Derived2))); reflexivity.
  - apply (proj1 (proj2 (proj2 (movability_requirements
                                  (Mover := UniversalMover Base) Base Derived))));
      reflexivity.
  - apply (proj2 (proj2 (proj2 (movability_requirements
                                  (Mover := UniversalMover Base) Base Derived)))
             Storage Base); reflexivity.
Defined.

Lemma admission_requires_nothrow_move_witness :
  can_handle (VirtualMover Base2) Storage Base2 Derived2 = true
  ∧ is_nothrow_move_constructible (info Derived2) = true.
Proof.
  split; [reflexivity|].
  apply (admission_requires_nothrow_move (Mover := VirtualMover Base2)
           Storage Base2 Derived2); reflexivity.
Defined.

Lemma mover_matches_stored_type_witness :
  (∃ s : state (UniversalMover Base),
     run Storage Base test_program initial = Done tt s
     ∧ tmp s = None
     ∧ ∀ i c, heap s !! i = Some c →
         ∃ o, storage_ c = Some o ∧ mover_ c = UniversalMover_for (dyn o))
  ∧ (∃ s' : state (VirtualMover Base2),
       perform Storage Base2 (Swap 0 1) base2_and_derived2 = Done tt s'
       ∧ invariant s')
  ∧ (∃ s1 s2 : state (UniversalMover Base),
       assign_value Storage Base 0 Derived derived_empty base_and_derived
       = Done tt s1
       ∧ emplace Storage Base 0 Derived Derived_default base_and_derived
         = Done tt s2
       ∧ trace s1 = [EvBind Derived; EvDestroy (Stored 0) 0; EvCopyMover 0;
                     EvNew (Stored 0) 2 Derived]
       ∧ trace s2 = [EvBind Derived; EvDestroy (Stored 0) 0; EvCopyMover 0;
                     EvNew (Stored 0) 2 Derived])
  ∧ (assign_value Storage Base 0 Derived derived_empty with_failing_mover
     = Throws with_failing_mover
     ∧ emplace Storage Base 0 Derived Derived_default with_failing_mover
       = Throws with_failing_mover).
Proof.
  destruct mover_matches_stored_type as (Hobs & Hstep & Horder & Hfail).
  split; [|split; [|split]].
  - eexists. split; [vm_compute; reflexivity|].
    apply (Hobs Storage Base).
    apply (reachable_run Storage Base test_program initial);
      [apply reachable_initial|vm_compute; reflexivity].
  - eexists. split; [vm_compute; reflexivity|].
    apply (Hstep (VirtualMover Base2) _ _ Storage Base2 base2_and_derived2 _
             (Swap 0 1)); [|exact I|vm_compute; reflexivity].
    split; [reflexivity|]. intros i c. unfold base2_and_derived2; simpl.
    destruct (decide (1 = i)) as [<-|]; lookups.
    { intros [= <-]. by eexists. }
    destruct (decide (0 = i)) as [<-|]; lookups.
    { intros [= <-]. by eexists. }
    by rewrite lookup_empty.
  - apply (Horder (UniversalMover Base) _ Storage Base base_and_derived 0
             Derived derived_empty Derived_default (UniversalMover_for Derived)
             (UniversalMover_for Base) (Object 0 Base base_42));
      reflexivity.
  - apply (Hfail FailingMover _ Storage Base with_failing_mover 0 Derived
             derived_empty Derived_default
             (Container failing_mover (Some (Object 0 Base base_42))));
      reflexivity.
Defined.

Lemma two_values_reachable :
  ∃ s : state (UniversalMover Base),
    run Storage Base two_values initial = Done tt s
    ∧ reachable Storage Base s
    ∧ get 0 s = Done (Object 0 Base base_42) s
    ∧ get 1 s = Done (Object 1 Derived derived_50_0) s.
Proof.
  eexists. split; [vm_compute; reflexivity|].
  split; [|split; reflexivity].
  apply (reachable_run Storage Base two_values initial);
    [apply reachable_initial|vm_compute; reflexivity].
Defined.

Lemma base2_and_derived2_consistent :
  consistent base2_and_derived2 0 VirtualMover_value (Object 0 Base2 base_42)
  ∧ consistent base2_and_derived2 1 VirtualMover_value
      (Object 1 Derived2 derived_50_0).
Proof. repeat split; reflexivity. Defined.



Lemma construct_then_get_witness :
  ∃ s' o, BoundedPoly_value (Mover := UniversalMover Base) Storage Base 0
            Derived derived_50_0 initial = Done tt s'
          ∧ get 0 s' = Done o s'
          ∧ dyn o = Derived
          ∧ fields o = (move_construct Derived derived_50_0).1
          ∧ length (fields o) = length derived_50_0
          ∧ observe o = (Derived, derived_50_0).
Proof.
  destruct (construct_then_get (Mover := UniversalMover Base) Storage Base
              initial 0 Derived derived_50_0)
    as (s' & o & Hrun & Hget & Hdyn & Hfields & Hlen & Hsame);
    [reflexivity|by eexists|reflexivity|].
  exists s', o. repeat split; try done. by apply Hsame.
Defined.

(** C9, as the claim has it, fails.  The container type accepts
    [NoticeableDestructor], whose move constructor default-constructs the
    base class subobject: a container constructed from a value whose [i] is
    not null holds an object whose [i] is null. *)
Lemma construct_then_get_drops_a_member :
  accepts (Mover := UniversalMover Base) Storage Base NoticeableDestructor
    [unique_ptr (Some 5%Z); plain 0] = true
  ∧ ∃ (s' : state (UniversalMover Base)) o,
      BoundedPoly_value Storage Base 0 NoticeableDestructor
        [unique_ptr (Some 5%Z); plain 0] initial = Done tt s'
      ∧ get 0 s' = Done o s'
      ∧ observe o = (NoticeableDestructor, [unique_ptr None; plain 0])
      ∧ observe o ≠ (NoticeableDestructor, [unique_ptr (Some 5%Z); plain 0]).
Proof.
  split; [reflexivity|]. eexists _, _.
  split; [vm_compute; reflexivity|]. split; [vm_compute; reflexivity|].
  split; [reflexivity|]. discriminate.
Qed.

Lemma swap_twice_witness :
  (∃ s : state (UniversalMover Base),
     run Storage Base two_values initial = Done tt s
     ∧ swap_twice_restores s 0 1 (UniversalMover_for Base)
         (UniversalMover_for Derived) (Object 0 Base base_42)
         (Object 1 Derived derived_50_0))
  ∧ swap_twice_restores base2_and_derived2 0 1 VirtualMover_value
      VirtualMover_value (Object 0 Base2 base_42)
      (Object 1 Derived2 derived_50_0).
Proof.
  destruct swap_twice as [Hobs Hany]. split.
  - destruct two_values_reachable as (s & Hrun & Hs & H0 & H1).
    exists s. split; [exact Hrun|].
    exact (Hobs Storage Base s 0 1 (Object 0 Base base_42)
             (Object 1 Derived derived_50_0) Hs H0 H1).
  - apply (Hany (VirtualMover Base2) _ _ base2_and_derived2 0 1);
      apply base2_and_derived2_consistent.
Defined.

(** C8, as the claim has it, fails.  With the stateless mover, two
    containers hold a [Base2] and an [Inheriting2], which the container type
    accepts; after two swaps the second holds a [Base2], without the member
    that [Inheriting2] declares.  With the stateful mover, a container holds
    a [NoticeableDestructor] whose [i] is not null; after two swaps with
    another it holds one whose [i] is null. *)
Lemma swap_twice_does_not_restore :
  (can_handle (VirtualMover Base2) Storage Base2 Inheriting2 = true
   ∧ ∃ (s s' : state (VirtualMover Base2)) a b,
       run Storage Base2
         [Construct 0 Base2 base_42; Construct 1 Inheriting2 derived_50_0]
         initial = Done tt s
       ∧ get 1 s = Done b s
       ∧ observe b = (Inheriting2, derived_50_0)
       ∧ run Storage Base2 [Swap 0 1; Swap 0 1] s = Done tt s'
       ∧ get 1 s' = Done a s'
       ∧ observe a = (Base2, [unique_ptr (Some 50%Z)]))
  ∧ (can_handle (UniversalMover Base) Storage Base NoticeableDestructor = true
     ∧ ∃ (s' : state (UniversalMover Base)) a,
         get 0 noticeable_and_base
         = Done (Object 0 NoticeableDestructor [unique_ptr (Some 5%Z); plain 0])
             noticeable_and_base
         ∧ run Storage Base [Swap 0 1; Swap 0 1] noticeable_and_base
           = Done tt s'
         ∧ get 0 s' = Done a s'
         ∧ observe a = (NoticeableDestructor, [unique_ptr None; plain 0])).
Proof.
  split.
  - split; [reflexivity|]. eexists _, _, _, _.
    split; [vm_compute; reflexivity|]. split; [vm_compute; reflexivity|].
    split; [reflexivity|]. split; [vm_compute; reflexivity|].
    split; [vm_compute; reflexivity|reflexivity].
  - split; [reflexivity|]. eexists _, _.
    split; [reflexivity|]. split; [vm_compute; reflexivity|].
    split; [vm_compute; reflexivity|reflexivity].
Qed.

(** C7, as the claim has it, fails.  With the stateless mover, two
    containers hold a [Base2] and an [Inheriting2], which the container type
    accepts; after a swap both hold a [Base2], and the member that
    [Inheriting2] declares is in neither.  With the stateful mover, a
    container holds a [NoticeableDestructor] whose [i] is not null; after a
    swap the other container holds one whose [i] is null. *)
Lemma swap_does_not_exchange_every_value :
  (can_handle (VirtualMover Base2) Storage Base2 Inheriting2 = true
   ∧ ∃ (s s' : state (VirtualMover Base2)) a b,
       run Storage Base2
         [Construct 0 Base2 base_42; Construct 1 Inheriting2 derived_50_0]
         initial = Done tt s
       ∧ swap 0 1 s = Done tt s'
       ∧ get 0 s' = Done a s' ∧ get 1 s' = Done b s'
       ∧ observe a = (Base2, [unique_ptr (Some 50%Z)])
       ∧ observe b = (Base2, base_42))
  ∧ (can_handle (UniversalMover Base) Storage Base NoticeableDestructor = true
     ∧ ∃ (s' : state (UniversalMover Base)) b,
         get 0 noticeable_and_base
         = Done (Object 0 NoticeableDestructor [unique_ptr (Some 5%Z); plain 0])
             noticeable_and_base
         ∧ swap 0 1 noticeable_and_base = Done tt s'
         ∧ get 1 s' = Done b s'
         ∧ observe b = (NoticeableDestructor, [unique_ptr None; plain 0])).
Proof.
  split.
  - split; [reflexivity|]. eexists _, _, _, _.
    split; [vm_compute; reflexivity|]. split; [vm_compute; reflexivity|].
    split; [vm_compute; reflexivity|]. split; [vm_compute; reflexivity|].
    split; reflexivity.
  - split; [reflexivity|]. eexists _, _.
    split; [reflexivity|]. split; [vm_compute; reflexivity|].
    split; [vm_compute; reflexivity|reflexivity].
Qed.

Lemma swap_exchanges_values_and_movers_witness :
  (∃ s : state (UniversalMover Base),
     run Storage Base two_values initial = Done tt s
     ∧ swap_exchanges s 0 1 (UniversalMover_for Base)
         (UniversalMover_for Derived) (Object 0 Base base_42)
         (Object 1 Derived derived_50_0))
  ∧ swap_exchanges base2_and_derived2 0 1 VirtualMover_value
      VirtualMover_value (Object 0 Base2 base_42)
      (Object 1 Derived2 derived_50_0)
  ∧ (∃ s' o',
       swap 1 1 base2_and_derived2 = Done tt s'
       ∧ tmp s' = None
       ∧ consistent s' 1 VirtualMover_value o'
       ∧ observe o' = carried (Object 1 Derived2 derived_50_0)
       ∧ observe o' = (Derived2, derived_50_0)).
Proof.
  destruct swap_exchanges_values_and_movers as (Hobs & Hany & Hself).
  split; [|split].
  - destruct two_values_reachable as (s & Hrun & Hs & H0 & H1).
    exists s. split; [exact Hrun|].
    exact (Hobs Storage Base s 0 1 (Object 0 Base base_42)
             (Object 1 Derived derived_50_0) Hs H0 H1).
  - apply (Hany (VirtualMover Base2) _ _ base2_and_derived2 0 1);
      apply base2_and_derived2_consistent.
  - destruct (Hself (VirtualMover Base2) _ _ base2_and_derived2 1
                VirtualMover_value (Object 1 Derived2 derived_50_0))
      as (s' & o' & Hrun & Htmp & Hc & Hcar & Hsame & _);
      [apply base2_and_derived2_consistent|].
    exists s', o'. split; [done|]. split; [done|]. split; [done|].
    split; [done|]. by apply Hsame.
Defined.

Lemma slicing_through_base_mover_witness :
  ∃ s' dst src,
    call_mover (UniversalMover_for Base) (Stored 1) (Stored 0) base_and_derived
    = Done tt s'
    ∧ heap s' !! 0 = Some (Container (UniversalMover_for Base) (Some dst))
    ∧ heap s' !! 1 = Some (Container (UniversalMover_for Derived) (Some src))
    ∧ dyn dst = Base
    ∧ dyn src = Derived
    ∧ fields dst = take (total_fields Base) derived_50_0
    ∧ owned (fields dst) = [50%Z]
    ∧ owned (take (total_fields Base) (fields src)) = []
    ∧ owned (fields src) = [0%Z].
Proof.
  destruct (slicing_through_base_mover Base base_and_derived 0 1
              (UniversalMover_for Base) (UniversalMover_for Derived)
              (Some (Object 0 Base base_42)) (Object 1 Derived derived_50_0)
              Base)
    as (s' & dst & src & Hrun & H0 & H1 & Hd & _ & _ & Hs & _ & _ & Hw);
    [done|reflexivity..|].
  destruct Hw as (Hf & Hod & Hos & Hrest); [reflexivity|].
  exists s', dst, src. repeat split; done.
Defined.

(** The slicing part of the [UniversalMover] test case: after moving
    [Derived{50, 0}] with a mover for [Base], the destination is a [Base]
    holding 50, [derived.i] is null and [derived.f] is not. *)
Example slicing_test :
  ∃ s',
    call_mover (UniversalMover_for Base) (Stored 1) (Stored 0) base_and_derived
    = Done tt s'
    ∧ observe <$> (heap s' !! 0 ≫= storage_)
      = Some (Base, [unique_ptr (Some 50%Z)])
    ∧ observe <$> (heap s' !! 1 ≫= storage_)
      = Some (Derived, [unique_ptr None; unique_ptr (Some 0%Z)]).
Proof. eexists. split; [vm_compute; reflexivity|]. split; reflexivity. Qed.

Lemma exactly_once_destruction_witness :
  ∃ (s' : state (UniversalMover Base)) t,
    run Storage Base
      (MoveConstruct 2 1
       :: [Emplace 2 NoticeableDestructor NoticeableDestructor_flag;
           Assign 2 Base [unique_ptr None];
           AssignMove 2 0;
           Assign 2 Derived derived_50_0]
       ++ [Destruct 2]) base_and_derived = Done tt s'
    ∧ trace s' = t
    ∧ heap s' !! 2 = None
    ∧ length (destroyed t) = 5
    ∧ destroyed t = destroyed_at (Stored 2) t
    ∧ destroyed_at (Stored 2) t = constructed_at (Stored 2) t
    ∧ NoDup (destroyed t).
Proof.
  refine (exactly_once_destruction (Mover := UniversalMover Base) Storage Base
            base_and_derived 2 (MoveConstruct 2 1)
            [Emplace 2 NoticeableDestructor NoticeableDestructor_flag;
             Assign 2 Base [unique_ptr None];
             AssignMove 2 0;
             Assign 2 Derived derived_50_0] _ _ _ _).
  - reflexivity.
  - reflexivity.
  - repeat constructor.
  - repeat constructor; try (by eexists); try done.
    + by exists (UniversalMover_for Derived), (Object 1 Derived derived_50_0),
        Derived.
    + by exists (UniversalMover_for Base), (Object 0 Base base_42), Base.
Defined.

(** The [BoundedPoly + UniversalMover] test case: after [b = std::move(a)]
    both hold a [Base], [a->i] is null and [*b->i] is 42; at the end [a] holds
    a [Derived] and [b] a [Base]. *)
Example BoundedPoly_UniversalMover_test :
  ∃ (s1 s2 : state (UniversalMover Base)) a1 b1 a2 b2,
    run Storage Base (take 3 test_program) initial = Done tt s1
    ∧ get 0 s1 = Done a1 s1 ∧ get 1 s1 = Done b1 s1
    ∧ observe a1 = (Base, [unique_ptr None])
    ∧ observe b1 = (Base, [unique_ptr (Some 42%Z)])
    ∧ run Storage Base (drop 3 test_program) s1 = Done tt s2
    ∧ get 0 s2 = Done a2 s2 ∧ get 1 s2 = Done b2 s2
    ∧ dyn a2 = Derived ∧ dyn b2 = Base.
Proof.
  eexists _, _, _, _, _, _.
  split; [vm_compute; reflexivity|].
  split; [vm_compute; reflexivity|]. split; [vm_compute; reflexivity|].
  split; [reflexivity|]. split; [reflexivity|].
  split; [vm_compute; reflexivity|].
  split; [vm_compute; reflexivity|]. split; [vm_compute; reflexivity|].
  split; reflexivity.
Qed.

(** The same statements on containers with the stateless mover. *)
Example BoundedPoly_VirtualMover_test :
  ∃ (s : state (VirtualMover Base2)) a b,
    run Storage Base2 stateless_program initial = Done tt s
    ∧ get 0 s = Done a s ∧ get 1 s = Done b s
    ∧ observe a = (Derived2, derived_50_0)
    ∧ observe b = (Base2, [unique_ptr None]).
Proof.
  eexists _, _, _.
  split; [vm_compute; reflexivity|].
  split; [vm_compute; reflexivity|]. split; [vm_compute; reflexivity|].
  split; reflexivity.
Qed.

(** [a.emplace<Derived>(50, 0)] is rejected, although the container accepts
    [Derived]: the constructor [Derived(int, float)] is not [noexcept].  In
    place, [Derived(50, 0)] is accepted, and an exception of the constructor
    leaves no container. *)
Example emplace_requires_nothrow_constructor :
  accepts (Mover := UniversalMover Base) Storage Base Derived derived_50_0
  = true
  ∧ emplace Storage Base 0 Derived Derived_50_0 base_and_derived = IllFormed
  ∧ (∃ s', BoundedPoly_in_place Storage Base 2 Derived Derived_50_0
             base_and_derived = Done tt s')
  ∧ (∃ s', BoundedPoly_in_place Storage Base 2 Derived throwing_call
             base_and_derived = Throws s'
           ∧ heap s' = heap base_and_derived).
Proof.
  split; [reflexivity|]. split; [reflexivity|].
  split; [eexists; vm_compute; reflexivity|].
  eexists. split; [vm_compute; reflexivity|]. vm_compute. reflexivity.
Qed.

End OnFixture.


(** *** Storage that fits *)

Lemma is_storable_trans T S U :
  is_storable T S = true → is_storable S U = true → is_storable T U = true.
Proof.
  rewrite !is_storable_spec.
  intros (Hs & [k Hk] & _) (Hs' & [k' Hk'] & Ht). split; [lia|]. split; [|done].
  exists (k' * k)%N. rewrite Hk', Hk. lia.
Qed.

(** X1.  [is_storable] is transitive: what can be stored in a storage can be
    stored in every storage that this storage can be stored in.  A type can
    be stored in itself exactly when it is trivial. *)
Theorem is_storable_preorder :
  (∀ T S U : type_info,
     is_storable T S = true → is_storable S U = true →
     is_storable T U = true)
  ∧ (∀ T : type_info, is_storable T T = is_trivial T).
Proof.
  split; [exact is_storable_trans|].
  intros T. unfold is_storable.
  by rewrite N.leb_refl, N.Div0.mod_same, N.eqb_refl.
Qed.

(** X2.  Replacing the storage of a container type by one in which the old
    storage can itself be stored loses nothing: the [static_assert]s of the
    class still hold, and every class that was handled, and every value that
    was accepted, still is. *)
Theorem larger_storage_accepts_more
    {Mover : Type} `{MoverType Mover} (S S' : type_info) (Base T : class) :
  is_storable S S' = true →
  (class_static_asserts Mover S Base = true →
   class_static_asserts Mover S' Base = true)
  ∧ (can_handle Mover S Base T = true → can_handle Mover S' Base T = true)
  ∧ (∀ v, accepts S Base T v = true → accepts S' Base T v = true).
Proof.
  intros HS.
  assert (∀ X, is_storable X S = true → is_storable X S' = true) as Hup
    by (intros X HX; by apply (is_storable_trans X S S')).
  assert (class_static_asserts Mover S Base = true →
          class_static_asserts Mover S' Base = true) as H1.
  { unfold class_static_asserts. rewrite !andb_true_iff.
    intros ((((? & ?) & ?) & ?) & ?). auto 10. }
  assert (can_handle Mover S Base T = true →
          can_handle Mover S' Base T = true) as H2.
  { unfold can_handle. rewrite !andb_true_iff.
    intros (((? & ?) & ?) & ?). auto 10. }
  split; [done|]. split; [done|].
  intros v. unfold accepts. rewrite !andb_true_iff. intros ((? & ?) & ?). auto.
Qed.

(** *** [details::impl_MoverStorage] *)

(** X3.  [swap_mover] exchanges the movers of two containers when movers
    have state and does nothing when they have none; done twice, or on one
    container and itself, it leaves every container as it was.
    [copy_mover] sets the mover of one container when movers have state and
    does nothing otherwise.  Neither touches the value of any container. *)
Theorem mover_storage_laws
    {Mover : Type} `{MoverType Mover} (s : state Mover) i j ma mb xa xb :
  i ≠ j →
  heap s !! i = Some (Container ma xa) →
  heap s !! j = Some (Container mb xb) →
  (∃ s1 s2,
     swap_mover i j s = Done tt s1
     ∧ swap_mover i j s1 = Done tt s2
     ∧ heap s2 = heap s
     ∧ (∀ k, storage_ <$> heap s1 !! k = storage_ <$> heap s !! k)
     ∧ (∀ k, k ≠ i → k ≠ j → heap s1 !! k = heap s !! k)
     ∧ (mover_is_empty Mover = true → heap s1 = heap s)
     ∧ (mover_is_empty Mover = false →
        mover_ <$> heap s1 !! i = Some mb ∧ mover_ <$> heap s1 !! j = Some ma))
  ∧ (∀ m, ∃ s1,
       copy_mover i m s = Done tt s1
       ∧ (∀ k, storage_ <$> heap s1 !! k = storage_ <$> heap s !! k)
       ∧ (∀ k, k ≠ i → heap s1 !! k = heap s !! k)
       ∧ (mover_is_empty Mover = true → heap s1 = heap s)
       ∧ (mover_is_empty Mover = false → mover_ <$> heap s1 !! i = Some m))
  ∧ (∃ s1, swap_mover i i s = Done tt s1 ∧ heap s1 = heap s).
Proof.
  intros Hij Hi Hj. split; [|split].
  - eexists _, _. split; [by eapply swap_mover_done|].
    split.
    { eapply swap_mover_done; simpl; [done| |apply lookup_insert_eq].
      rewrite lookup_insert_ne by done. apply lookup_insert_eq. }
    simpl. split.
    { apply map_eq. intros k.
      destruct (decide (j = k)) as [<-|].
      { lookups. rewrite Hj. by destruct (mover_is_empty Mover). }
      destruct (decide (i = k)) as [<-|]; lookups; [|done].
      rewrite Hi. by destruct (mover_is_empty Mover). }
    split.
    { intros k. destruct (decide (j = k)) as [<-|]; [by lookups; rewrite Hj|].
      destruct (decide (i = k)) as [<-|]; lookups; [by rewrite Hi|done]. }
    split; [by intros k ? ?; lookups|]. split.
    + intros ->. by rewrite (insert_id _ i), insert_id.
    + intros ->. by lookups.
  - intros m. eexists. split; [by eapply copy_mover_done|]. simpl.
    split.
    { intros k. destruct (decide (i = k)) as [<-|]; lookups; [by rewrite Hi|done]. }
    split; [by intros k ?; lookups|]. split.
    + intros ->. by rewrite insert_id.
    + intros ->. by lookups.
  - eexists. split; [by eapply swap_mover_same|done].
Qed.

(** *** The two movers of the header *)

(** X4.  The call of a [UniversalMover] bound to class [A] on the object in
    another container is defined exactly when the dynamic class of the
    object is [A] or derived from it; then it constructs an [A].  On an
    object of any other class the downcast in the mover is undefined. *)
Theorem UniversalMover_call_needs_a_derived_object
    (T : class) (s : state (UniversalMover T)) i j mi mj y o A :
  i ≠ j →
  heap s !! j = Some (Container mj (Some o)) →
  heap s !! i = Some (Container mi y) →
  ((∃ s', call_mover (UniversalMover_for A) (Stored j) (Stored i) s
          = Done tt s')
   ↔ is_base_of A (dyn o) = true)
  ∧ (is_base_of A (dyn o) = true →
     ∃ s' dst,
       call_mover (UniversalMover_for A) (Stored j) (Stored i) s = Done tt s'
       ∧ get i s' = Done dst s'
       ∧ dyn dst = A)
  ∧ (is_base_of A (dyn o) = false →
     call_mover (UniversalMover_for A) (Stored j) (Stored i) s = Undefined).
Proof.
  intros Hij Hj Hi.
  assert (is_base_of A (dyn o) = true →
          call_mover (UniversalMover_for A) (Stored j) (Stored i) s
          = Done tt
              (State (<[i := Container mi (Some (moved_into A o (next_oid s)))]>
                        (<[j := Container mj (Some (moved_from A o))]> (heap s)))
                 (tmp s) (S (next_oid s))
                 (trace s ++ [EvRelocate (Stored j) (Stored i) (next_oid s) A])))
    as Hdone.
  { intros Hb. apply call_mover_stored_stored with y; try done.
    simpl. by rewrite Hb. }
  assert (is_base_of A (dyn o) = false →
          call_mover (UniversalMover_for A) (Stored j) (Stored i) s = Undefined)
    as Hundef.
  { intros Hb. apply call_mover_no_target with o.
    - simpl. by rewrite Hj.
    - simpl. by rewrite Hb. }
  split; [|split; [|done]].
  - split; [|by eauto]. intros [s' Hrun].
    destruct (is_base_of A (dyn o)); [done|]. by rewrite Hundef in Hrun.
  - intros Hb. eexists _, _. split; [by apply Hdone|].
    split; [apply get_holds; split; [done|]; eexists; simpl; by lookups|].
    done.
Qed.

(** X5.  A [VirtualMover] relocates an object as the class of the final
    overrider of the relocation method: the new object has that class, a
    base of the dynamic class of the source, and the members that the move
    constructor of that class makes of those of the source, which are those
    of the source when the move constructors are the defaulted ones.  The
    dynamic type is kept exactly when the class of the object declares its
    own override; a class that inherits the method is sliced to the class it
    inherits it from, and where no class declares the method the call is
    undefined. *)
Theorem VirtualMover_relocates_as_final_overrider
    (B : class) (s : state (VirtualMover B)) j k mj o :
  heap s !! j = Some (Container mj (Some o)) →
  heap s !! k = None →
  (∀ X, final_overrider (dyn o) = Some X →
     is_base_of X (dyn o) = true
     ∧ overrides_relocation (decl X) = true
     ∧ ∃ s' dst,
         BoundedPoly_move k j s = Done tt s'
         ∧ get k s' = Done dst s'
         ∧ dyn dst = X
         ∧ fields dst
           = (move_construct X (take (total_fields X) (fields o))).1
         ∧ (moves_memberwise X = true →
            fields dst = take (total_fields X) (fields o))
         ∧ (dyn dst = dyn o ↔ overrides_relocation (decl (dyn o)) = true))
  ∧ (final_overrider (dyn o) = None → BoundedPoly_move k j s = Undefined).
Proof.
  intros Hj Hk. assert (k ≠ j) as Hkj by (intros ->; congruence). split.
  - intros X HX. destruct (final_overrider_spec _ _ HX) as [Hb Ho].
    split; [done|]. split; [done|]. eexists _, _.
    split; [by apply (BoundedPoly_move_done s k j mj o X)|].
    split; [apply get_holds; split; [done|]; eexists; simpl; by lookups|].
    split; [done|]. split; [done|].
    split.
    { intros Hw. simpl. by rewrite move_construct_memberwise, move_members_fst. }
    simpl. rewrite <- final_overrider_self, HX. split; congruence.
  - intros HX. unfold BoundedPoly_move.
    rewrite (bind_done _ _ _ _ _ (this_done _ _ _ Hj)).
    erewrite bind_done; last by apply allocate_done.
    erewrite bind_done; last (apply this_done; simpl; apply lookup_insert_eq).
    apply call_mover_no_target with o; [|done].
    simpl. by rewrite lookup_insert_ne, Hj.
Qed.

(** *** How an operation can fail *)

Create HintDb failures.

Section Failures.
Context {Mover : Type} `{MoverType Mover}.
Variables (Storage : type_info) (Base : class).
Implicit Types (s : state Mover) (m : Mover) (o : object).

Lemma no_failure_bind {A B} (c : M Mover A) (k : A → M Mover B) :
  no_failure c → (∀ a, no_failure (k a)) → no_failure (bind c k).
Proof.
  intros Hc Hk s. unfold bind. specialize (Hc s).
  destruct (c s) as [a s1| | |]; try done. apply Hk.
Qed.

Lemma no_failure_ret {A} (a : A) : no_failure (ret a : M Mover A).
Proof. by intros s. Qed.

Lemma no_failure_undefined {A} : no_failure (undefined : M Mover A).
Proof. by intros s. Qed.

Lemma no_failure_this i : no_failure (this i : M Mover _).
Proof. intros s. unfold this. by destruct (heap s !! i). Qed.

Lemma no_failure_read l : no_failure (read l : M Mover _).
Proof. intros s. unfold read. by destruct (slot_at l s). Qed.

Lemma no_failure_write l x : no_failure (write l x : M Mover _).
Proof. intros s. unfold write. by destruct (slot_at l s). Qed.

Lemma no_failure_emit e : no_failure (emit e : M Mover _).
Proof. by intros s. Qed.

Lemma no_failure_fresh_oid : no_failure (fresh_oid : M Mover _).
Proof. by intros s. Qed.

Lemma no_failure_set_mover i m : no_failure (set_mover i m).
Proof. intros s. unfold set_mover. by destruct (heap s !! i). Qed.

Lemma no_failure_allocate i m : no_failure (allocate i m).
Proof. intros s. unfold allocate. by destruct (heap s !! i). Qed.

Lemma no_failure_deallocate i : no_failure (deallocate i : M Mover _).
Proof. by intros s. Qed.

#[local] Hint Resolve no_failure_ret no_failure_undefined no_failure_this
  no_failure_read no_failure_write no_failure_emit no_failure_fresh_oid
  no_failure_set_mover no_failure_allocate no_failure_deallocate : failures.

Ltac no_failure :=
  repeat first
    [ apply no_failure_bind; [|intros ?]
    | progress auto with failures
    | match goal with |- no_failure (match ?x with _ => _ end) => destruct x end
    | match goal with |- no_failure (if ?b then _ else _) => destruct b end ].













(** [emplace] when the constructor throws: the value is gone. *)
Lemma emplace_throws s i T args m m0 o :
  is_nothrow_constructible args = true →
  made args = None →
  accepts_args Storage Base T args = true →
  bound_mover T = Some m →
  heap s !! i = Some (Container m0 (Some o)) →
  emplace Storage Base i T args s =
    Throws
      (State (<[i := Container (if mover_is_empty Mover then m0 else m) None]>
                (heap s))
         (tmp s) (next_oid s)
         (trace s ++ [EvBind T; EvDestroy (Stored i) (oid o); EvCopyMover i])).
Proof.
  intros Hc Hv Ha Hm Hi. unfold emplace. rewrite Hv.
  rewrite (bind_done _ _ _ _ _ (static_assert_done _ _ Ha)).
  rewrite (bind_done _ _ _ _ _ (static_assert_done _ _ Hc)).
  rewrite (bind_done _ _ _ _ _ (this_done _ _ _ Hi)).
  rewrite (bind_done _ _ _ _ _ (MoverStorage_witness_done _ _ _ Hm)).
  erewrite bind_done; last by eapply destroy_stored.
  erewrite bind_done;
    last (eapply copy_mover_done; simpl; apply lookup_insert_eq).
  unfold throw; simpl. by rewrite insert_insert_eq, <- !app_assoc.
Qed.


Lemma rejected s op :
  asserted Storage Base op = false →
  perform Storage Base op s = IllFormed.
Proof.
  destruct op as [i T v|i T args|i j|i T v|i j|i T args|i j|i]; simpl;
    try done; intros Ha.
  - unfold BoundedPoly_value, bind, static_assert. by rewrite Ha.
  - unfold BoundedPoly_in_place, bind, static_assert.
    destruct (is_constructible args); [|done]. simpl in Ha. by rewrite Ha.
  - unfold assign_value, bind, static_assert. by rewrite Ha.
  - unfold emplace, bind, static_assert.
    destruct (accepts_args Storage Base T args); [|done]. simpl in Ha.
    by rewrite Ha.
Qed.

End Failures.



(** *** When an operation is defined *)

Section Defined.
Context {Mover : Type} `{EmptyMoverUnique Mover}.
Variables (Storage : type_info) (Base : class).
Implicit Types (s : state Mover) (m : Mover) (o : object).

Lemma defined_runs s op :
  invariant s →
  well_formed Storage Base op →
  completes op →
  defined s op →
  ∃ s', perform Storage Base op s = Done tt s'.
Proof.
  intros [Htmp Hsound] Hop Hcall Hdef.
  destruct op as [i T v|i T args|i j|i T v|i j|i T args|i j|i]; simpl in *.
  - destruct Hop as (Ha & m & Hm & _). eexists.
    by apply (BoundedPoly_value_done Storage Base s i T v m).
  - destruct Hcall as [Hc [v Hv]]. destruct (Hop v Hv) as (Ha & m & Hm & _).
    eexists. by apply (BoundedPoly_in_place_done Storage Base s i T args v m).
  - destruct Hdef as [Hi [cj Hj]].
    destruct (sound_inv _ (Hsound _ _ Hj)) as (mj & oj & -> & Fj & _).
    eexists. by apply (BoundedPoly_move_done s i j mj oj (dyn oj)).
  - destruct Hop as (Ha & m & Hm & _). destruct Hdef as [ci Hi].
    destruct (sound_inv _ (Hsound _ _ Hi)) as (mi & oi & -> & _ & _).
    eexists. by apply (assign_value_done Storage Base s i T v m mi oi).
  - destruct Hdef as (Hij & [ci Hi] & [cj Hj]).
    destruct (sound_inv _ (Hsound _ _ Hi)) as (mi & oi & -> & _ & _).
    destruct (sound_inv _ (Hsound _ _ Hj)) as (mj & oj & -> & Fj & _).
    eexists. apply (assign_move_done s i j mi mj oi oj (dyn oj)); try done.
    by apply fits_current.
  - destruct Hcall as [Hc [v Hv]]. destruct (Hop v Hv) as (Ha & m & Hm & _).
    destruct Hdef as [ci Hi].
    destruct (sound_inv _ (Hsound _ _ Hi)) as (mi & oi & -> & _ & _).
    eexists. by apply (emplace_done Storage Base s i T args v m mi oi).
  - destruct Hdef as ([ci Hi] & [cj Hj]).
    destruct (sound_inv _ (Hsound _ _ Hi)) as (mi & oi & -> & Fi & Ti).
    destruct (sound_inv _ (Hsound _ _ Hj)) as (mj & oj & -> & Fj & Tj).
    eexists. by apply (swap_result s i j mi mj oi oj).
  - destruct Hdef as [ci Hi].
    destruct (sound_inv _ (Hsound _ _ Hi)) as (mi & oi & -> & _ & _).
    eexists. by apply (destructor_done s i mi oi).
Qed.

Lemma not_defined_undefined s op :
  invariant s →
  asserted Storage Base op = true →
  (∀ T, stores op = Some T → is_Some (bound_mover T)) →
  ¬ defined s op →
  perform Storage Base op s = Undefined.
Proof.
  intros [Htmp Hsound] Hop Hb Hdef.
  destruct op as [i T v|i T args|i j|i T v|i j|i T args|i j|i]; simpl in *.
  - destruct (Hb T eq_refl) as [m Hm].
    destruct (heap s !! i) as [c|] eqn:Hi; [|done].
    unfold BoundedPoly_value.
    rewrite (bind_done _ _ _ _ _ (static_assert_done _ _ Hop)).
    rewrite (bind_done _ _ _ _ _ (MoverStorage_witness_done _ _ _ Hm)).
    unfold bind, allocate; simpl. by rewrite Hi.
  - destruct (Hb T eq_refl) as [m Hm].
    apply andb_true_iff in Hop as [Hc Ha].
    destruct (heap s !! i) as [c|] eqn:Hi; [|done].
    unfold BoundedPoly_in_place.
    rewrite (bind_done _ _ _ _ _ (static_assert_done _ _ Hc)).
    rewrite (bind_done _ _ _ _ _ (static_assert_done _ _ Ha)).
    rewrite (bind_done _ _ _ _ _ (MoverStorage_witness_done _ _ _ Hm)).
    unfold bind, allocate; simpl. by rewrite Hi.
  - unfold BoundedPoly_move.
    destruct (heap s !! j) as [cj|] eqn:Hj;
      [|by unfold bind, this; rewrite Hj].
    rewrite (bind_done _ _ _ _ _ (this_done _ _ _ Hj)).
    destruct (heap s !! i) as [ci|] eqn:Hi; [|by destruct Hdef].
    unfold bind, allocate. by rewrite Hi.
  - destruct (heap s !! i) as [c|] eqn:Hi; [by destruct Hdef|].
    unfold assign_value.
    rewrite (bind_done _ _ _ _ _ (static_assert_done _ _ Hop)).
    unfold bind, this. by rewrite Hi.
  - destruct (decide (i = j)) as [->|Hij]; [apply assign_move_never_self|].
    unfold assign_move.
    destruct (heap s !! i) as [ci|] eqn:Hi.
    2: { unfold bind at 1. rewrite destroy_missing; [done|].
         simpl. by rewrite Hi. }
    destruct (sound_inv _ (Hsound _ _ Hi)) as (mi & oi & -> & _ & _).
    erewrite bind_done; last by eapply destroy_stored.
    destruct (heap s !! j) as [cj|] eqn:Hj; [by destruct Hdef|].
    unfold bind, this; simpl. by rewrite lookup_insert_ne, Hj.
  - apply andb_true_iff in Hop as [Ha Hc].
    destruct (heap s !! i) as [c|] eqn:Hi; [by destruct Hdef|].
    unfold emplace.
    rewrite (bind_done _ _ _ _ _ (static_assert_done _ _ Ha)).
    rewrite (bind_done _ _ _ _ _ (static_assert_done _ _ Hc)).
    unfold bind, this. by rewrite Hi.
  - unfold swap. rewrite (bind_done _ _ _ _ _ (write_tmp _ _)).
    destruct (heap s !! i) as [ci|] eqn:Hi;
      [|by unfold bind, this; simpl; rewrite Hi].
    destruct (sound_inv _ (Hsound _ _ Hi)) as (mi & oi & -> & Fi & _).
    erewrite bind_done; last (apply this_done; exact Hi).
    erewrite bind_done; last by eapply call_mover_stored_tmp.
    destruct (decide (i = j)) as [<-|Hij]; [destruct Hdef; by eauto|].
    destruct (heap s !! j) as [cj|] eqn:Hj; [destruct Hdef; by eauto|].
    unfold bind, this; simpl. by rewrite lookup_insert_ne, Hj.
  - destruct (heap s !! i) as [c|] eqn:Hi; [by destruct Hdef|].
    unfold destructor, bind. rewrite destroy_missing; [done|].
    simpl. by rewrite Hi.
Qed.

(** A statement that stores a storable class, through a constructor that its
    member accepts, passes the assertions of the member. *)
Lemma well_formed_asserted op :
  well_formed Storage Base op → completes op →
  asserted Storage Base op = true
  ∧ ∀ T, stores op = Some T → is_Some (bound_mover T).
Proof.
  destruct op as [i T v|i T args|i j|i T v|i j|i T args|i j|i]; simpl;
    intros Hop Hcall; try (split; [done|]; by intros ? [=]).
  - destruct Hop as (Ha & m & Hm & _). split; [done|].
    intros ? [= <-]. by eexists.
  - destruct Hcall as [Hc [v Hv]]. destruct (Hop v Hv) as (Ha & m & Hm & _).
    rewrite (accepts_args_made Storage Base _ _ _ Hv), Hc, Ha.
    split; [done|]. intros ? [= <-]. by eexists.
  - destruct Hop as (Ha & m & Hm & _). split; [done|].
    intros ? [= <-]. by eexists.
  - destruct Hcall as [Hc [v Hv]]. destruct (Hop v Hv) as (Ha & m & Hm & _).
    rewrite (accepts_args_made Storage Base _ _ _ Hv), Hc, Ha.
    split; [done|]. intros ? [= <-]. by eexists.
Qed.

End Defined.

(** X8.  In a store where every container holds a value of the class its
    mover is bound to, a statement that stores a storable class, or stores
    none, and whose constructor call, if it makes one, is of a constructor
    that its member accepts and that returns, runs to its end when its
    operands are what it takes them to be: a free address for the container
    it constructs, containers within their lifetime for those it uses, and
    another container for the one a move assignment assigns from; a
    container may be swapped with itself.  Otherwise its behaviour is
    undefined. *)
Theorem defined_exactly_on_proper_operands
    {Mover : Type} `{EmptyMoverUnique Mover} (Storage : type_info)
    (Base : class) (s : state Mover) op :
  invariant s →
  well_formed Storage Base op →
  completes op →
  (defined s op → ∃ s', perform Storage Base op s = Done tt s')
  ∧ (¬ defined s op → perform Storage Base op s = Undefined).
Proof.
  intros Hs Hop Hcall. split.
  - by apply defined_runs.
  - destruct (well_formed_asserted Storage Base op Hop Hcall) as [Ha Hb].
    by apply not_defined_undefined.
Qed.

(** X9.  A container cannot be move-constructed or move-assigned from
    itself: [BoundedPoly a{std::move(a)}] reads a container that does not
    exist yet and [a = std::move(a)] destroys the value before moving from
    it; both are undefined in every state and with every mover.  It can be
    swapped with itself: where its mover is bound to the class of its value,
    [a.swap(a)] moves the value to the temporary, constructs over the
    moved-from object twice, the second time from the temporary, and destroys
    the temporary; the container keeps its mover and holds the value as the
    move constructor of its class carries it, and three objects were
    constructed for one destructor call. *)
Theorem relocation_onto_itself
    {Mover : Type} `{EmptyMoverUnique Mover} (s : state Mover) (i : nat) :
  BoundedPoly_move i i s = Undefined
  ∧ assign_move i i s = Undefined
  ∧ ∀ m o,
      consistent s i m o →
      ∃ s' o',
        swap i i s = Done tt s'
        ∧ trace s' = trace s ++
            [EvRelocate (Stored i) Tmp (next_oid s) (dyn o);
             EvRelocate (Stored i) (Stored i) (S (next_oid s)) (dyn o);
             EvRelocate Tmp (Stored i) (S (S (next_oid s))) (dyn o);
             EvDestroy Tmp (next_oid s);
             EvSwapMover i i]
        ∧ heap s' = <[i := Container m (Some o')]> (heap s)
        ∧ tmp s' = None
        ∧ oid o' = S (S (next_oid s))
        ∧ observe o' = carried o
        ∧ (moves_memberwise (dyn o) = true → observe o' = observe o).
Proof.
  split; [|split].
  - unfold BoundedPoly_move, bind, this. destruct (heap s !! i) eqn:Hi; [|done].
    unfold allocate. by rewrite Hi.
  - apply assign_move_never_self.
  - intros m o Hc.
    pose proof (swap_result s i i m m o o Hc Hc) as Hrun. simpl in Hrun.
    eexists _, (Object _ (dyn o) (carried o).2). split; [exact Hrun|].
    split; [done|]. split.
    { simpl. rewrite insert_insert_eq. by destruct (mover_is_empty Mover). }
    split; [done|]. split; [done|]. split; [done|].
    intros Hw. exact (carried_memberwise o Hw).
Qed.

(** X10.  An operation that runs to its end leaves every container that is
    not one of its operands as it was: its mover and its value. *)
Theorem other_containers_untouched
    {Mover : Type} `{MoverType Mover} (Storage : type_info) (Base : class)
    op (s s' : state Mover) k :
  perform Storage Base op s = Done tt s' →
  k ∉ operands op →
  heap s' !! k = heap s !! k.
Proof.
  intros Hrun Hk.
  destruct op as [i T v|i T args|i j|i T v|i j|i T args|i j|i]; simpl in *.
  - apply BoundedPoly_value_inv in Hrun as (m & _ & _ & _ & ->); simpl.
    apply lookup_insert_ne. set_solver.
  - apply BoundedPoly_in_place_inv in Hrun
      as (m & v & _ & _ & _ & _ & _ & ->); simpl.
    apply lookup_insert_ne. set_solver.
  - apply BoundedPoly_move_inv in Hrun as (mj & o & X & _ & _ & _ & ->); simpl.
    rewrite !lookup_insert_ne; [done|set_solver..].
  - apply assign_value_inv in Hrun as (m & m0 & o & _ & _ & _ & ->); simpl.
    apply lookup_insert_ne. set_solver.
  - apply assign_move_inv in Hrun
      as (mi & mj & oi & oj & X & _ & _ & _ & _ & ->); simpl.
    rewrite !lookup_insert_ne; [done|set_solver..].
  - apply emplace_inv in Hrun
      as (m & m0 & o & v & _ & _ & _ & _ & _ & ->); simpl.
    apply lookup_insert_ne. set_solver.
  - apply swap_inv in Hrun
      as (ma & mb & oa & ob & X & Y & Z & _ & _ & _ & _ & _ & ->); simpl.
    rewrite !lookup_insert_ne; [done|set_solver..].
  - apply destructor_inv in Hrun as (m & o & _ & ->); simpl.
    apply lookup_delete_ne. set_solver.
Qed.

(** *** Values under relocation *)

Lemma moved_from_whole o :
  has_type (dyn o) (fields o) = true →
  moved_from (dyn o) o
  = Object (oid o) (dyn o) (move_construct (dyn o) (fields o)).2.
Proof.
  unfold has_type, moved_from. intros Hl%bool_decide_eq_true.
  rewrite <- Hl, firstn_all, drop_all. by rewrite app_nil_r.
Qed.

Lemma moved_from_exact o :
  has_type (dyn o) (fields o) = true →
  moves_memberwise (dyn o) = true →
  moved_from (dyn o) o = Object (oid o) (dyn o) (move_members (fields o)).2.
Proof.
  intros Ht Hw. by rewrite moved_from_whole, move_construct_memberwise.
Qed.

Lemma transferred_exact o id :
  has_type (dyn o) (fields o) = true →
  moves_memberwise (dyn o) = true →
  transferred o (moved_from (dyn o) o) (moved_into (dyn o) o id).
Proof.
  intros Ht Hw. rewrite moved_from_exact, moved_into_exact by done.
  unfold transferred; simpl. repeat split. apply owned_moved_from.
Qed.

Section Values.
Context {Mover : Type} `{EmptyMoverUnique Mover}.
Variables (Storage : type_info) (Base : class).
Implicit Types (s : state Mover) (m : Mover) (o : object).

Lemma move_out s k j mj oj :
  consistent s j mj oj →
  heap s !! k = None →
  BoundedPoly_move k j s =
    Done tt
      (State (<[k := Container mj
                       (Some (Object (next_oid s) (dyn oj) (carried oj).2))]>
                (<[j := Container mj (Some (moved_from (dyn oj) oj))]> (heap s)))
         (tmp s) (S (next_oid s))
         (trace s ++ [EvRelocate (Stored j) (Stored k) (next_oid s) (dyn oj)])).
Proof.
  intros (Hj & Fj & Tj) Hk. rewrite <- (moved_into_carried oj) by done.
  by apply BoundedPoly_move_done.
Qed.

Lemma move_over s i j mi mj oi oj :
  i ≠ j →
  heap s !! i = Some (Container mi (Some oi)) →
  consistent s j mj oj →
  assign_move i j s =
    Done tt
      (State (<[i := Container (if mover_is_empty Mover then mi else mj)
                       (Some (Object (next_oid s) (dyn oj) (carried oj).2))]>
                (<[j := Container mj (Some (moved_from (dyn oj) oj))]> (heap s)))
         (tmp s) (S (next_oid s))
         (trace s ++ [EvDestroy (Stored i) (oid oi); EvCopyMover i;
                      EvRelocate (Stored j) (Stored i) (next_oid s) (dyn oj)])).
Proof.
  intros Hij Hi (Hj & Fj & Tj). rewrite <- (moved_into_carried oj) by done.
  apply assign_move_done; try done. by apply fits_current.
Qed.

End Values.

(** X11.  What is stored is read back.  After construction in place at a
    free address and after an [emplace] on a container that holds a value,
    [get] returns an object of the class stored with the members that the
    constructor made.  After an assignment from a value it returns an object
    of the class stored with the members that the move constructor of the
    class makes of those of the value: the very members, when the move
    constructors are the defaulted ones.  The assignment and [emplace]
    destroy the value they replace, no other, and a mover with state is the
    one derived for the class stored. *)
Theorem stored_value_is_read_back
    {Mover : Type} `{MoverType Mover} (Storage : type_info) (Base : class)
    (s : state Mover) i T v args m :
  accepts Storage Base T v = true →
  made args = Some v →
  bound_mover T = Some m →
  (is_constructible args = true →
   heap s !! i = None →
   ∃ s' o, BoundedPoly_in_place Storage Base i T args s = Done tt s'
           ∧ get i s' = Done o s'
           ∧ observe o = (T, v))
  ∧ (∀ m0 o0, heap s !! i = Some (Container m0 (Some o0)) →
       ∃ s1 o1,
         assign_value Storage Base i T v s = Done tt s1
         ∧ get i s1 = Done o1 s1
         ∧ dyn o1 = T
         ∧ fields o1 = (move_construct T v).1
         ∧ (moves_memberwise T = true → observe o1 = (T, v))
         ∧ destroyed (trace s1) = destroyed (trace s) ++ [oid o0]
         ∧ (mover_is_empty Mover = false →
            mover_ <$> heap s1 !! i = Some m))
  ∧ (is_nothrow_constructible args = true →
     ∀ m0 o0, heap s !! i = Some (Container m0 (Some o0)) →
       ∃ s2 o2,
         emplace Storage Base i T args s = Done tt s2
         ∧ get i s2 = Done o2 s2
         ∧ observe o2 = (T, v)
         ∧ destroyed (trace s2) = destroyed (trace s) ++ [oid o0]
         ∧ (mover_is_empty Mover = false →
            mover_ <$> heap s2 !! i = Some m)).
Proof.
  intros Ha Hv Hm. split; [|split].
  - intros Hc Hi. eexists _, _.
    split; [by apply (BoundedPoly_in_place_done Storage Base s i T args v m)|].
    split; [apply get_holds; split; [done|]; eexists; simpl; by lookups|].
    done.
  - intros m0 o0 Hi. eexists _, _.
    split; [by apply (assign_value_done Storage Base s i T v m m0 o0)|]. simpl.
    split; [apply get_holds; split; [done|]; eexists; simpl; by lookups|].
    split; [done|]. split; [done|].
    split.
    { intros Hw. unfold observe; simpl. f_equal.
      by rewrite move_construct_memberwise, move_members_fst. }
    rewrite !destroyed_app. split; [done|]. intros ->. by lookups.
  - intros Hc m0 o0 Hi. eexists _, _.
    split; [by apply (emplace_done Storage Base s i T args v m m0 o0)|]. simpl.
    split; [apply get_holds; split; [done|]; eexists; simpl; by lookups|].
    split; [done|].
    rewrite !destroyed_app. split; [done|]. intros ->. by lookups.
Qed.

(** X12.  Moving out of a container whose mover is bound to the class of its
    value: the container move-constructed from it, and the container
    move-assigned from it, hold an object of the same dynamic type with the
    value as the move constructor of the class carries it, and the source
    keeps its object, its dynamic type and its mover, with the members the
    move constructor leaves it.  When the move constructors are the
    defaulted ones the value is transferred: the destination has the members
    of the source, and the source has every owning pointer null and every
    scalar as it was, so that what the value owned has exactly one owner
    afterwards.  A move assignment first destroys the value it replaces. *)
Theorem relocation_transfers_value_and_ownership
    {Mover : Type} `{EmptyMoverUnique Mover} (s : state Mover)
    i j mi mj oi oj :
  i ≠ j →
  consistent s i mi oi →
  consistent s j mj oj →
  (∀ k, heap s !! k = None →
     ∃ s' src dst,
       BoundedPoly_move k j s = Done tt s'
       ∧ heap s' !! j = Some (Container mj (Some src))
       ∧ get k s' = Done dst s'
       ∧ observe dst = carried oj
       ∧ oid src = oid oj ∧ dyn src = dyn oj
       ∧ fields src = (move_construct (dyn oj) (fields oj)).2
       ∧ (moves_memberwise (dyn oj) = true → transferred oj src dst))
  ∧ (∃ s' src dst,
       assign_move i j s = Done tt s'
       ∧ heap s' !! j = Some (Container mj (Some src))
       ∧ get i s' = Done dst s'
       ∧ observe dst = carried oj
       ∧ oid src = oid oj ∧ dyn src = dyn oj
       ∧ fields src = (move_construct (dyn oj) (fields oj)).2
       ∧ (moves_memberwise (dyn oj) = true → transferred oj src dst)
       ∧ destroyed (trace s') = destroyed (trace s) ++ [oid oi]).
Proof.
  intros Hij Ci Cj. pose proof Cj as (Hj & Fj & Tj).
  assert (∀ id, moves_memberwise (dyn oj) = true →
            transferred oj (moved_from (dyn oj) oj)
              (Object id (dyn oj) (carried oj).2)) as Htr.
  { intros id Hw. rewrite <- (moved_into_carried oj) by done.
    by apply transferred_exact. }
  split.
  - intros k Hk. assert (k ≠ j) by (intros ->; congruence).
    eexists _, _, _. split; [by apply move_out|]. simpl.
    split; [by lookups|].
    split; [apply get_holds; split; [done|]; eexists; simpl; by lookups|].
    split; [done|]. rewrite (moved_from_whole oj) by done.
    split; [done|]. split; [done|]. split; [done|].
    rewrite <- (moved_from_whole oj) by done. apply Htr.
  - destruct Ci as (Hi & _ & _).
    eexists _, _, _. split; [by eapply move_over|]. simpl.
    split; [by lookups|].
    split; [apply get_holds; split; [done|]; eexists; simpl; by lookups|].
    split; [done|]. rewrite (moved_from_whole oj) by done.
    split; [done|]. split; [done|]. split; [done|].
    split; [rewrite <- (moved_from_whole oj) by done; apply Htr|].
    by rewrite destroyed_app.
Qed.

(** X13.  Moving a value out of a container into a new one and moving it
    back: the container has its mover and holds an object of the dynamic
    type it held, with the value as the move constructor of the class
    carries it, and the other container is left with a moved-from object of
    that type.  When the move constructors are the defaulted ones the value
    is restored, members and all, and the moved-from object owns nothing. *)
Theorem moving_out_and_back_restores
    {Mover : Type} `{EmptyMoverUnique Mover} (Storage : type_info)
    (Base : class) (s : state Mover) j k mj oj :
  consistent s j mj oj →
  heap s !! k = None →
  ∃ s' o src,
    run Storage Base [MoveConstruct k j; AssignMove j k] s = Done tt s'
    ∧ heap s' !! j = Some (Container mj (Some o))
    ∧ observe o = carried oj
    ∧ heap s' !! k = Some (Container mj (Some src))
    ∧ dyn src = dyn oj
    ∧ (moves_memberwise (dyn oj) = true →
       observe o = observe oj ∧ owned (fields src) = []).
Proof.
  intros Cj Hk. pose proof Cj as (Hj & Fj & Tj).
  assert (k ≠ j) as Hkj by (intros ->; congruence).
  pose proof (move_out s k j mj oj Cj Hk) as H1.
  set (ok := Object (next_oid s) (dyn oj) (carried oj).2) in H1.
  set (s1 := State _ _ _ _) in H1.
  assert (has_type (dyn ok) (fields ok) = true) as Tk
    by (by apply has_type_moved).
  assert (consistent s1 k mj ok) as Ck.
  { split; [simpl; by lookups|]. by split. }
  assert (heap s1 !! j = Some (Container mj (Some (moved_from (dyn oj) oj))))
    as Hj1 by (simpl; by lookups).
  pose proof (move_over s1 j k mj mj _ ok ltac:(done) Hj1 Ck) as H2.
  unfold ok in H2 at 2. rewrite (carried_carried oj) in H2.
  exists (State
            (<[j := Container (if mover_is_empty Mover then mj else mj)
                      (Some (Object (next_oid s1) (dyn oj) (carried oj).2))]>
               (<[k := Container mj (Some (moved_from (dyn ok) ok))]>
                  (heap s1)))
            (tmp s1) (S (next_oid s1))
            (trace s1 ++
               [EvDestroy (Stored j) (oid (moved_from (dyn oj) oj));
                EvCopyMover j;
                EvRelocate (Stored k) (Stored j) (next_oid s1) (dyn oj)])),
    (Object (next_oid s1) (dyn oj) (carried oj).2), (moved_from (dyn oj) ok).
  split.
  { erewrite run_cons; last exact H1.
    erewrite run_cons; [reflexivity|]. exact H2. }
  split; [simpl; lookups; by destruct (mover_is_empty Mover)|].
  split; [done|]. split; [simpl; by lookups|]. split; [done|].
  intros Hw. split; [exact (carried_memberwise oj Hw)|].
  rewrite (moved_from_exact ok Tk Hw : moved_from (dyn oj) ok = _).
  apply owned_moved_from.
Qed.

(** X14.  [a.swap(b)] and [b.swap(a)] have the same result: after either,
    each container has the same mover and holds an object with the same
    dynamic type and members as after the other. *)
Theorem swap_is_symmetric
    {Mover : Type} `{EmptyMoverUnique Mover} (s : state Mover)
    i j ma mb oa ob :
  i ≠ j →
  consistent s i ma oa →
  consistent s j mb ob →
  ∃ s1 s2,
    swap i j s = Done tt s1
    ∧ swap j i s = Done tt s2
    ∧ tmp s1 = tmp s2
    ∧ ∀ k, mover_ <$> heap s1 !! k = mover_ <$> heap s2 !! k
           ∧ observe <$> (heap s1 !! k ≫= storage_)
             = observe <$> (heap s2 !! k ≫= storage_).
Proof.
  intros Hij Ca Cb. eexists _, _.
  split; [by apply (swap_result s i j ma mb oa ob)|].
  split; [by apply (swap_result s j i mb ma ob oa)|]. simpl.
  split; [done|]. intros k.
  destruct (decide (i = k)) as [<-|]; [by lookups|].
  destruct (decide (j = k)) as [<-|]; by lookups.
Qed.

(** X15.  A container constructed at a free address, from a value or in
    place, and destroyed at once leaves the store as it was: the address is
    free again, every other container is untouched, and the one object that
    was constructed is the one that was destroyed. *)
Theorem construct_then_destroy_restores
    {Mover : Type} `{MoverType Mover} (Storage : type_info) (Base : class)
    (s : state Mover) i T v args :
  accepts Storage Base T v = true →
  is_constructible args = true →
  made args = Some v →
  is_Some (bound_mover T) →
  heap s !! i = None →
  ∃ s1 s2,
    run Storage Base [Construct i T v; Destruct i] s = Done tt s1
    ∧ run Storage Base [InPlace i T args; Destruct i] s = Done tt s2
    ∧ heap s1 = heap s ∧ heap s2 = heap s
    ∧ tmp s1 = tmp s ∧ tmp s2 = tmp s
    ∧ trace s1 = trace s ++ [EvBind T; EvNew (Stored i) (next_oid s) T;
                             EvDestroy (Stored i) (next_oid s)]
    ∧ trace s2 = trace s1.
Proof.
  intros Ha Hc Hv [m Hm] Hi. eexists _, _.
  split.
  { erewrite run_cons;
      last by apply (BoundedPoly_value_done Storage Base s i T v m).
    erewrite run_cons; [done|]. simpl.
    eapply destructor_done. simpl. apply lookup_insert_eq. }
  split.
  { erewrite run_cons;
      last by apply (BoundedPoly_in_place_done Storage Base s i T args v m).
    erewrite run_cons; [done|]. simpl.
    eapply destructor_done. simpl. apply lookup_insert_eq. }
  simpl. rewrite !delete_insert_eq, !delete_id by done.
  by rewrite <- !app_assoc.
Qed.

(** *** The books of a store *)

Lemma constructed_app t1 t2 :
  constructed (t1 ++ t2) = constructed t1 ++ constructed t2.
Proof. apply omap_app. Qed.

Lemma mover_swaps_app t1 t2 :
  mover_swaps (t1 ++ t2) = mover_swaps t1 + mover_swaps t2.
Proof. unfold mover_swaps. by rewrite omap_app, length_app. Qed.

Lemma swaps_cons op ops : swaps (op :: ops) = swaps [op] + swaps ops.
Proof. unfold swaps. by destruct op. Qed.

Section Ledger.
Context {Mover : Type} `{MoverType Mover}.
Variables (Storage : type_info) (Base : class).
Implicit Types (s : state Mover) (m : Mover) (o : object).

Lemma ledger_initial : ledger (initial (Mover := Mover)).
Proof.
  unfold ledger, initial, holds; simpl.
  split; [done|]. split; [by intros i c; rewrite lookup_empty|].
  split; [done|]. split; [apply NoDup_nil_2|].
  split; [by intros id Hid%elem_of_nil|].
  split; [by intros i o [m Hm]; rewrite lookup_empty in Hm|].
  split; [by intros i j o o' [m Hm]; rewrite lookup_empty in Hm|].
  by rewrite map_size_empty.
Qed.

Lemma ledger_update s h' x n' k tr (home : nat → nat) :
  ledger s →
  x = None →
  n' = next_oid s + k →
  constructed tr = seq (next_oid s) k →
  NoDup (destroyed tr) →
  (∀ id, id ∈ destroyed tr → id < n' ∧ id ∉ destroyed (trace s)) →
  (∀ i c, h' !! i = Some c → is_Some (storage_ c)) →
  (∀ i m o, h' !! i = Some (Container m (Some o)) →
     (oid o ∉ destroyed tr)
     ∧ ((∃ o', holds s i o' ∧ oid o' = oid o)
        ∨ (next_oid s ≤ oid o < n' ∧ i = home (oid o)))) →
  k + size (heap s) = length (destroyed tr) + size h' + 2 * mover_swaps tr →
  ledger (State h' x n' (trace s ++ tr)).
Proof.
  intros (Htmp & Hfull & Hc & Hnd & Hlt & Hlive & Hinj & Hcount)
    -> -> Hctr Hndtr Hds Hfull' Hkeep Hsize.
  unfold ledger; simpl.
  rewrite constructed_app, destroyed_app, mover_swaps_app, length_app.
  split; [done|]. split; [done|]. split.
  { rewrite Hc, Hctr. by rewrite seq_app. }
  split.
  { apply NoDup_app. split; [done|]. split; [|done].
    intros id Hid Hid'. by destruct (Hds id Hid'). }
  split.
  { intros id [Hid|Hid]%elem_of_app.
    - specialize (Hlt id Hid). lia.
    - by destruct (Hds id Hid). }
  split.
  { intros i o [m Hi].
    destruct (Hkeep i m o Hi) as [Hnot [(o' & Ho' & Heq)|[Hnew _]]].
    - destruct (Hlive i o' Ho') as [Hlo Hnd']. rewrite <- Heq. split; [lia|].
      intros [Hid|Hid]%elem_of_app; [done|]. by rewrite Heq in Hid.
    - split; [lia|]. intros [Hid|Hid]%elem_of_app; [|done].
      specialize (Hlt _ Hid). lia. }
  split; [|lia].
  intros i j o o' [m Hi] [m' Hj] Heq.
  destruct (Hkeep i m o Hi) as [_ [(o1 & Ho1 & Heq1)|[Hnew ->]]];
    destruct (Hkeep j m' o' Hj) as [_ [(o2 & Ho2 & Heq2)|[Hnew' ->]]].
  - apply (Hinj i j o1 o2 Ho1 Ho2). congruence.
  - destruct (Hlive i o1 Ho1). lia.
  - destruct (Hlive j o2 Ho2). lia.
  - by rewrite Heq.
Qed.

Ltac key_cases Hk :=
  repeat match type of Hk with
  | <[?a := _]> _ !! ?k = _ =>
      destruct (decide (a = k)) as [<-|?];
      [rewrite lookup_insert_eq in Hk | rewrite lookup_insert_ne in Hk by done]
  | delete ?a _ !! ?k = _ =>
      destruct (decide (a = k)) as [<-|?];
      [rewrite lookup_delete_eq in Hk | rewrite lookup_delete_ne in Hk by done]
  end.

Lemma size_delete_found {A} (h : gmap nat A) i c :
  h !! i = Some c → size h = S (size (delete i h)).
Proof.
  intros Hi. rewrite <- (insert_delete_id h i c Hi) at 1.
  rewrite map_size_insert_None; [done|]. apply lookup_delete_eq.
Qed.

Lemma ledger_step s op s' :
  ledger s →
  perform Storage Base op s = Done tt s' →
  ledger s'.
Proof.
  intros L Hrun.
  pose proof L as (Htmp & Hfull & Hc & Hnd & Hlt & Hlive & Hinj & Hcount).
  destruct op as [i T v|i T args|i j|i T v|i j|i T args|i j|i];
    simpl in Hrun.
  - (* Construct *)
    apply BoundedPoly_value_inv in Hrun as (m & Ha & Hb & Hi & ->).
    apply (ledger_update s _ _ _ 1 _ (λ _, i)); try done; try lia.
    + apply NoDup_nil_2.
    + by intros id Hid%elem_of_nil.
    + intros k c Hk. key_cases Hk; [by injection Hk as <-|by eapply Hfull].
    + intros k m' o Hk. split; [by intros Hid%elem_of_nil|].
      key_cases Hk.
      * injection Hk as <- <-. right. simpl. lia.
      * left. exists o. split; [by exists m'|done].
    + simpl. rewrite map_size_insert_None by done. lia.
  - (* InPlace *)
    apply BoundedPoly_in_place_inv in Hrun
      as (m & v & _ & _ & Ha & Hb & Hi & ->).
    apply (ledger_update s _ _ _ 1 _ (λ _, i)); try done; try lia.
    + apply NoDup_nil_2.
    + by intros id Hid%elem_of_nil.
    + intros k c Hk. key_cases Hk; [by injection Hk as <-|by eapply Hfull].
    + intros k m' o Hk. split; [by intros Hid%elem_of_nil|].
      key_cases Hk.
      * injection Hk as <- <-. right. simpl. lia.
      * left. exists o. split; [by exists m'|done].
    + simpl. rewrite map_size_insert_None by done. lia.
  - (* MoveConstruct *)
    apply BoundedPoly_move_inv in Hrun as (mj & o & X & Hi & Hj & HX & ->).
    assert (i ≠ j) as Hij by (intros ->; congruence).
    apply (ledger_update s _ _ _ 1 _ (λ _, i)); try done; try lia.
    + apply NoDup_nil_2.
    + by intros id Hid%elem_of_nil.
    + intros k c Hk. key_cases Hk; try (by injection Hk as <-). by eapply Hfull.
    + intros k m' o' Hk. split; [by intros Hid%elem_of_nil|].
      key_cases Hk.
      * injection Hk as <- <-. right. simpl. lia.
      * injection Hk as <- <-. left. exists o. split; [by exists mj|done].
      * left. exists o'. split; [by exists m'|done].
    + simpl. rewrite map_size_insert_None by (by rewrite lookup_insert_ne).
      rewrite map_size_insert_Some by (by rewrite Hj). lia.
  - (* Assign *)
    apply assign_value_inv in Hrun as (m & m0 & o & Ha & Hb & Hi & ->).
    destruct (Hlive i o (ex_intro _ m0 Hi)) as [Hlo Hnot].
    apply (ledger_update s _ _ _ 1 _ (λ _, i)); try done; try lia.
    + apply NoDup_singleton.
    + simpl. intros id ->%list_elem_of_singleton. split; [lia|done].
    + intros k c Hk. key_cases Hk; [by injection Hk as <-|by eapply Hfull].
    + intros k m' o' Hk. simpl. rewrite list_elem_of_singleton.
      key_cases Hk.
      * injection Hk as <- <-. simpl. split; [lia|]. right. lia.
      * split.
        { intros Heq. apply n.
          apply (Hinj i k o o'); [by exists m0|by exists m'|done]. }
        left. exists o'. split; [by exists m'|done].
    + simpl. rewrite map_size_insert_Some by (by rewrite Hi). lia.
  - (* AssignMove *)
    apply assign_move_inv in Hrun
      as (mi & mj & oi & oj & X & Hij & Hi & Hj & HX & ->).
    destruct (Hlive i oi (ex_intro _ mi Hi)) as [Hlo Hnot].
    apply (ledger_update s _ _ _ 1 _ (λ _, i)); try done; try lia.
    + apply NoDup_singleton.
    + simpl. intros id ->%list_elem_of_singleton. split; [lia|done].
    + intros k c Hk. key_cases Hk; try (by injection Hk as <-). by eapply Hfull.
    + intros k m' o' Hk. simpl. rewrite list_elem_of_singleton.
      key_cases Hk.
      * injection Hk as <- <-. simpl. split; [lia|]. right. lia.
      * injection Hk as <- <-. simpl. split.
        { intros Heq. apply Hij.
          apply (Hinj i j oi oj); [by exists mi|by exists mj|done]. }
        left. exists oj. split; [by exists mj|done].
      * split.
        { intros Heq. apply n.
          apply (Hinj i k oi o'); [by exists mi|by exists m'|done]. }
        left. exists o'. split; [by exists m'|done].
    + simpl. rewrite map_size_insert_Some by (by rewrite lookup_insert_ne, Hi).
      rewrite map_size_insert_Some by (by rewrite Hj). lia.
  - (* Emplace *)
    apply emplace_inv in Hrun
      as (m & m0 & o & v & _ & _ & Ha & Hb & Hi & ->).
    destruct (Hlive i o (ex_intro _ m0 Hi)) as [Hlo Hnot].
    apply (ledger_update s _ _ _ 1 _ (λ _, i)); try done; try lia.
    + apply NoDup_singleton.
    + simpl. intros id ->%list_elem_of_singleton. split; [lia|done].
    + intros k c Hk. key_cases Hk; [by injection Hk as <-|by eapply Hfull].
    + intros k m' o' Hk. simpl. rewrite list_elem_of_singleton.
      key_cases Hk.
      * injection Hk as <- <-. simpl. split; [lia|]. right. lia.
      * split.
        { intros Heq. apply n.
          apply (Hinj i k o o'); [by exists m0|by exists m'|done]. }
        left. exists o'. split; [by exists m'|done].
    + simpl. rewrite map_size_insert_Some by (by rewrite Hi). lia.
  - (* Swap *)
    apply swap_inv in Hrun
      as (ma & mb & oa & ob & X & Y & Z & Hi & Hj & HX & HY & HZ & ->).
    apply (ledger_update s _ _ _ 3 _
             (λ id, if decide (id = S (next_oid s)) then i else j));
      try done; try lia.
    + apply NoDup_singleton.
    + simpl. intros id ->%list_elem_of_singleton. split; [lia|].
      intros Hid. specialize (Hlt _ Hid). lia.
    + intros k c Hk. key_cases Hk; try (by injection Hk as <-). by eapply Hfull.
    + intros k m' o' Hk. simpl. rewrite list_elem_of_singleton.
      key_cases Hk.
      * injection Hk as <- <-. simpl. split; [lia|]. right.
        split; [lia|]. by rewrite decide_False by lia.
      * injection Hk as <- <-. simpl. split; [lia|]. right.
        split; [lia|]. by rewrite decide_True.
      * destruct (Hlive k o' (ex_intro _ m' Hk)). split; [lia|].
        left. exists o'. split; [by exists m'|done].
    + simpl. rewrite map_size_insert_Some.
      2: { destruct (decide (i = j)) as [<-|];
             [by rewrite lookup_insert_eq|by rewrite lookup_insert_ne, Hj]. }
      rewrite map_size_insert_Some by (by rewrite Hi). lia.
  - (* Destruct *)
    apply destructor_inv in Hrun as (m & o & Hi & ->).
    destruct (Hlive i o (ex_intro _ m Hi)) as [Hlo Hnot].
    apply (ledger_update s _ _ _ 0 _ (λ _, i)); try done; try lia.
    + apply NoDup_singleton.
    + simpl. intros id ->%list_elem_of_singleton. split; [lia|done].
    + intros k c Hk. key_cases Hk; [done|by eapply Hfull].
    + intros k m' o' Hk. simpl. rewrite list_elem_of_singleton.
      key_cases Hk; [done|].
      split.
      { intros Heq. apply n.
        apply (Hinj i k o o'); [by exists m|by exists m'|done]. }
      left. exists o'. split; [by exists m'|done].
    + simpl. rewrite (size_delete_found _ _ _ Hi). lia.
Qed.

Lemma ledger_reachable s : reachable Storage Base s → ledger s.
Proof.
  induction 1 as [|s op s' _ IH Hrun]; [apply ledger_initial|].
  by eapply ledger_step.
Qed.

Lemma trace_swaps ops : ∀ s s',
  run Storage Base ops s = Done tt s' →
  mover_swaps (trace s') = mover_swaps (trace s) + swaps ops.
Proof.
  induction ops as [|op ops IH]; intros s s'; simpl.
  - intros [= <-]. unfold swaps; simpl. lia.
  - unfold bind. destruct (perform Storage Base op s) as [[] s1| | |] eqn:Hop;
      try done.
    intros Hrest. rewrite (IH _ _ Hrest).
    destruct op as [i T v|i T args|i j|i T v|i j|i T args|i j|i];
      simpl in Hop.
    + apply BoundedPoly_value_inv in Hop as (m & _ & _ & _ & ->); simpl.
      rewrite mover_swaps_app, (swaps_cons _ ops).
      set (w := mover_swaps (_ :: _)). cbv in w. subst w. simpl. lia.
    + apply BoundedPoly_in_place_inv in Hop
        as (m & v & _ & _ & _ & _ & _ & ->); simpl.
      rewrite mover_swaps_app, (swaps_cons _ ops).
      set (w := mover_swaps (_ :: _)). cbv in w. subst w. simpl. lia.
    + apply BoundedPoly_move_inv in Hop as (mj & o & X & _ & _ & _ & ->); simpl.
      rewrite mover_swaps_app, (swaps_cons _ ops).
      set (w := mover_swaps (_ :: _)). cbv in w. subst w. simpl. lia.
    + apply assign_value_inv in Hop as (m & m0 & o & _ & _ & _ & ->); simpl.
      rewrite mover_swaps_app, (swaps_cons _ ops).
      set (w := mover_swaps (_ :: _)). cbv in w. subst w. simpl. lia.
    + apply assign_move_inv in Hop
        as (mi & mj & oi & oj & X & _ & _ & _ & _ & ->); simpl.
      rewrite mover_swaps_app, (swaps_cons _ ops).
      set (w := mover_swaps (_ :: _)). cbv in w. subst w. simpl. lia.
    + apply emplace_inv in Hop
        as (m & m0 & o & v & _ & _ & _ & _ & _ & ->); simpl.
      rewrite mover_swaps_app, (swaps_cons _ ops).
      set (w := mover_swaps (_ :: _)). cbv in w. subst w. simpl. lia.
    + apply swap_inv in Hop
        as (ma & mb & oa & ob & X & Y & Z & _ & _ & _ & _ & _ & ->); simpl.
      rewrite mover_swaps_app, (swaps_cons _ ops).
      set (w := mover_swaps (_ :: _)). cbv in w. subst w. simpl. lia.
    + apply destructor_inv in Hop as (m & o & _ & ->); simpl.
      rewrite mover_swaps_app, (swaps_cons _ ops).
      set (w := mover_swaps (_ :: _)). cbv in w. subst w. simpl. lia.
Qed.

End Ledger.

(** X16.  In every state that a program reaches from the empty store, with
    any mover type: no temporary of [swap] is left; [get], [operator*] and
    [operator->] on a container return one and the same object and change
    nothing; two containers never hold the same object; an object that
    [get] returns was constructed and its destructor has not run; no object
    was constructed twice or destroyed twice; and only objects that were
    constructed were destroyed. *)
Theorem lifetimes_in_reachable_states
    {Mover : Type} `{MoverType Mover} (Storage : type_info) (Base : class)
    (s : state Mover) :
  reachable Storage Base s →
  tmp s = None
  ∧ (∀ i, is_Some (heap s !! i) →
       ∃ o, get i s = Done o s ∧ deref i s = Done o s ∧ arrow i s = Done o s)
  ∧ (∀ i j o o',
       get i s = Done o s → get j s = Done o' s → oid o = oid o' → i = j)
  ∧ (∀ i o, get i s = Done o s →
       oid o ∈ constructed (trace s) ∧ oid o ∉ destroyed (trace s))
  ∧ NoDup (constructed (trace s))
  ∧ NoDup (destroyed (trace s))
  ∧ destroyed (trace s) ⊆ constructed (trace s).
Proof.
  intros (Htmp & Hfull & Hc & Hnd & Hlt & Hlive & Hinj & _)%ledger_reachable.
  split; [done|]. split.
  { intros i [c Hi]. destruct (get_full s i c Hi) as [o Ho]; [by apply (Hfull i)|].
    by exists o. }
  split.
  { intros i j o o' [_ Ho]%get_holds [_ Ho']%get_holds. by apply Hinj. }
  split.
  { intros i o [_ Ho]%get_holds. destruct (Hlive i o Ho) as [Hlo Hnot].
    split; [|done]. rewrite Hc. apply elem_of_seq. lia. }
  split; [rewrite Hc; apply NoDup_seq|]. split; [done|].
  intros id Hid. rewrite Hc. apply elem_of_seq. specialize (Hlt id Hid). lia.
Qed.

(** X17.  Of the objects a program constructs, each one is destroyed by a
    destructor call or held by a container at the end, except two for every
    [swap]; and a [swap] constructs three objects, in the temporary, in this
    container and in the other, and calls one destructor, on the temporary:
    the moved-from objects in the two containers are overwritten, not
    destroyed.  When the two containers are one, the two objects are
    constructed in it one after the other. *)
Theorem swap_overwrites_without_destroying
    {Mover : Type} `{MoverType Mover} (Storage : type_info) (Base : class) :
  (∀ ops (s : state Mover),
     run Storage Base ops initial = Done tt s →
     length (constructed (trace s))
     = length (destroyed (trace s)) + size (heap s) + 2 * swaps ops)
  ∧ (∀ (s s' : state Mover) i j,
       swap i j s = Done tt s' →
       ∃ t a b c,
         trace s' = trace s ++ t
         ∧ constructed_at Tmp t = [a]
         ∧ constructed_at (Stored i) t = (if decide (i = j) then [b; c] else [b])
         ∧ constructed_at (Stored j) t = (if decide (i = j) then [b; c] else [c])
         ∧ (i ≠ j →
            constructed_at (Stored i) t = [b]
            ∧ constructed_at (Stored j) t = [c])
         ∧ constructed t = [a; b; c]
         ∧ destroyed t = [a]
         ∧ destroyed_at (Stored i) t = []
         ∧ destroyed_at (Stored j) t = []).
Proof.
  split.
  - intros ops s Hrun.
    assert (ledger s) as (_ & _ & Hc & _ & _ & _ & _ & Hcount).
    { apply (ledger_reachable Storage Base).
      apply (reachable_run Storage Base ops initial); [constructor|done]. }
    rewrite Hc, length_seq, Hcount.
    by rewrite (trace_swaps Storage Base ops _ _ Hrun).
  - intros s s' i j
      (ma & mb & oa & ob & X & Y & Z & _ & _ & _ & _ & _ & ->)%swap_inv.
    eexists _, (next_oid s), (S (next_oid s)), (S (S (next_oid s))).
    split; [done|]. simpl.
    destruct (decide (i = j)) as [<-|Hij].
    + repeat first [ rewrite decide_True by done
                   | rewrite decide_False by congruence ].
      repeat split; done.
    + repeat first [ rewrite decide_True by done
                   | rewrite decide_False by congruence ].
      repeat split; done.
Qed.

(** *** The pipeline of the benchmark *)

Section OnBenchmark.
Import Benchmark.
Implicit Types (s : state (VirtualMover IUnaryOp)) (rs : list Z).

Lemma selected_accepts i r :
  accepts (Mover := VirtualMover IUnaryOp) Storage IUnaryOp (selected i)
    [plain r] = true.
Proof. unfold selected. by destruct (i mod 3) as [|[|]]. Qed.

Lemma selected_overrides i : final_overrider (selected i) = Some (selected i).
Proof. unfold selected. by destruct (i mod 3) as [|[|]]. Qed.

Lemma selected_type i r : has_type (selected i) [plain r] = true.
Proof. unfold selected. by destruct (i mod 3) as [|[|]]. Qed.

Lemma selected_memberwise i : moves_memberwise (selected i) = true.
Proof. unfold selected. by destruct (i mod 3) as [|[|]]. Qed.

Lemma selected_moved i r : (move_construct (selected i) [plain r]).1 = [plain r].
Proof.
  by rewrite move_construct_memberwise by apply selected_memberwise.
Qed.

Lemma apply_selected i id r lhs :
  apply (Object id (selected i) [plain r]) lhs
  = visit (push_back_variant i r) lhs.
Proof.
  unfold selected, push_back_variant.
  by destruct (i mod 3) as [|[|]].
Qed.

Lemma push_back_done s i r :
  heap s !! 0 = None →
  heap s !! S i = None →
  ∃ t,
    run Storage IUnaryOp (push_back i r) s
    = Done tt
        (State (<[S i := Container VirtualMover_value
                           (Some (Object (S (next_oid s)) (selected i)
                                    [plain r]))]> (heap s))
           (tmp s) (S (S (next_oid s))) t).
Proof.
  intros H0 Hi. eexists. unfold push_back.
  erewrite run_cons;
    last by apply (BoundedPoly_value_done Storage IUnaryOp s 0 (selected i)
                     [plain r] VirtualMover_value (selected_accepts i r)).
  erewrite run_cons.
  2: { simpl. eapply (BoundedPoly_move_done _ (S i) 0); simpl.
       - by rewrite lookup_insert_ne.
       - apply lookup_insert_eq.
       - apply selected_overrides. }
  erewrite run_cons.
  2: { simpl. eapply (destructor_done _ 0); simpl.
       rewrite lookup_insert_ne by done. apply lookup_insert_eq. }
  simpl. rewrite selected_moved.
  rewrite (moved_into_object _ _ _ _ (selected_type i r)
             (selected_memberwise i)).
  f_equal. f_equal. apply map_eq. intros k.
  destruct (decide (0 = k)) as [<-|]; [by lookups|].
  destruct (decide (S i = k)) as [<-|]; by lookups.
Qed.

Lemma build_done rs : ∀ i s,
  heap s !! 0 = None →
  (∀ k, i ≤ k → heap s !! S k = None) →
  ∃ s',
    run Storage IUnaryOp (build i rs) s = Done tt s'
    ∧ tmp s' = tmp s
    ∧ heap s' !! 0 = None
    ∧ (∀ k, k < i → heap s' !! S k = heap s !! S k)
    ∧ (∀ k r, rs !! k = Some r →
         ∃ id, heap s' !! S (i + k)
               = Some (Container VirtualMover_value
                         (Some (Object id (selected (i + k)) [plain r]))))
    ∧ size (heap s') = size (heap s) + length rs.
Proof.
  induction rs as [|r rs IH]; intros i s H0 Hfree.
  - exists s. simpl. repeat split; try done; lia.
  - destruct (push_back_done s i r H0 (Hfree i (le_n _))) as [t Hpush].
    change (build i (r :: rs)) with (push_back i r ++ build (S i) rs).
    rewrite (run_app _ _ _ _ _ _ Hpush).
    edestruct (IH (S i)) as (s' & Hrun & Htmp & H0' & Hkeep & Helem & Hsize);
      [| |exists s'; split; [exact Hrun|]]; simpl.
    + by rewrite lookup_insert_ne.
    + intros k Hk. rewrite lookup_insert_ne by lia. apply Hfree. lia.
    + simpl in *. split; [done|]. split; [done|]. split.
      { intros k Hk. rewrite Hkeep by lia. apply lookup_insert_ne. lia. }
      split.
      { intros [|k] r'; simpl.
        - intros [= <-]. rewrite Nat.add_0_r, Hkeep by lia.
          eexists. apply lookup_insert_eq.
        - intros Hr. rewrite Nat.add_succ_r. by apply Helem. }
      rewrite Hsize, map_size_insert_None by (apply Hfree; lia). lia.
Qed.

Lemma evaluate_done rs : ∀ i s accum,
  (∀ k r, rs !! k = Some r →
     ∃ id, heap s !! S (i + k)
           = Some (Container VirtualMover_value
                     (Some (Object id (selected (i + k)) [plain r])))) →
  evaluate i (length rs) accum s
  = match evaluate_variant (build_variant i rs) accum with
    | Some a => Done a s
    | None => Undefined
    end.
Proof.
  induction rs as [|r rs IH]; intros i s accum Helem; simpl; [done|].
  destruct (Helem 0 r eq_refl) as [id Hid]. rewrite Nat.add_0_r in Hid.
  unfold arrow. erewrite bind_done; last by eapply live_stored.
  rewrite apply_selected.
  destruct (visit (push_back_variant i r) accum) as [a|]; [|done].
  apply IH. intros k r' Hr. replace (S i + k) with (i + S k) by lia.
  by apply Helem.
Qed.

End OnBenchmark.

(** X18.  The benchmark over [BoundedPoly] computes what the benchmark over
    [std::variant] computes, for every sequence of values of [rand()]:
    building the pipeline by [push_back] is defined and leaves one container
    per value, and the evaluation ends with the same [accum], or is
    undefined by the same overflow of an [int]. *)
Theorem benchmark_agrees_with_variant (rs : list Z) :
  (∃ s : state (VirtualMover Benchmark.IUnaryOp),
     run Benchmark.Storage Benchmark.IUnaryOp (Benchmark.build 0 rs) initial
     = Done tt s
     ∧ size (heap s) = length rs
     ∧ tmp s = None)
  ∧ match Benchmark.main_variant rs with
    | Some a => ∃ s, Benchmark.main rs initial = Done a s
    | None => Benchmark.main rs initial = Undefined
    end.
Proof.
  destruct (build_done rs 0 initial)
    as (s & Hrun & Htmp & _ & _ & Helem & Hsize); [done|done|].
  split.
  - exists s. split; [done|]. split; [|done].
    rewrite Hsize. unfold initial; simpl. by rewrite map_size_empty.
  - unfold Benchmark.main, Benchmark.main_variant.
    rewrite (bind_done _ _ _ _ _ Hrun), (evaluate_done rs 0 s 0 Helem).
    destruct (Benchmark.evaluate_variant _ _); eauto.
Qed.

(** *** The two move strategies side by side *)

Section Overriding.
Variables (Storage : type_info) (B : class).
Implicit Types (su : state (UniversalMover B)) (sv : state (VirtualMover B)).

Lemma accepts_same T v :
  accepts (Mover := UniversalMover B) Storage B T v
  = accepts (Mover := VirtualMover B) Storage B T v.
Proof.
  by unfold accepts, class_static_asserts, can_handle, is_movable.
Qed.

Lemma accepts_args_same T args :
  accepts_args (Mover := UniversalMover B) Storage B T args
  = accepts_args (Mover := VirtualMover B) Storage B T args.
Proof.
  by unfold accepts_args, class_static_asserts, can_handle, is_movable.
Qed.

Lemma asserted_same op :
  asserted (Mover := UniversalMover B) Storage B op
  = asserted (Mover := VirtualMover B) Storage B op.
Proof.
  destruct op; simpl; by rewrite ?accepts_same, ?accepts_args_same.
Qed.

Lemma VirtualMover_storable T v :
  accepts (Mover := VirtualMover B) Storage B T v = true →
  overrides_relocation (decl T) = true →
  storable (Mover := VirtualMover B) Storage B T v.
Proof.
  intros Ha Ho. split; [done|]. exists VirtualMover_value. split; [done|].
  apply VirtualMover_fits. by apply final_overrider_self.
Qed.

Lemma VirtualMover_done_well_formed sv op sv' :
  overriding op →
  perform Storage B op sv = Done tt sv' →
  well_formed (Mover := VirtualMover B) Storage B op.
Proof.
  intros Ho.
  destruct op as [i T v|i T args|i j|i T v|i j|i T args|i j|i]; simpl;
    try done; intros Hrun.
  - apply BoundedPoly_value_inv in Hrun as (m & Ha & _).
    apply VirtualMover_storable; [done|by apply (Ho T)].
  - apply BoundedPoly_in_place_inv in Hrun as (m & v & _ & Hv & Ha & _).
    intros v' Hv'. rewrite Hv in Hv'. injection Hv' as <-.
    apply VirtualMover_storable; [done|by apply (Ho T)].
  - apply assign_value_inv in Hrun as (m & m0 & o & Ha & _).
    apply VirtualMover_storable; [done|by apply (Ho T)].
  - apply emplace_inv in Hrun as (m & m0 & o & v & _ & Hv & Ha & _).
    intros v' Hv'. rewrite Hv in Hv'. injection Hv' as <-.
    apply VirtualMover_storable; [done|by apply (Ho T)].
Qed.

Lemma VirtualMover_run_invariant ops : ∀ sv sv',
  invariant sv →
  Forall overriding ops →
  run Storage B ops sv = Done tt sv' →
  invariant sv'.
Proof.
  induction ops as [|op ops IH]; intros sv sv' Hs Hops; simpl.
  - by intros [= <-].
  - apply Forall_cons in Hops as [Hop Hops]. unfold bind.
    destruct (perform Storage B op sv) as [[] s| | |] eqn:Hrun; try done.
    apply IH; [|done].
    eapply (invariant_step Storage B); [done| |done].
    by eapply VirtualMover_done_well_formed.
Qed.

End Overriding.

(** X19.  With the stateless mover, a program that stores only classes that
    declare their own override of the relocation method keeps every
    container sound: in the state it ends in, each container holds an object
    whose class overrides the method and which has the members of its class,
    and relocation between two containers keeps dynamic types. *)
Theorem VirtualMover_sound_when_classes_override
    (Storage : type_info) (B : class) ops (s : state (VirtualMover B)) :
  Forall overriding ops →
  run Storage B ops initial = Done tt s →
  (∀ i, is_Some (heap s !! i) →
     ∃ o, get i s = Done o s
          ∧ overrides_relocation (decl (dyn o)) = true
          ∧ has_type (dyn o) (fields o) = true)
  ∧ (∀ i j oi oj,
       i ≠ j → get i s = Done oi s → get j s = Done oj s →
       relocation_keeps_type s i j oi oj).
Proof.
  intros Hops Hrun.
  assert (invariant s) as [Htmp Hsound].
  { apply (VirtualMover_run_invariant Storage B ops initial); [|done..].
    split; [done|]. intros i c. unfold initial; simpl.
    by rewrite lookup_empty. }
  assert (∀ i o, get i s = Done o s → consistent s i VirtualMover_value o)
    as Hc.
  { intros i o [_ [m Hi]]%get_holds.
    destruct (sound_inv _ (Hsound _ _ Hi)) as (m' & o' & Heq & Hf & Ht).
    injection Heq as <-. by destruct m, m'. }
  split.
  - intros i [c Hi].
    destruct (sound_inv _ (Hsound _ _ Hi)) as (m & o & -> & Hf & Ht).
    exists o. split; [apply get_holds; split; [done|by exists m]|].
    split; [|done]. by apply final_overrider_self, (VirtualMover_fits B m).
  - intros i j oi oj Hij Hi Hj.
    apply (relocation_types s i j VirtualMover_value VirtualMover_value);
      [done|by apply Hc..].
Qed.

Section Defined_dec.
Context {Mover : Type} `{MoverType Mover}.

Lemma defined_dec (s : state Mover) op : defined s op ∨ ¬ defined s op.
Proof.
  destruct op as [i T v|i T args|i j|i T v|i j|i T args|i j|i]; simpl.
  - destruct (heap s !! i); [right|left]; done.
  - destruct (heap s !! i); [right|left]; done.
  - destruct (heap s !! i); [right; by intros [? _]|].
    destruct (heap s !! j); [left; by eauto|right]. by intros [_ [? ?]].
  - destruct (heap s !! i); [left; by eauto|right]. by intros [? ?].
  - destruct (decide (i = j)); [right; by intros [? _]|].
    destruct (heap s !! i); [|right; by intros (_ & [? ?] & _)].
    destruct (heap s !! j); [left; by eauto|right]. by intros (_ & _ & [? ?]).
  - destruct (heap s !! i); [left; by eauto|right]. by intros [? ?].
  - destruct (heap s !! i); [|right; by intros ([? ?] & _)].
    destruct (heap s !! j); [left; by eauto|right]. by intros (_ & [? ?]).
  - destruct (heap s !! i); [left; by eauto|right]. by intros [? ?].
Qed.

End Defined_dec.

Section Agreement.
Variables (Storage : type_info) (B : class).
Implicit Types (su : state (UniversalMover B)) (sv : state (VirtualMover B)).

Lemma same_none su sv k :
  same_values su sv → heap su !! k = None ↔ heap sv !! k = None.
Proof. intros [Hh _]. by rewrite <- !(fmap_None storage_), Hh. Qed.

Lemma same_some su sv k :
  same_values su sv → is_Some (heap su !! k) ↔ is_Some (heap sv !! k).
Proof. intros [Hh _]. by rewrite <- !(fmap_is_Some storage_), Hh. Qed.

Lemma defined_same su sv op :
  same_values su sv → defined su op ↔ defined sv op.
Proof.
  intros R. destruct op; simpl;
    by rewrite ?(same_none su sv _ R), ?(same_some su sv _ R).
Qed.

(** A statement that passes the assertions of its member stores a storable
    class, under either mover. *)
Lemma asserted_well_formed op :
  overriding op →
  asserted (Mover := UniversalMover B) Storage B op = true →
  well_formed (Mover := UniversalMover B) Storage B op
  ∧ well_formed (Mover := VirtualMover B) Storage B op.
Proof.
  intros Ho Ha.
  destruct op as [i T v|i T args|i j|i T v|i j|i T args|i j|i];
    simpl in *; try done.
  - pose proof Ha as Ha'. rewrite accepts_same in Ha'.
    split; [by apply UniversalMover_storable|].
    apply VirtualMover_storable; [done|by apply Ho].
  - apply andb_true_iff in Ha as [_ Ha].
    split; intros v Hv;
      rewrite (accepts_args_made Storage B _ _ _ Hv) in Ha.
    + by apply UniversalMover_storable.
    + rewrite accepts_same in Ha.
      apply VirtualMover_storable; [done|by apply Ho].
  - pose proof Ha as Ha'. rewrite accepts_same in Ha'.
    split; [by apply UniversalMover_storable|].
    apply VirtualMover_storable; [done|by apply Ho].
  - apply andb_true_iff in Ha as [Ha _].
    split; intros v Hv;
      rewrite (accepts_args_made Storage B _ _ _ Hv) in Ha.
    + by apply UniversalMover_storable.
    + rewrite accepts_same in Ha.
      apply VirtualMover_storable; [done|by apply Ho].
Qed.

Lemma completes_dec op :
  asserted (Mover := UniversalMover B) Storage B op = true →
  completes op ∨ ∃ args, calls op = Some args ∧ made args = None.
Proof.
  destruct op as [i T v|i T args|i j|i T v|i j|i T args|i j|i]; simpl;
    try (by left).
  - intros [Hc _]%andb_true_iff.
    destruct (made args) eqn:Hv; [left; by eauto|right; by eauto].
  - intros [_ Hc]%andb_true_iff.
    destruct (made args) eqn:Hv; [left; by eauto|right; by eauto].
Qed.

Ltac same_object Hh i :=
  let E := fresh in
  pose proof (Hh i) as E;
  repeat match goal with
  | H : heap _ !! i = Some _ |- _ => rewrite H in E
  end;
  simpl in E; injection E as <-.

Ltac same_keys Hh :=
  let k := fresh "k" in
  intros k; simpl;
  repeat match goal with
  | |- context [<[?a := _]> _ !! k] =>
      destruct (decide (a = k)) as [<-|?]; lookups; [done|]
  | |- context [delete ?a _ !! k] =>
      destruct (decide (a = k)) as [<-|?]; lookups; [done|]
  end;
  apply Hh.

(** A statement whose constructor throws ends the same way under both
    movers. *)
Lemma throw_agree su sv op args :
  same_values su sv → invariant su → invariant sv →
  asserted (Mover := UniversalMover B) Storage B op = true →
  defined su op →
  calls op = Some args → made args = None →
  ∃ su' sv',
    perform Storage B op su = Throws su'
    ∧ perform Storage B op sv = Throws sv'
    ∧ same_values su' sv'.
Proof.
  intros R Iu Iv Ha Du Hcall Hv.
  pose proof Ha as Ha'. rewrite asserted_same in Ha'.
  pose proof Du as Dv. rewrite (defined_same su sv op R) in Dv.
  destruct R as (Hh & Ht & Hn & Htr).
  destruct op as [i T v|i T args'|i j|i T v|i j|i T args'|i j|i];
    simpl in *; try done; injection Hcall as ->.
  - apply andb_true_iff in Ha as [Hc Hau].
    apply andb_true_iff in Ha' as [_ Hav].
    eexists _, _.
    split; [by apply (BoundedPoly_in_place_throws Storage B su i T args
                        (UniversalMover_for T))|].
    split; [by apply (BoundedPoly_in_place_throws Storage B sv i T args
                        VirtualMover_value)|].
    unfold same_values; simpl. by rewrite Ht, Hn, Htr.
  - apply andb_true_iff in Ha as [Hau Hc].
    apply andb_true_iff in Ha' as [Hav _].
    destruct Du as [cu Hiu], Dv as [cv Hiv].
    destruct Iu as [_ Su], Iv as [_ Sv].
    destruct (sound_inv _ (Su _ _ Hiu)) as (mu & ou & -> & _ & _).
    destruct (sound_inv _ (Sv _ _ Hiv)) as (mv & ov & -> & _ & _).
    same_object Hh i.
    eexists _, _.
    split; [by apply (emplace_throws Storage B su i T args
                        (UniversalMover_for T) mu ou)|].
    split; [by apply (emplace_throws Storage B sv i T args
                        VirtualMover_value mv ou)|].
    unfold same_values; simpl. rewrite Ht, Hn, Htr.
    split; [same_keys Hh|done].
Qed.

Lemma step_agree su sv op :
  same_values su sv → invariant su → invariant sv → overriding op →
  match perform Storage B op su, perform Storage B op sv with
  | Done _ su', Done _ sv' =>
      same_values su' sv' ∧ invariant su' ∧ invariant sv'
  | Throws su', Throws sv' => same_values su' sv'
  | Undefined, Undefined | IllFormed, IllFormed => True
  | _, _ => False
  end.
Proof.
  intros R Iu Iv Ho.
  destruct (asserted (Mover := UniversalMover B) Storage B op) eqn:Ha.
  2: { rewrite (rejected Storage B su op Ha).
       rewrite asserted_same in Ha. by rewrite (rejected Storage B sv op Ha). }
  pose proof Ha as Ha'. rewrite asserted_same in Ha'.
  destruct (asserted_well_formed op Ho Ha) as [Wu Wv].
  destruct (defined_dec su op) as [Du|Du].
  2: { rewrite (not_defined_undefined Storage B su op Iu Ha);
         [|intros; by eexists|done].
       rewrite (not_defined_undefined Storage B sv op Iv Ha');
         [done|intros; by eexists|].
       by rewrite <- (defined_same su sv op R). }
  destruct (completes_dec op Ha) as [Hcall|(args & Hcall & Hv)].
  2: { destruct (throw_agree su sv op args R Iu Iv Ha Du Hcall Hv)
         as (su' & sv' & -> & -> & R').
       done. }
  pose proof Du as Dv. rewrite (defined_same su sv op R) in Dv.
  destruct (defined_runs Storage B su op Iu Wu Hcall Du) as [su' Hu].
  destruct (defined_runs Storage B sv op Iv Wv Hcall Dv) as [sv' Hv].
  rewrite Hu, Hv.
  split; [|split; by eapply (invariant_step Storage B)].
  destruct R as (Hh & Ht & Hn & Htr).
  destruct op as [i T v|i T args|i j|i T v|i j|i T args|i j|i];
    simpl in Hu, Hv.
  - apply BoundedPoly_value_inv in Hu as (mu & _ & _ & Hiu & ->).
    apply BoundedPoly_value_inv in Hv as (mv & _ & _ & Hiv & ->).
    unfold same_values; simpl. rewrite Ht, Hn, Htr.
    split; [same_keys Hh|done].
  - apply BoundedPoly_in_place_inv in Hu
      as (mu & vu & _ & Hvu & _ & _ & Hiu & ->).
    apply BoundedPoly_in_place_inv in Hv
      as (mv & vv & _ & Hvv & _ & _ & Hiv & ->).
    rewrite Hvu in Hvv. injection Hvv as <-.
    unfold same_values; simpl. rewrite Ht, Hn, Htr.
    split; [same_keys Hh|done].
  - apply BoundedPoly_move_inv in Hu as (mu & ou & Xu & Hiu & Hju & HXu & ->).
    apply BoundedPoly_move_inv in Hv as (mv & ov & Xv & Hiv & Hjv & HXv & ->).
    apply (target_exact su j _ _ _ Iu Hju) in HXu as [-> _].
    apply (target_exact sv j _ _ _ Iv Hjv) in HXv as [-> _].
    same_object Hh j.
    unfold same_values; simpl. rewrite Ht, Hn, Htr.
    split; [same_keys Hh|done].
  - apply assign_value_inv in Hu as (mu & m0u & ou & _ & _ & Hiu & ->).
    apply assign_value_inv in Hv as (mv & m0v & ov & _ & _ & Hiv & ->).
    same_object Hh i.
    unfold same_values; simpl. rewrite Ht, Hn, Htr.
    split; [same_keys Hh|done].
  - apply assign_move_inv in Hu
      as (miu & mju & oiu & oju & Xu & Hij & Hiu & Hju & HXu & ->).
    apply assign_move_inv in Hv
      as (miv & mjv & oiv & ojv & Xv & _ & Hiv & Hjv & HXv & ->).
    apply (target_exact su j _ _ _ Iu Hju) in HXu as [-> _].
    apply (target_exact sv j mjv _ _ Iv Hjv) in HXv as [-> _].
    same_object Hh i. same_object Hh j.
    unfold same_values; simpl. rewrite Ht, Hn, Htr.
    split; [same_keys Hh|done].
  - apply emplace_inv in Hu
      as (mu & m0u & ou & vu & _ & Hvu & _ & _ & Hiu & ->).
    apply emplace_inv in Hv
      as (mv & m0v & ov & vv & _ & Hvv & _ & _ & Hiv & ->).
    rewrite Hvu in Hvv. injection Hvv as <-.
    same_object Hh i.
    unfold same_values; simpl. rewrite Ht, Hn, Htr.
    split; [same_keys Hh|done].
  - apply swap_inv in Hu
      as (mau & mbu & oau & obu & Xu & Yu & Zu & Hiu & Hju & HXu & HYu
          & HZu & ->).
    apply swap_inv in Hv
      as (mav & mbv & oav & obv & Xv & Yv & Zv & Hiv & Hjv & HXv & HYv
          & HZv & ->).
    pose proof HXu as HXu'. pose proof HXv as HXv'.
    apply (target_exact su i _ _ _ Iu Hiu) in HXu' as [-> _].
    apply (target_exact sv i _ _ _ Iv Hiv) in HXv' as [-> _].
    rewrite HXu in HZu. injection HZu as <-.
    simpl in HXv, HZv. rewrite HXv in HZv. injection HZv as <-.
    apply (target_exact su j _ _ _ Iu Hju) in HYu as [-> _].
    apply (target_exact sv j _ _ _ Iv Hjv) in HYv as [-> _].
    same_object Hh i. same_object Hh j.
    unfold same_values; simpl. rewrite Hn, Htr.
    split; [same_keys Hh|done].
  - apply destructor_inv in Hu as (mu & ou & Hiu & ->).
    apply destructor_inv in Hv as (mv & ov & Hiv & ->).
    same_object Hh i.
    unfold same_values; simpl. rewrite Ht, Hn, Htr.
    split; [same_keys Hh|done].
Qed.

Lemma run_agree ops : ∀ su sv,
  same_values su sv → invariant su → invariant sv → Forall overriding ops →
  same_outcome (run Storage B ops su) (run Storage B ops sv).
Proof.
  induction ops as [|op ops IH]; intros su sv R Iu Iv Hops; simpl; [done|].
  apply Forall_cons in Hops as [Hop Hops].
  pose proof (step_agree su sv op R Iu Iv Hop) as Hstep. unfold bind.
  destruct (perform Storage B op su) as [[] su'| | |],
    (perform Storage B op sv) as [[] sv'| | |]; try done.
  destruct Hstep as (R' & Iu' & Iv'). by apply IH.
Qed.

End Agreement.

(** X20.  The two move strategies give the same programs the same meaning.
    A program that stores only classes that declare their own override of
    the relocation method ends the same way over containers with the
    stateful [UniversalMover] and over containers with the stateless
    [VirtualMover]: both reject it, or both are undefined, or both end in
    the exception of the same constructor, or both run to the end, through
    the same events, into stores in which the same containers hold the same
    objects, so that [get] returns the same object in both. *)
Theorem move_strategies_agree (Storage : type_info) (B : class) ops :
  Forall overriding ops →
  same_outcome
    (run Storage B ops (initial : state (UniversalMover B)))
    (run Storage B ops (initial : state (VirtualMover B)))
  ∧ ∀ su sv,
      run Storage B ops (initial : state (UniversalMover B)) = Done tt su →
      run Storage B ops (initial : state (VirtualMover B)) = Done tt sv →
      trace su = trace sv
      ∧ ∀ i, same_outcome (get i su) (get i sv).
Proof.
  intros Hops.
  assert (same_outcome
            (run Storage B ops (initial : state (UniversalMover B)))
            (run Storage B ops (initial : state (VirtualMover B)))) as Hsame.
  { apply run_agree; try done.
    all: split; [done|]; intros i c; unfold initial; simpl;
      by rewrite lookup_empty. }
  split; [done|]. intros su sv Hu Hv. rewrite Hu, Hv in Hsame.
  destruct Hsame as (_ & Hh & Ht & Hn & Htr). split; [done|].
  intros i. pose proof (Hh i) as Hi.
  unfold get, live, bind, read, ret, undefined; simpl.
  destruct (heap su !! i) as [[mu [ou|]]|], (heap sv !! i) as [[mv [ov|]]|];
    simpl in *; try done.
  injection Hi as <-. by repeat split.
Qed.

(** *** The further properties on the classes of the test suite *)

Section FurtherOnFixture.
Import Fixture.

Lemma base_and_derived_consistent :
  consistent base_and_derived 0 (UniversalMover_for Base) (Object 0 Base base_42)
  ∧ consistent base_and_derived 1 (UniversalMover_for Derived)
      (Object 1 Derived derived_50_0).
Proof. repeat split; reflexivity. Defined.

Lemma noticeable_and_base_consistent :
  consistent noticeable_and_base 0 (UniversalMover_for NoticeableDestructor)
    (Object 0 NoticeableDestructor [unique_ptr (Some 5%Z); plain 0])
  ∧ consistent noticeable_and_base 1 (UniversalMover_for Base)
      (Object 1 Base base_42).
Proof. repeat split; reflexivity. Defined.

Lemma base_and_derived_invariant : invariant base_and_derived.
Proof.
  split; [reflexivity|]. intros i c. unfold base_and_derived; simpl.
  destruct (decide (1 = i)) as [<-|]; lookups.
  { intros [= <-]. by eexists. }
  destruct (decide (0 = i)) as [<-|]; lookups.
  { intros [= <-]. by eexists. }
  by rewrite lookup_empty.
Defined.

Lemma is_storable_preorder_witness :
  is_storable int Trivial = true
  ∧ is_storable Trivial Trivial = is_trivial Trivial.
Proof.
  split.
  - apply (proj1 is_storable_preorder int long_long_int Trivial); reflexivity.
  - apply (proj2 is_storable_preorder).
Defined.

Lemma larger_storage_accepts_more_witness :
  class_static_asserts (UniversalMover Base) Trivial Base = true
  ∧ can_handle (UniversalMover Base) Trivial Base Derived = true
  ∧ accepts (Mover := UniversalMover Base) Trivial Base Derived derived_50_0
    = true.
Proof.
  destruct (larger_storage_accepts_more (Mover := UniversalMover Base)
              Storage Trivial Base Derived) as (H1 & H2 & H3); [reflexivity|].
  split; [apply H1; reflexivity|].
  split; [apply H2; reflexivity|apply H3; reflexivity].
Defined.

Lemma mover_storage_laws_witness :
  (∃ s1 s2,
     swap_mover 0 1 base_and_derived = Done tt s1
     ∧ swap_mover 0 1 s1 = Done tt s2
     ∧ heap s2 = heap base_and_derived
     ∧ mover_ <$> heap s1 !! 0 = Some (UniversalMover_for Derived)
     ∧ mover_ <$> heap s1 !! 1 = Some (UniversalMover_for Base))
  ∧ (∃ s1, copy_mover 0 (UniversalMover_for Derived) base_and_derived
           = Done tt s1
           ∧ mover_ <$> heap s1 !! 0 = Some (UniversalMover_for Derived))
  ∧ (∃ s1, swap_mover 0 0 base_and_derived = Done tt s1
           ∧ heap s1 = heap base_and_derived).
Proof.
  destruct (mover_storage_laws base_and_derived 0 1 (UniversalMover_for Base)
              (UniversalMover_for Derived) (Some (Object 0 Base base_42))
              (Some (Object 1 Derived derived_50_0)))
    as ((s1 & s2 & H1 & H2 & H3 & _ & _ & _ & H4) & Hcopy & Hself);
    [done|reflexivity|reflexivity|].
  split; [|split; [|done]].
  - exists s1, s2. destruct H4 as [? ?]; done.
  - destruct (Hcopy (UniversalMover_for Derived)) as (s & ? & _ & _ & _ & Hm).
    exists s. split; [done|]. by apply Hm.
Defined.

Lemma UniversalMover_call_needs_a_derived_object_witness :
  (∃ s' dst,
     call_mover (UniversalMover_for Base) (Stored 1) (Stored 0) base_and_derived
     = Done tt s'
     ∧ get 0 s' = Done dst s'
     ∧ dyn dst = Base)
  ∧ call_mover (UniversalMover_for Derived) (Stored 0) (Stored 1)
      base_and_derived = Undefined.
Proof.
  split.
  - apply (UniversalMover_call_needs_a_derived_object Base base_and_derived 0 1
             (UniversalMover_for Base) (UniversalMover_for Derived)
             (Some (Object 0 Base base_42)) (Object 1 Derived derived_50_0)
             Base); done.
  - apply (UniversalMover_call_needs_a_derived_object Base base_and_derived 1 0
             (UniversalMover_for Derived) (UniversalMover_for Base)
             (Some (Object 1 Derived derived_50_0)) (Object 0 Base base_42)
             Derived); done.
Defined.

Lemma VirtualMover_relocates_as_final_overrider_witness :
  (∃ s' dst,
     BoundedPoly_move 2 1 base2_and_derived2 = Done tt s'
     ∧ get 2 s' = Done dst s'
     ∧ dyn dst = Derived2
     ∧ fields dst = derived_50_0)
  ∧ (∃ s' dst,
       BoundedPoly_move 1 0
         (State (<[0 := Container (VirtualMover_value (T := Base2))
                           (Some (Object 0 Inheriting2 derived_50_0))]> ∅)
            None 1 [])
       = Done tt s'
       ∧ get 1 s' = Done dst s'
       ∧ dyn dst = Base2
       ∧ fields dst = [unique_ptr (Some 50%Z)])
  ∧ (∃ s' dst,
       BoundedPoly_move 1 0
         (State (<[0 := Container (VirtualMover_value (T := Base2))
                           (Some (Object 0 NoticeableDestructor2
                                    [unique_ptr (Some 5%Z); plain 0]))]> ∅)
            None 1 [])
       = Done tt s'
       ∧ get 1 s' = Done dst s'
       ∧ dyn dst = NoticeableDestructor2
       ∧ fields dst = [unique_ptr None; plain 0]).
Proof.
  split; [|split].
  - destruct (VirtualMover_relocates_as_final_overrider Base2
                base2_and_derived2 1 2 VirtualMover_value
                (Object 1 Derived2 derived_50_0)) as [Hdone _];
      [reflexivity|reflexivity|].
    destruct (Hdone Derived2) as (_ & _ & s' & dst & ? & ? & ? & _ & Hm & _);
      [reflexivity|].
    exists s', dst. split; [done|]. split; [done|]. split; [done|].
    by apply Hm.
  - destruct (VirtualMover_relocates_as_final_overrider Base2
                (State (<[0 := Container (VirtualMover_value (T := Base2))
                                  (Some (Object 0 Inheriting2 derived_50_0))]> ∅)
                   None 1 [])
                0 1 VirtualMover_value (Object 0 Inheriting2 derived_50_0))
      as [Hdone _]; [reflexivity|reflexivity|].
    destruct (Hdone Base2) as (_ & _ & s' & dst & ? & ? & ? & _ & Hm & _);
      [reflexivity|].
    exists s', dst. split; [done|]. split; [done|]. split; [done|].
    by apply Hm.
  - destruct (VirtualMover_relocates_as_final_overrider Base2
                (State (<[0 := Container (VirtualMover_value (T := Base2))
                                  (Some (Object 0 NoticeableDestructor2
                                           [unique_ptr (Some 5%Z); plain 0]))]>
                          ∅)
                   None 1 [])
                0 1 VirtualMover_value
                (Object 0 NoticeableDestructor2
                   [unique_ptr (Some 5%Z); plain 0]))
      as [Hdone _]; [reflexivity|reflexivity|].
    destruct (Hdone NoticeableDestructor2)
      as (_ & _ & s' & dst & ? & ? & ? & Hf & _); [reflexivity|].
    by exists s', dst.
Defined.



Lemma defined_exactly_on_proper_operands_witness :
  (∃ s', perform Storage Base (Swap 0 1) base_and_derived = Done tt s')
  ∧ (∃ s', perform Storage Base (Swap 0 0) base_and_derived = Done tt s')
  ∧ (∃ s', perform Storage Base (InPlace 2 Derived Derived_50_0)
             base_and_derived = Done tt s')
  ∧ perform Storage Base (AssignMove 0 0) base_and_derived = Undefined
  ∧ perform Storage Base (Destruct 2) base_and_derived = Undefined
  ∧ perform Storage Base (Construct 1 Base base_42) base_and_derived
    = Undefined.
Proof.
  split; [|split; [|split; [|split; [|split]]]].
  - apply (defined_exactly_on_proper_operands Storage Base base_and_derived
             (Swap 0 1) base_and_derived_invariant I I).
    split; by eexists.
  - apply (defined_exactly_on_proper_operands Storage Base base_and_derived
             (Swap 0 0) base_and_derived_invariant I I).
    split; by eexists.
  - apply (defined_exactly_on_proper_operands Storage Base base_and_derived
             (InPlace 2 Derived Derived_50_0) base_and_derived_invariant).
    + intros v [= <-]. split; [reflexivity|].
      exists (UniversalMover_for Derived). by split.
    + split; [reflexivity|by eexists].
    + reflexivity.
  - apply (defined_exactly_on_proper_operands Storage Base base_and_derived
             (AssignMove 0 0) base_and_derived_invariant I I).
    by intros [? _].
  - apply (defined_exactly_on_proper_operands Storage Base base_and_derived
             (Destruct 2) base_and_derived_invariant I I).
    by intros [? ?].
  - apply (defined_exactly_on_proper_operands Storage Base base_and_derived
             (Construct 1 Base base_42) base_and_derived_invariant).
    + split; [reflexivity|]. exists (UniversalMover_for Base). by split.
    + done.
    + done.
Defined.

Lemma relocation_onto_itself_witness :
  BoundedPoly_move 1 1 base_and_derived = Undefined
  ∧ assign_move 1 1 base_and_derived = Undefined
  ∧ (∃ s' o',
       swap 1 1 base_and_derived = Done tt s'
       ∧ heap s' !! 1 = Some (Container (UniversalMover_for Derived) (Some o'))
       ∧ observe o' = (Derived, derived_50_0)
       ∧ length (constructed (trace s')) = 3
       ∧ destroyed (trace s') = [2])
  ∧ (∃ s' o',
       swap 0 0 noticeable_and_base = Done tt s'
       ∧ heap s' !! 0
         = Some (Container (UniversalMover_for NoticeableDestructor) (Some o'))
       ∧ observe o' = (NoticeableDestructor, [unique_ptr None; plain 0])).
Proof.
  destruct (relocation_onto_itself base_and_derived 1) as (Hmove & Hassign & Hswap).
  split; [exact Hmove|]. split; [exact Hassign|]. split.
  - destruct (Hswap (UniversalMover_for Derived) (Object 1 Derived derived_50_0))
      as (s' & o' & Hrun & Htr & Hh & _ & _ & _ & Hsame);
      [apply base_and_derived_consistent|].
    exists s', o'. split; [done|].
    split; [rewrite Hh; by lookups|].
    split; [by apply Hsame|].
    rewrite Htr. split; reflexivity.
  - destruct (relocation_onto_itself noticeable_and_base 0) as (_ & _ & Hswap').
    destruct (Hswap' (UniversalMover_for NoticeableDestructor)
                (Object 0 NoticeableDestructor [unique_ptr (Some 5%Z); plain 0]))
      as (s' & o' & Hrun & _ & Hh & _ & _ & Hcarried & _);
      [apply noticeable_and_base_consistent|].
    exists s', o'. split; [done|].
    split; [rewrite Hh; by lookups|done].
Defined.

Lemma other_containers_untouched_witness :
  ∃ s',
    perform Storage Base (Emplace 0 Derived Derived_default) base_and_derived
    = Done tt s'
    ∧ heap s' !! 1 = heap base_and_derived !! 1.
Proof.
  eexists. split; [vm_compute; reflexivity|].
  apply (other_containers_untouched Storage Base
           (Emplace 0 Derived Derived_default) base_and_derived).
  - vm_compute. reflexivity.
  - simpl. by intros [=]%list_elem_of_singleton.
Defined.

Lemma stored_value_is_read_back_witness :
  (∃ s' o,
     BoundedPoly_in_place (Mover := UniversalMover Base) Storage Base 0 Derived
       Derived_50_0 initial = Done tt s'
     ∧ get 0 s' = Done o s'
     ∧ observe o = (Derived, derived_50_0))
  ∧ (∃ s1 o1,
       assign_value Storage Base 0 Derived derived_50_0 base_and_derived
       = Done tt s1
       ∧ get 0 s1 = Done o1 s1 ∧ observe o1 = (Derived, derived_50_0))
  ∧ (∃ s2 o2,
       emplace Storage Base 0 Derived Derived_default base_and_derived
       = Done tt s2
       ∧ get 0 s2 = Done o2 s2 ∧ observe o2 = (Derived, derived_empty))
  ∧ (∃ s1 o1,
       assign_value Storage Base 1 NoticeableDestructor
         [unique_ptr (Some 5%Z); plain 0] base_and_derived = Done tt s1
       ∧ get 1 s1 = Done o1 s1
       ∧ observe o1 = (NoticeableDestructor, [unique_ptr None; plain 0])).
Proof.
  split; [|split; [|split]].
  - apply (stored_value_is_read_back (Mover := UniversalMover Base) Storage
             Base initial 0 Derived derived_50_0 Derived_50_0
             (UniversalMover_for Derived)); reflexivity.
  - destruct (stored_value_is_read_back Storage Base base_and_derived 0 Derived
                derived_50_0 Derived_50_0 (UniversalMover_for Derived))
      as (_ & Hset & _); [reflexivity..|].
    destruct (Hset (UniversalMover_for Base) (Object 0 Base base_42))
      as (s1 & o1 & ? & ? & _ & _ & Hm & _); [reflexivity|].
    exists s1, o1. split; [done|]. split; [done|]. by apply Hm.
  - destruct (stored_value_is_read_back Storage Base base_and_derived 0 Derived
                derived_empty Derived_default (UniversalMover_for Derived))
      as (_ & _ & Hemplace); [reflexivity..|].
    destruct (Hemplace eq_refl (UniversalMover_for Base) (Object 0 Base base_42))
      as (s2 & o2 & ? & ? & ? & _); [reflexivity|].
    by exists s2, o2.
  - destruct (stored_value_is_read_back Storage Base base_and_derived 1
                NoticeableDestructor [unique_ptr (Some 5%Z); plain 0]
                (nothrow_call [unique_ptr (Some 5%Z); plain 0])
                (UniversalMover_for NoticeableDestructor))
      as (_ & Hset & _); [reflexivity..|].
    destruct (Hset (UniversalMover_for Derived) (Object 1 Derived derived_50_0))
      as (s1 & o1 & ? & ? & Hd & Hf & _); [reflexivity|].
    exists s1, o1. split; [done|]. split; [done|].
    destruct o1 as [id c fs]. simpl in Hd, Hf. unfold observe; simpl.
    by rewrite Hd, Hf.
Defined.

Lemma relocation_transfers_value_and_ownership_witness :
  (∃ s' src dst,
     BoundedPoly_move 2 1 base_and_derived = Done tt s'
     ∧ heap s' !! 1 = Some (Container (UniversalMover_for Derived) (Some src))
     ∧ get 2 s' = Done dst s'
     ∧ transferred (Object 1 Derived derived_50_0) src dst)
  ∧ (∃ s' src dst,
       assign_move 0 1 base_and_derived = Done tt s'
       ∧ heap s' !! 1 = Some (Container (UniversalMover_for Derived) (Some src))
       ∧ get 0 s' = Done dst s'
       ∧ transferred (Object 1 Derived derived_50_0) src dst
       ∧ destroyed (trace s') = destroyed (trace base_and_derived) ++ [0])
  ∧ (∃ s' src dst,
       BoundedPoly_move 2 0 noticeable_and_base = Done tt s'
       ∧ heap s' !! 0
         = Some (Container (UniversalMover_for NoticeableDestructor) (Some src))
       ∧ get 2 s' = Done dst s'
       ∧ observe dst = (NoticeableDestructor, [unique_ptr None; plain 0])
       ∧ fields src = [unique_ptr (Some 5%Z); plain 0]).
Proof.
  destruct (relocation_transfers_value_and_ownership base_and_derived 0 1
              (UniversalMover_for Base) (UniversalMover_for Derived)
              (Object 0 Base base_42) (Object 1 Derived derived_50_0))
    as [Hmove Hassign];
    [done|apply base_and_derived_consistent..|].
  split; [|split].
  - destruct (Hmove 2) as (s' & src & dst & ? & ? & ? & _ & _ & _ & _ & Ht);
      [reflexivity|].
    exists s', src, dst. split; [done|]. split; [done|]. split; [done|].
    by apply Ht.
  - destruct Hassign as (s' & src & dst & ? & ? & ? & _ & _ & _ & _ & Ht & ?).
    exists s', src, dst. split; [done|]. split; [done|]. split; [done|].
    split; [by apply Ht|done].
  - destruct (relocation_transfers_value_and_ownership noticeable_and_base 1 0
                (UniversalMover_for Base)
                (UniversalMover_for NoticeableDestructor)
                (Object 1 Base base_42)
                (Object 0 NoticeableDestructor
                   [unique_ptr (Some 5%Z); plain 0]))
      as [Hmove' _]; [done|apply noticeable_and_base_consistent..|].
    destruct (Hmove' 2) as (s' & src & dst & ? & ? & ? & ? & _ & _ & ? & _);
      [reflexivity|].
    by exists s', src, dst.
Defined.

Lemma moving_out_and_back_restores_witness :
  (∃ s' o src,
     run Storage Base [MoveConstruct 2 1; AssignMove 1 2] base_and_derived
     = Done tt s'
     ∧ heap s' !! 1 = Some (Container (UniversalMover_for Derived) (Some o))
     ∧ observe o = (Derived, derived_50_0)
     ∧ heap s' !! 2 = Some (Container (UniversalMover_for Derived) (Some src))
     ∧ dyn src = Derived
     ∧ owned (fields src) = [])
  ∧ (∃ s' o,
       run Storage Base [MoveConstruct 2 0; AssignMove 0 2] noticeable_and_base
       = Done tt s'
       ∧ heap s' !! 0
         = Some (Container (UniversalMover_for NoticeableDestructor) (Some o))
       ∧ observe o = (NoticeableDestructor, [unique_ptr None; plain 0])).
Proof.
  split.
  - destruct (moving_out_and_back_restores Storage Base base_and_derived 1 2
                (UniversalMover_for Derived) (Object 1 Derived derived_50_0))
      as (s' & o & src & ? & ? & _ & ? & ? & Hm);
      [apply base_and_derived_consistent|reflexivity|].
    destruct (Hm eq_refl) as [? ?].
    by exists s', o, src.
  - destruct (moving_out_and_back_restores Storage Base noticeable_and_base 0 2
                (UniversalMover_for NoticeableDestructor)
                (Object 0 NoticeableDestructor
                   [unique_ptr (Some 5%Z); plain 0]))
      as (s' & o & src & ? & ? & ? & _);
      [apply noticeable_and_base_consistent|reflexivity|].
    by exists s', o.
Defined.

Lemma swap_is_symmetric_witness :
  ∃ s1 s2,
    swap 0 1 base_and_derived = Done tt s1
    ∧ swap 1 0 base_and_derived = Done tt s2
    ∧ tmp s1 = tmp s2
    ∧ ∀ k, mover_ <$> heap s1 !! k = mover_ <$> heap s2 !! k
           ∧ observe <$> (heap s1 !! k ≫= storage_)
             = observe <$> (heap s2 !! k ≫= storage_).
Proof.
  apply (swap_is_symmetric base_and_derived 0 1 (UniversalMover_for Base)
           (UniversalMover_for Derived) (Object 0 Base base_42)
           (Object 1 Derived derived_50_0));
    [done|apply base_and_derived_consistent..].
Defined.

Lemma construct_then_destroy_restores_witness :
  ∃ s1 s2,
    run Storage Base [Construct 2 Derived derived_50_0; Destruct 2]
      base_and_derived = Done tt s1
    ∧ run Storage Base [InPlace 2 Derived Derived_50_0; Destruct 2]
        base_and_derived = Done tt s2
    ∧ heap s1 = heap base_and_derived ∧ heap s2 = heap base_and_derived
    ∧ tmp s1 = tmp base_and_derived ∧ tmp s2 = tmp base_and_derived
    ∧ trace s1 = trace base_and_derived
                 ++ [EvBind Derived; EvNew (Stored 2) 2 Derived;
                     EvDestroy (Stored 2) 2]
    ∧ trace s2 = trace s1.
Proof.
  apply (construct_then_destroy_restores Storage Base base_and_derived 2
           Derived derived_50_0 Derived_50_0);
    [reflexivity|reflexivity|reflexivity|by eexists|reflexivity].
Defined.

Lemma lifetimes_in_reachable_states_witness :
  ∃ s : state (UniversalMover Base),
    run Storage Base test_program initial = Done tt s
    ∧ tmp s = None
    ∧ (∀ i, is_Some (heap s !! i) →
         ∃ o, get i s = Done o s ∧ deref i s = Done o s
              ∧ arrow i s = Done o s)
    ∧ (∀ i j o o',
         get i s = Done o s → get j s = Done o' s → oid o = oid o' → i = j)
    ∧ (∀ i o, get i s = Done o s →
         oid o ∈ constructed (trace s) ∧ oid o ∉ destroyed (trace s))
    ∧ NoDup (constructed (trace s))
    ∧ NoDup (destroyed (trace s))
    ∧ destroyed (trace s) ⊆ constructed (trace s).
Proof.
  eexists. split; [vm_compute; reflexivity|].
  apply (lifetimes_in_reachable_states Storage Base).
  apply (reachable_run Storage Base test_program initial);
    [apply reachable_initial|vm_compute; reflexivity].
Defined.

Lemma swap_overwrites_without_destroying_witness :
  ∃ s : state (UniversalMover Base),
    run Storage Base test_program initial = Done tt s
    ∧ length (constructed (trace s))
      = length (destroyed (trace s)) + size (heap s) + 2 * swaps test_program
    ∧ length (constructed (trace s)) = 9
    ∧ length (destroyed (trace s)) = 5.
Proof.
  eexists. split; [vm_compute; reflexivity|]. split; [|split; reflexivity].
  apply (proj1 (swap_overwrites_without_destroying Storage Base) test_program).
  vm_compute. reflexivity.
Defined.

Lemma stateless_program_overriding : Forall overriding stateless_program.
Proof.
  repeat apply Forall_cons_2; try apply Forall_nil_2;
    by intros T [= <-].
Defined.

Lemma VirtualMover_sound_when_classes_override_witness :
  ∃ s : state (VirtualMover Base2),
    run Storage Base2 stateless_program initial = Done tt s
    ∧ (∀ i, is_Some (heap s !! i) →
         ∃ o, get i s = Done o s
              ∧ overrides_relocation (decl (dyn o)) = true
              ∧ has_type (dyn o) (fields o) = true)
    ∧ (∀ i j oi oj,
         i ≠ j → get i s = Done oi s → get j s = Done oj s →
         relocation_keeps_type s i j oi oj).
Proof.
  eexists. split; [vm_compute; reflexivity|].
  apply (VirtualMover_sound_when_classes_override Storage Base2
           stateless_program _ stateless_program_overriding).
  vm_compute. reflexivity.
Defined.

Lemma move_strategies_agree_witness :
  same_outcome
    (run Storage Base2 stateless_program
       (initial : state (UniversalMover Base2)))
    (run Storage Base2 stateless_program
       (initial : state (VirtualMover Base2)))
  ∧ ∃ (su : state (UniversalMover Base2)) (sv : state (VirtualMover Base2)),
      run Storage Base2 stateless_program initial = Done tt su
      ∧ run Storage Base2 stateless_program initial = Done tt sv
      ∧ trace su = trace sv
      ∧ ∀ i, same_outcome (get i su) (get i sv).
Proof.
  pose proof (move_strategies_agree Storage Base2 stateless_program
                stateless_program_overriding) as [Hsame Hget].
  split; [exact Hsame|].
  eexists _, _. split; [vm_compute; reflexivity|].
  split; [vm_compute; reflexivity|].
  apply Hget; vm_compute; reflexivity.
Defined.

(** The benchmark on five values: [((((0 + 7) - 5) ^ 12) + 3) - 20]. *)
Example benchmark_on_five_values :
  Benchmark.main_variant [7; 5; 12; 3; 20]%Z = Some (-3)%Z
  ∧ ∃ s, Benchmark.main [7; 5; 12; 3; 20]%Z initial = Done (-3)%Z s.
Proof. split; [reflexivity|]. eexists. vm_compute. reflexivity. Qed.

(** A program in which the constructor of [Base] throws in place, with
    either mover: the statement ends in the exception and leaves no
    container. *)
Example throwing_constructor_in_place :
  ∃ s, run (Mover := UniversalMover Base) Storage Base
         [InPlace 0 Base throwing_call] initial = Throws s
       ∧ heap s = ∅.
Proof. eexists. split; vm_compute; reflexivity. Qed.

End FurtherOnFixture.
